(** * Exam-question similarity pipeline: a shallow embedding

    The development follows the Python sources module by module:

    - [Numpy], [Sklearn]     the array operations and scikit-learn's
                             [cosine_similarity], as far as the code uses them;
    - [SimilarityCalculator] [fused_similarity] and [calculate_similarity];
    - [Py]                   the few built-ins the code relies on (strings as
                             lists of code points, [strip], [split], [join],
                             [re.sub]);
    - [DataCleaner]          [clean_html], [segment_text],
                             [get_content_fingerprint], [clean_paper_data];
    - [PaperVectorizer]      the aggregation step of [vectorize_paper];
    - [Utils]                [extract_core_content], [normalize_choices],
                             [calculate_overall_similarity];
    - [TextVectorizer]       [vectorize_text], over the model's embedding of
                             one segment.

    Numbers: the code computes in IEEE double precision.  Here every float is
    a real number ([R]) and every operation is exact, so a statement below is
    a statement about the arithmetic the code implements, not about rounding.
    Exceptions are explicit: a computation returns an [outcome]. *)

From Stdlib Require Import Reals Lra Lia Psatz ZArith NArith List Permutation Sorted.
From Stdlib Require Import Ascii String DecimalNat DecimalFacts.
From stdpp Require Import base decidable gmap.
Import ListNotations.

(** ** Outcomes: a value, or a raised exception *)

Inductive exn : Type := ValueError | ZeroDivisionError | IndexError.

Inductive outcome (A : Type) : Type :=
| Returned (a : A)
| Raised (e : exn).

Arguments Returned {A} a.
Arguments Raised {A} e.

Definition bind {A B : Type} (c : outcome A) (k : A -> outcome B) : outcome B :=
  match c with
  | Returned a => k a
  | Raised e => Raised e
  end.

Notation "'let*' x ':=' c 'in' k" := (bind c (fun x => k))
  (at level 10, x name, c at level 100, k at level 200).

Fixpoint mapM {A B : Type} (f : A -> outcome B) (l : list A) : outcome (list B) :=
  match l with
  | [] => Returned []
  | x :: l' => let* y := f x in let* ys := mapM f l' in Returned (y :: ys)
  end.

(** A Python [str]: its sequence of Unicode code points. *)
Definition str : Type := list N.

(** ** Arrays *)

Module Numpy.
Local Open Scope R_scope.

Definition ndarray : Type := list R.
Definition matrix : Type := list (list R).

Fixpoint zip_with {A B C : Type} (f : A -> B -> C) (a : list A) (b : list B) : list C :=
  match a, b with
  | x :: a', y :: b' => f x y :: zip_with f a' b'
  | _, _ => []
  end.

(** [np.sum] of a one-dimensional array. *)
Definition np_sum (a : ndarray) : R := fold_right Rplus 0 a.

(** [a ** 2], element by element. *)
Definition np_square (a : ndarray) : ndarray := map (fun x => x * x) a.

(** [a - b] on one-dimensional arrays: equal shapes subtract element by
    element, a one-element array is broadcast, anything else is a shape
    error. *)
Definition np_sub (a b : ndarray) : outcome ndarray :=
  if (length a =? length b)%nat then Returned (zip_with Rminus a b)
  else if (length a =? 1)%nat then Returned (map (fun y => hd 0 a - y) b)
  else if (length b =? 1)%nat then Returned (map (fun x => x - hd 0 b) a)
  else Raised ValueError.

(** Division that reports a zero divisor. *)
Definition div (x y : R) : outcome R :=
  if Req_dec_T y 0 then Raised ZeroDivisionError else Returned (x / y).

(** [np.array(rows)] for a list of vectors: a matrix when all rows have one
    length, a shape error otherwise. *)
Definition width (m : matrix) : nat := length (hd [] m).

Definition np_array (rows : list ndarray) : outcome matrix :=
  if forallb (fun r => (length r =? width rows)%nat) rows
  then Returned rows else Raised ValueError.

(** [m[i][j]]; the default is never read on an index in range. *)
Definition get (m : matrix) (i j : nat) : R := nth j (nth i m []) 0.

End Numpy.

(** ** vectorizer.py: [euclidean_distance] *)

Module Vectorizer.
Import Numpy.
Local Open Scope R_scope.

(** [np.sqrt(np.sum((v1 - v2) ** 2))] *)
Definition euclidean_distance (v1 v2 : ndarray) : outcome R :=
  let* d := np_sub v1 v2 in
  Returned (sqrt (np_sum (np_square d))).

End Vectorizer.

(** ** scikit-learn's [cosine_similarity]

    The function is the library's, not the repository's.  It is modelled as
    the library computes it: both arguments are validated (at least one row,
    at least one column, the same number of columns), each row is divided by
    its Euclidean norm, a norm of zero being replaced by one first
    ([normalize], [_handle_zeros_in_scale]), and the result is the matrix of
    dot products of the normalised rows. *)

Module Sklearn.
Import Numpy.
Local Open Scope R_scope.

Fixpoint dot (a b : ndarray) : R :=
  match a, b with
  | x :: a', y :: b' => x * y + dot a' b'
  | _, _ => 0
  end.

Definition row_norm (a : ndarray) : R := sqrt (np_sum (np_square a)).

Definition handle_zeros_in_scale (n : R) : R :=
  if Req_dec_T n 0 then 1 else n.

Definition normalize_row (a : ndarray) : outcome ndarray :=
  mapM (fun x => div x (handle_zeros_in_scale (row_norm a))) a.

Definition normalize (X : matrix) : outcome matrix := mapM normalize_row X.

Definition check_pairwise_arrays (X Y : matrix) : outcome unit :=
  match X, Y with
  | [], _ | _, [] => Raised ValueError
  | _, _ =>
      if (width X =? 0)%nat || (width Y =? 0)%nat then Raised ValueError
      else if (width X =? width Y)%nat then Returned tt
      else Raised ValueError
  end.

Definition cosine_similarity (X Y : matrix) : outcome matrix :=
  let* ok := check_pairwise_arrays X Y in
  let* Xn := normalize X in
  let* Yn := normalize Y in
  Returned (map (fun a => map (fun b => dot a b) Yn) Xn).

End Sklearn.

(** ** similarity_calculator.py *)

Module SimilarityCalculator.
Import Numpy Vectorizer Sklearn.
Local Open Scope R_scope.

(** [fused_similarity(v_a, v_b, w_cos)].  [reshape(1, -1)] makes each vector
    a one-row matrix; [flatten()] gives the vector back. *)
Definition fused_similarity (v_a v_b : ndarray) (w_cos : R) : outcome R :=
  let* K := cosine_similarity [v_a] [v_b] in
  let cos_sim := get K 0 0 in
  let* euc_dist := euclidean_distance v_a v_b in
  let* euc_sim := div 1 (1 + euc_dist) in
  Returned (w_cos * cos_sim + (1 - w_cos) * euc_sim).

(** A question of a vectorised paper, as [json.load] returns it.  [q_vector]
    is [None] when the key is absent or its value is [null]. *)
Record question : Type := Question {
  q_id : str;
  q_type : str;
  q_text : str;
  q_vector : option (list R)
}.

(** The [{"id", "type", "text"}] dictionary kept per question. *)
Record info : Type := Info {
  info_id : str;
  info_type : str;
  info_text : str
}.

(** One entry of ["similar_pairs"]. *)
Record similar_pair : Type := SimilarPair {
  pair_a : info;
  pair_b : info;
  similarity : R
}.

(** Values of the result dictionary, and the dictionary itself: its keys in
    the order the code writes them. *)
Inductive value : Type :=
| VStr (s : str)
| VFloat (r : R)
| VBool (b : bool)
| VInt (n : nat)
| VPairs (l : list similar_pair).

Definition dict : Type := list (string * value).

Fixpoint dict_get (k : string) (d : dict) : option value :=
  match d with
  | [] => None
  | (k', v) :: d' => if String.eqb k k' then Some v else dict_get k d'
  end.

(** The two collecting loops: vectors and infos of the questions that carry
    a vector, in input order. *)
Definition collect_vectors (questions : list question) : list ndarray :=
  flat_map (fun q => match q_vector q with Some v => [v] | None => [] end) questions.

Definition collect_info (questions : list question) : list info :=
  flat_map (fun q => match q_vector q with
                     | Some _ => [Info (q_id q) (q_type q) (q_text q)]
                     | None => []
                     end) questions.

(** The vectorised Euclidean part. *)
Definition diff (A B : matrix) : list (list ndarray) :=
  map (fun a => map (fun b => zip_with Rminus a b) B) A.

Definition squared_diff (A B : matrix) : matrix :=
  map (map (fun d => np_sum (np_square d))) (diff A B).

Definition euc_dist_matrix (A B : matrix) : matrix :=
  map (map sqrt) (squared_diff A B).

Definition euc_sim_matrix (A B : matrix) : outcome matrix :=
  mapM (mapM (fun d => div 1 (1 + d))) (euc_dist_matrix A B).

Definition fused_sim_matrix (w : R) (C U : matrix) : matrix :=
  zip_with (zip_with (fun c u => w * c + (1 - w) * u)) C U.

(** The double loop over [(i, j)], before sorting. *)
Definition type_differs (a b : info) : bool :=
  negb (bool_decide (info_type a = info_type b)).

Definition candidate (type_sensitive : bool) (threshold : R)
    (info_a info_b : list info) (F : matrix) (i j : nat) : list similar_pair :=
  let a := nth i info_a (Info [] [] []) in
  let b := nth j info_b (Info [] [] []) in
  if type_sensitive && type_differs a b then []
  else
    let sim := get F i j in
    if Rge_dec sim threshold then [SimilarPair a b sim] else [].

Definition collect_pairs (type_sensitive : bool) (threshold : R)
    (info_a info_b : list info) (F : matrix) : list similar_pair :=
  flat_map (fun i =>
    flat_map (fun j => candidate type_sensitive threshold info_a info_b F i j)
             (seq 0 (length info_b)))
    (seq 0 (length info_a)).

(** [list.sort(key=..., reverse=True)]: a stable sort by descending key.  A
    stable sort has one result whatever the algorithm; insertion is the
    simplest that computes it. *)
Fixpoint insert_desc {A : Type} (key : A -> R) (x : A) (l : list A) : list A :=
  match l with
  | [] => [x]
  | y :: l' => if Rlt_dec (key x) (key y) then y :: insert_desc key x l'
               else x :: y :: l'
  end.

Definition sort_desc {A : Type} (key : A -> R) (l : list A) : list A :=
  fold_right (insert_desc key) [] l.

(** [calculate_similarity]; [paper_a] and [paper_b] are the ["questions"]
    lists of the two files once loaded. *)
Definition calculate_similarity
    (paper_a_file paper_b_file : str) (paper_a paper_b : list question)
    (threshold : R) (type_sensitive : bool) (fusion_weight : R)
    (deduplicate : bool) : outcome dict :=
  let vectors_a := collect_vectors paper_a in
  let info_a := collect_info paper_a in
  let vectors_b := collect_vectors paper_b in
  let info_b := collect_info paper_b in
  match vectors_a, vectors_b with
  | [], _ | _, [] =>
      Returned
        [ ("paper_a", VStr paper_a_file);
          ("paper_b", VStr paper_b_file);
          ("method", VStr [102; 117; 115; 101; 100]%N);
          ("threshold", VFloat threshold);
          ("type_sensitive", VBool type_sensitive);
          ("fusion_weight", VFloat fusion_weight);
          ("total_questions_a", VInt (length vectors_a));
          ("total_questions_b", VInt (length vectors_b));
          ("total_pairs", VInt 0);
          ("similar_pairs", VPairs []) ]%string
  | _, _ =>
      let* matrix_a := np_array vectors_a in
      let* matrix_b := np_array vectors_b in
      let* cos_sim_matrix := cosine_similarity matrix_a matrix_b in
      let* euc_sim := euc_sim_matrix matrix_a matrix_b in
      let fused := fused_sim_matrix fusion_weight cos_sim_matrix euc_sim in
      let similar_pairs :=
        sort_desc similarity
          (collect_pairs type_sensitive threshold info_a info_b fused) in
      Returned
        [ ("paper_a", VStr paper_a_file);
          ("paper_b", VStr paper_b_file);
          ("method", VStr [102; 117; 115; 101; 100]%N);
          ("threshold", VFloat threshold);
          ("type_sensitive", VBool type_sensitive);
          ("fusion_weight", VFloat fusion_weight);
          ("total_questions_a", VInt (length vectors_a));
          ("total_questions_b", VInt (length vectors_b));
          ("total_pairs", VInt (length similar_pairs));
          ("deduplicate", VBool deduplicate);
          ("similar_pairs", VPairs similar_pairs) ]%string
  end.

End SimilarityCalculator.

(** ** Python strings *)

Module Py.
Local Open Scope N_scope.

(** A literal of the source, as code points (ASCII literals only). *)
Definition codes (s : string) : str := map N_of_ascii (list_ascii_of_string s).

(** [str.isspace] of one character; [\s] of [re] and [strip()] and
    [split()] without argument use the same set. *)
Definition isspace (c : N) : bool :=
  ((9 <=? c) && (c <=? 13)) || ((28 <=? c) && (c <=? 32))
  || (c =? 133) || (c =? 160) || (c =? 5760)
  || ((8192 <=? c) && (c <=? 8202))
  || (c =? 8232) || (c =? 8233) || (c =? 8239) || (c =? 8287) || (c =? 12288).

Fixpoint drop_while (p : N -> bool) (s : str) : str :=
  match s with
  | [] => []
  | c :: s' => if p c then drop_while p s' else s
  end.

Fixpoint take_while (p : N -> bool) (s : str) : str :=
  match s with
  | [] => []
  | c :: s' => if p c then c :: take_while p s' else []
  end.

Definition lstrip (s : str) : str := drop_while isspace s.
Definition rstrip (s : str) : str := rev (drop_while isspace (rev s)).
Definition strip (s : str) : str := rstrip (lstrip s).

Definition is_nil {A : Type} (l : list A) : bool :=
  match l with [] => true | _ => false end.

(** [s.split(sep)] for a one-character separator. *)
Fixpoint split_on (sep : N) (s : str) : list str :=
  match s with
  | [] => [[]]
  | c :: s' =>
      if c =? sep then [] :: split_on sep s'
      else match split_on sep s' with
           | h :: t => (c :: h) :: t
           | [] => [[c]]
           end
  end.

(** [s.split()]: the maximal runs of characters that are not whitespace. *)
Fixpoint split_ws (s : str) : list str :=
  match s with
  | [] => []
  | c :: s' =>
      if isspace c then split_ws s'
      else match s' with
           | [] => [[c]]
           | c' :: _ =>
               if isspace c' then [c] :: split_ws s'
               else match split_ws s' with
                    | h :: t => (c :: h) :: t
                    | [] => [[c]]
                    end
           end
  end.

(** [sep.join(l)] *)
Fixpoint join (sep : str) (l : list str) : str :=
  match l with
  | [] => []
  | x :: l' => match l' with
               | [] => x
               | _ => x ++ sep ++ join sep l'
               end
  end.

(** [len(s)] *)
Definition len (s : str) : Z := Z.of_nat (length s).

(** [re.sub(pattern, repl, s)] for a pattern that never matches the empty
    string.  [find s] is the length of the match that starts at the head of
    [s], if there is one; [repl] receives the matched text and may keep a
    state (the list a callback appends to).  The scan copies a character
    where nothing matches and resumes after a match; [skip] counts the
    characters of a match still to pass over. *)
Section ReSub.
Context {St : Type}.
Variable find : str -> option nat.
Variable repl : St -> str -> outcome (St * str).

Fixpoint sub_from (skip : nat) (st : St) (s : str) : outcome (St * str) :=
  match s with
  | [] => Returned (st, [])
  | c :: s' =>
      match skip with
      | S k => sub_from k st s'
      | O =>
          match find s with
          | Some n =>
              let* r := repl st (firstn n s) in
              let* t := sub_from (pred n) (fst r) s' in
              Returned (fst t, snd r ++ snd t)
          | None =>
              let* t := sub_from 0 st s' in
              Returned (fst t, c :: snd t)
          end
      end
  end.

Definition re_sub (st : St) (s : str) : outcome (St * str) := sub_from 0 st s.

End ReSub.

(** [f'{n}']: the decimal digits of a natural number. *)
Fixpoint uint_codes (d : Decimal.uint) : str :=
  match d with
  | Decimal.Nil => []
  | Decimal.D0 d => 48 :: uint_codes d
  | Decimal.D1 d => 49 :: uint_codes d
  | Decimal.D2 d => 50 :: uint_codes d
  | Decimal.D3 d => 51 :: uint_codes d
  | Decimal.D4 d => 52 :: uint_codes d
  | Decimal.D5 d => 53 :: uint_codes d
  | Decimal.D6 d => 54 :: uint_codes d
  | Decimal.D7 d => 55 :: uint_codes d
  | Decimal.D8 d => 56 :: uint_codes d
  | Decimal.D9 d => 57 :: uint_codes d
  end.

Definition format_nat (n : nat) : str := uint_codes (Nat.to_uint n).

End Py.

(** ** data_cleaner.py *)

Module DataCleaner.
Import Py.
Local Open Scope N_scope.

Section Cleaner.

(** What the sources take from elsewhere:
    - [strip_markup]: [bleach.clean(..., tags=allowed_tags, strip=True)]
      followed by BeautifulSoup's parse, the removal of every attribute and
      [str(soup)];
    - [unicode_decimal]: the value of a decimal digit outside ASCII ([\d]
      and [int] accept every Unicode decimal digit);
    - [extract_core_content]: [utils.extract_core_content] (BeautifulSoup
      text extraction and three substitutions);
    - [sha256_hex]: [hashlib.sha256(s.encode('utf-8')).hexdigest()];
    - [basename]: [os.path.basename]. *)
Variable strip_markup : str -> str.
Variable unicode_decimal : N -> option nat.
Variable extract_core_content : str -> str.
Variable sha256_hex : str -> str.
Variable basename : str -> str.

(** *** [clean_html] *)

(** [(.*?)\$]: the characters up to the first [$], none of them a newline.
    The result counts them and the [$]. *)
Fixpoint dollar_close (s : str) : option nat :=
  match s with
  | [] => None
  | c :: s' =>
      if c =? 36 then Some 1%nat
      else if c =? 10 then None
      else option_map S (dollar_close s')
  end.

(** [(.*?)\\\]]: the same up to the first backslash followed by a closing
    bracket. *)
Fixpoint bracket_close (s : str) : option nat :=
  match s with
  | [] => None
  | c :: s' =>
      match s' with
      | [] => None
      | c2 :: _ =>
          if (c =? 92) && (c2 =? 93) then Some 2%nat
          else if c =? 10 then None
          else option_map S (bracket_close s')
      end
  end.

(** [math_pattern]: a dollar, a lazy body, a dollar; or the same between
    a backslash-bracket pair. *)
Definition math_pattern (s : str) : option nat :=
  match s with
  | c :: s' =>
      if c =? 36 then option_map S (dollar_close s')
      else match s' with
           | c2 :: s'' =>
               if (c =? 92) && (c2 =? 91)
               then option_map (fun n => S (S n)) (bracket_close s'')
               else None
           | [] => None
           end
  | [] => None
  end.

(** The text [__MATH_n__]. *)
Definition placeholder (n : nat) : str :=
  codes "__MATH_" ++ format_nat n ++ codes "__".

(** [save_math]: append the match, return the placeholder of its index. *)
Definition save_math (math_blocks : list str) (matched : str)
  : outcome (list str * str) :=
  Returned (math_blocks ++ [matched], placeholder (length math_blocks)).

(** [re.sub(r'\s+', ' ', s)] *)
Fixpoint collapse_from (in_run : bool) (s : str) : str :=
  match s with
  | [] => []
  | c :: s' =>
      if isspace c
      then (if in_run then collapse_from true s' else 32 :: collapse_from true s')
      else c :: collapse_from false s'
  end.

Definition collapse_whitespace (s : str) : str := collapse_from false s.

(** [re.sub(r'[\x00-\x1f\x7f-\x9f]', '', s)] *)
Definition is_control (c : N) : bool := (c <=? 31) || ((127 <=? c) && (c <=? 159)).

Definition remove_control (s : str) : str :=
  List.filter (fun c => negb (is_control c)) s.

(** [\d] and the value [int] gives a digit. *)
Definition decimal_value (c : N) : option nat :=
  if (48 <=? c) && (c <=? 57) then Some (N.to_nat (c - 48))
  else if c <? 128 then None
  else unicode_decimal c.

Definition is_digit (c : N) : bool :=
  match decimal_value c with Some _ => true | None => false end.

Definition int_of_digits (ds : str) : nat :=
  fold_left (fun acc c => (10 * acc + default 0 (decimal_value c))%nat) ds 0%nat.

(** [__MATH_(\d+)__] at the head of [s]: the greedy digit run, which must be
    followed by two underscores (a shorter run would be followed by a
    digit). *)
Definition starts_with (p s : str) : bool :=
  bool_decide (firstn (length p) s = p).

Definition placeholder_pattern (s : str) : option nat :=
  if starts_with (codes "__MATH_") s then
    let ds := take_while is_digit (skipn 7 s) in
    if negb (is_nil ds) && starts_with (codes "__") (skipn (7 + length ds) s)
    then Some (7 + length ds + 2)%nat
    else None
  else None.

(** [restore_math]; [match.group(1)] is the digit run. *)
Definition restore_math (math_blocks : list str) (st : unit) (matched : str)
  : outcome (unit * str) :=
  let idx := int_of_digits (take_while is_digit (skipn 7 matched)) in
  if (idx <? length math_blocks)%nat then
    match nth_error math_blocks idx with
    | Some block => Returned (st, block)
    | None => Raised IndexError
    end
  else Returned (st, []).

Definition clean_html (raw_html : str) : outcome str :=
  let* saved := re_sub math_pattern save_math [] raw_html in
  let math_blocks := fst saved in
  let protected_html := snd saved in
  let clean_text := strip_markup protected_html in
  let clean_text := collapse_whitespace clean_text in
  let clean_text := remove_control clean_text in
  let* restored :=
    re_sub placeholder_pattern (restore_math math_blocks) tt (strip clean_text) in
  Returned (snd restored).

(** *** [segment_text] *)

(** The four sentence-ending marks: ideographic full stop, full-width
    question mark, exclamation mark and semicolon. *)
Definition is_terminal (c : N) : bool :=
  (c =? 12290) || (c =? 65311) || (c =? 65281) || (c =? 65307).

(** The character loop.  The test [len(current_segment) >= max_length * 0.3]
    compares an integer with a double; for an integer [max_length] it holds
    exactly when [10 * len >= 3 * max_length]. *)
Fixpoint punctuation_segments (max_length : Z) (current_segment : str) (para : str)
  : list str :=
  match para with
  | [] => match current_segment with
          | [] => []
          | _ => [strip current_segment]
          end
  | char :: rest =>
      let current_segment := current_segment ++ [char] in
      if is_terminal char && (3 * max_length <=? 10 * len current_segment)%Z
      then strip current_segment :: punctuation_segments max_length [] rest
      else punctuation_segments max_length current_segment rest
  end.

(** The word loop. *)
Fixpoint pack_words (max_length : Z) (current_fragment : list str)
    (current_length : Z) (words : list str) : list str :=
  match words with
  | [] => match current_fragment with
          | [] => []
          | _ => [join [32] current_fragment]
          end
  | word :: rest =>
      if (max_length <? current_length + len word + 1)%Z
         && negb (is_nil current_fragment)
      then join [32] current_fragment
             :: pack_words max_length [word] (len word + 1)%Z rest
      else pack_words max_length (current_fragment ++ [word])
             (current_length + len word + 1)%Z rest
  end.

Definition paragraphs (text : str) : list str :=
  List.filter (fun p => negb (is_nil p)) (map strip (split_on 10 text)).

Definition segment_paragraph (max_length : Z) (para : str) : list str :=
  if (len para <=? max_length)%Z then [para]
  else
    flat_map
      (fun seg =>
         if (len seg <=? max_length)%Z then [seg]
         else pack_words max_length [] 0%Z (split_ws seg))
      (punctuation_segments max_length [] para).

Definition segment_text (text : str) (max_length : Z) : list str :=
  flat_map (segment_paragraph max_length) (paragraphs text).

(** *** Fingerprints and [clean_paper_data] *)

(** A record of the input file; [None] is an absent key. *)
Record exam_question : Type := ExamQuestion {
  richTextContent : option str;
  exam_id : option str;
  exam_type : option str
}.

(** A cleaned question; [cq_fingerprint] is [None] until the key is set. *)
Record cleaned_question : Type := CleanedQuestion {
  cq_id : str;
  cq_type : str;
  cq_text : str;
  cq_segments : list str;
  cq_fingerprint : option str
}.

Definition get_content_fingerprint (question : cleaned_question) (paper_id : str) : str :=
  let core_text := extract_core_content (cq_text question) in
  sha256_hex (paper_id ++ codes "::" ++ strip core_text).

(** One turn of the loop of [clean_paper_data] up to the fingerprint. *)
Definition clean_question (paper_id : str) (question : exam_question)
  : outcome cleaned_question :=
  let rich_content := default [] (richTextContent question) in
  let question_id := default [] (exam_id question) in
  let* cleaned_content := clean_html rich_content in
  let segments := segment_text cleaned_content 500 in
  let cleaned_question :=
    CleanedQuestion question_id (default [26410; 30693] (exam_type question))
                    cleaned_content segments None in
  let fingerprint := get_content_fingerprint cleaned_question paper_id in
  Returned (CleanedQuestion (cq_id cleaned_question) (cq_type cleaned_question)
                            (cq_text cleaned_question) (cq_segments cleaned_question)
                            (Some fingerprint)).

(** The loop: the questions kept so far and the fingerprints seen. *)
Fixpoint clean_loop (paper_id : str) (deduplicate : bool) (exam_data : list exam_question)
    (cleaned_questions : list cleaned_question) (seen_fingerprints : gset str)
  : outcome (list cleaned_question) :=
  match exam_data with
  | [] => Returned cleaned_questions
  | question :: rest =>
      let* cleaned_question := clean_question paper_id question in
      let fingerprint := default [] (cq_fingerprint cleaned_question) in
      if deduplicate && bool_decide (fingerprint ∈ seen_fingerprints)
      then clean_loop paper_id deduplicate rest cleaned_questions seen_fingerprints
      else clean_loop paper_id deduplicate rest
             (cleaned_questions ++ [cleaned_question])
             ({[fingerprint]} ∪ seen_fingerprints)
  end.

(** [clean_paper_data]: [exam_data] is the list loaded from [input_file];
    the result is the list written to [output_file]. *)
Definition clean_paper_data (input_file : str) (exam_data : list exam_question)
    (paper_id : option str) (deduplicate : bool) : outcome (list cleaned_question) :=
  let paper_id :=
    match paper_id with
    | Some (c :: p) => c :: p
    | _ => basename input_file
    end in
  clean_loop paper_id deduplicate exam_data [] ∅.

End Cleaner.
End DataCleaner.

(** ** paper_vectorizer.py *)

Module PaperVectorizer.
Import Numpy.
Local Open Scope R_scope.

(** [np.mean(rows, axis=0)]: the rows become a matrix, the columns are
    summed and each sum is divided by the number of rows. *)
Definition sum_axis0 (A : matrix) : ndarray :=
  fold_right (zip_with Rplus) (repeat 0 (width A)) A.

Definition np_mean_axis0 (rows : list ndarray) : outcome ndarray :=
  let* A := np_array rows in
  mapM (fun s => div s (INR (length A))) (sum_axis0 A).

Section Vectorize.

(** The embedding provider: [TextVectorizer.vectorize_text], [None] when it
    fails, and the dimension it declares. *)
Variable vectorize_text : str -> option ndarray.
Variable vector_size : nat.

(** A question of the cleaned file and of the vectorised file. *)
Record cleaned : Type := Cleaned {
  c_id : str;
  c_type : str;
  c_score : option Z;
  c_text : str;
  c_segments : option (list str);
  c_fingerprint : option str
}.

Record question_data : Type := QuestionData {
  qd_id : str;
  qd_type : str;
  qd_score : Z;
  qd_text : str;
  qd_segments : list str;
  qd_fingerprint : str;
  qd_vector : option ndarray
}.

(** The embeddings of the segments that the provider could embed. *)
Definition embed_segments (segments : list str) : list ndarray :=
  flat_map (fun seg => match vectorize_text seg with
                       | Some emb => [emb]
                       | None => []
                       end) segments.

(** The vector of one question. *)
Definition question_vector (question_text : str) (segments : list str)
  : outcome (option ndarray) :=
  match segments with
  | _ :: _ =>
      match embed_segments segments with
      | [] => Returned None
      | embeddings => let* v := np_mean_axis0 embeddings in Returned (Some v)
      end
  | [] =>
      match vectorize_text question_text with
      | Some embedding => Returned (Some embedding)
      | None => Returned (Some (repeat 0 vector_size))
      end
  end.

(** One turn of the loop of [vectorize_paper]. *)
Definition vectorize_question (question : cleaned) : outcome question_data :=
  let question_text := c_text question in
  let segments := default [] (c_segments question) in
  let* vector := question_vector question_text segments in
  Returned (QuestionData (c_id question) (c_type question)
                         (default 0%Z (c_score question)) question_text segments
                         (default [] (c_fingerprint question)) vector).

Definition vectorize_paper (exam_data : list cleaned) : outcome (list question_data) :=
  mapM vectorize_question exam_data.

End Vectorize.
End PaperVectorizer.

(** ** utils.py *)

Module Utils.
Import Numpy SimilarityCalculator Py.
Local Open Scope N_scope.

(** *** [extract_core_content] *)

Section ExtractCore.

(** [get_text]: [BeautifulSoup(text, 'html.parser').get_text(separator=' ',
    strip=True)], [None] when the library raises; [unicode_decimal] as in
    [DataCleaner]. *)
Variable get_text : str -> option str.
Variable unicode_decimal : N -> option nat.

Local Abbreviation is_digit := (DataCleaner.is_digit unicode_decimal).

(** The ten numerals of the second alternative, [一] to [十]. *)
Definition is_numeral (c : N) : bool :=
  existsb (N.eqb c)
    [19968; 20108; 19977; 22235; 20116; 20845; 19971; 20843; 20061; 21313].

(** [[\.、]] *)
Definition is_mark (c : N) : bool := (c =? 46) || (c =? 12289).

(** The length of [\s*] and of an optional character at the head. *)
Definition spaces (s : str) : nat := length (take_while isspace s).

Definition optional (q : N -> bool) (s : str) : nat :=
  match s with
  | c :: _ => if q c then 1%nat else 0%nat
  | [] => 0%nat
  end.

(** The numbering pattern, anchored at the start of the text: digits and an
    optional mark; numerals and an optional mark; digits in parentheses;
    digits in brackets; whitespace after each.  The alternatives are tried in
    this order, and what follows an alternative always matches, so the first
    one that matches is taken with its greedy length. *)
Definition numbering (s : str) : option nat :=
  let digits := length (take_while is_digit s) in
  let numerals := length (take_while is_numeral s) in
  if negb (digits =? 0)%nat then
    let n := (digits + optional is_mark (skipn digits s))%nat in
    Some (n + spaces (skipn n s))%nat
  else if negb (numerals =? 0)%nat then
    let n := (numerals + optional is_mark (skipn numerals s))%nat in
    Some (n + spaces (skipn n s))%nat
  else
    match s with
    | c :: s' =>
        let digits := length (take_while is_digit s') in
        if ((c =? 40) || (c =? 91)) && negb (digits =? 0)%nat then
          match skipn digits s' with
          | c' :: rest =>
              if ((c =? 40) && (c' =? 41)) || ((c =? 91) && (c' =? 93))
              then Some (digits + 2 + spaces rest)%nat
              else None
          | [] => None
          end
        else None
    | [] => None
    end.

(** The pattern is anchored, so [re.sub] replaces at most the match at the
    start. *)
Definition remove_numbering (s : str) : str :=
  match numbering s with
  | Some n => skipn n s
  | None => s
  end.

(** The score pattern: an opening parenthesis or bracket, digits and full
    stops, the character [分], a closing parenthesis or bracket. *)
Definition score_pattern (s : str) : option nat :=
  match s with
  | c :: s' =>
      if (c =? 40) || (c =? 91) then
        let run := length (take_while (fun c => is_digit c || (c =? 46)) s') in
        if negb (run =? 0)%nat then
          match skipn run s' with
          | c1 :: c2 :: _ =>
              if (c1 =? 20998) && ((c2 =? 41) || (c2 =? 93))
              then Some (run + 3)%nat else None
          | _ => None
          end
        else None
      else None
  | [] => None
  end.

(** The replacement by the empty string. *)
Definition delete (st : unit) (matched : str) : outcome (unit * str) :=
  Returned (st, []).

Definition extract_core_content (text : str) : str :=
  if is_nil text then []
  else
    match get_text text with
    | Some clean_text =>
        let clean_text := remove_numbering clean_text in
        match re_sub score_pattern delete tt clean_text with
        | Returned r => strip (DataCleaner.collapse_whitespace (snd r))
        | Raised _ => strip text
        end
    | None => strip text
    end.

End ExtractCore.

(** *** [normalize_choices] *)

Definition is_letter (c : N) : bool :=
  ((65 <=? c) && (c <=? 90)) || ((97 <=? c) && (c <=? 122)).

(** [letter.upper()] of a letter the pattern accepts. *)
Definition upper (c : N) : N :=
  if (97 <=? c) && (c <=? 122) then c - 32 else c.

Definition is_open (c : N) : bool := (c =? 40) || (c =? 65288).
Definition is_close (c : N) : bool := (c =? 41) || (c =? 65289).

(** The last group and the end anchor: everything up to the end when no
    line feed is in the way; a line feed that ends the string is left out. *)
Definition to_end (s : str) : option str :=
  let body := take_while (fun c => negb (c =? 10)) s in
  match skipn (length body) s with
  | [] => Some body
  | [_] => Some body
  | _ => None
  end.

(** The choice pattern: an optional opening parenthesis, a letter, an
    optional closing parenthesis, the rest.  The result is the letter and the
    rest. *)
Definition choice_pattern (cleaned : str) : option (N * str) :=
  let after_prefix :=
    match cleaned with
    | c :: s => if is_open c then s else cleaned
    | [] => cleaned
    end in
  match after_prefix with
  | letter :: s =>
      if is_letter letter then
        let after_suffix :=
          match s with
          | c :: s' => if is_close c then s' else s
          | [] => s
          end in
        option_map (fun content => (letter, content)) (to_end after_suffix)
      else None
  | [] => None
  end.

Definition normalize_choice (choice : str) : str :=
  let cleaned := strip choice in
  if is_nil cleaned then choice
  else
    match choice_pattern cleaned with
    | Some (letter, content) => [40; upper letter; 41; 32] ++ strip content
    | None => choice
    end.

Definition normalize_choices (choices : list str) : list str :=
  map normalize_choice choices.

(** *** [calculate_overall_similarity] *)

Definition calculate_overall_similarity (similar_pairs : list similar_pair)
    (total_questions : Z) : outcome R :=
  if is_nil similar_pairs || (total_questions =? 0)%Z then Returned 0%R
  else
    let similarity_sum := fold_left Rplus (map similarity similar_pairs) 0%R in
    let* coverage := div (INR (length similar_pairs)) (IZR total_questions) in
    let* score := div (similarity_sum * coverage) (INR (length similar_pairs)) in
    Returned (Rmin 1 score).

End Utils.

(** ** vectorizer.py: [TextVectorizer.vectorize_text] *)

Module TextVectorizer.
Import Numpy Py PaperVectorizer.

Section Model.

(** [encode]: the embedding of one segment by the loaded model (the
    sentence-transformer's [encode], or tokenizer, model and mean pooling),
    [None] when it raises; [vector_size]: the dimension read when the model
    was loaded. *)
Variable encode : str -> option ndarray.
Variable vector_size : nat.
Variable get_text : str -> option str.
Variable unicode_decimal : N -> option nat.

(** The loop over the segments; an exception leaves it. *)
Fixpoint encode_all (segments : list str) : option (list ndarray) :=
  match segments with
  | [] => Some []
  | seg :: rest =>
      match encode seg with
      | Some emb => option_map (cons emb) (encode_all rest)
      | None => None
      end
  end.

(** [vectorize_text].  The method [self.segment_text] is, line for line,
    the function [segment_text] of data_cleaner.py; [hasattr(self,
    'vector_size')] holds once the constructor has returned. *)
Definition vectorize_text (text : str) : option ndarray :=
  if is_nil (strip text) then Some (repeat 0%R vector_size)
  else
    let core_text := Utils.extract_core_content get_text unicode_decimal text in
    let segments := DataCleaner.segment_text core_text 500 in
    match encode_all segments with
    | Some [] => None
    | Some segment_embeddings =>
        match np_mean_axis0 segment_embeddings with
        | Returned v => Some v
        | Raised _ => None
        end
    | None => None
    end.

End Model.
End TextVectorizer.

(** * Vocabulary of the statements

    Closed forms, orders and sample inputs that the lemmas and theorems
    below are stated with. *)

Module SimilaritySpec.
Import Numpy Vectorizer Sklearn SimilarityCalculator.
Local Open Scope R_scope.

(** Closed forms of the matrix entries. *)
Definition unit_row (a : ndarray) : ndarray :=
  map (fun x => x / handle_zeros_in_scale (row_norm a)) a.

Definition cos_entry (a b : ndarray) : R := dot (unit_row a) (unit_row b).

Definition euc_entry (a b : ndarray) : R :=
  sqrt (np_sum (np_square (zip_with Rminus a b))).

Definition fused_entry (w : R) (a b : ndarray) : R :=
  w * cos_entry a b + (1 - w) * (1 / (1 + euc_entry a b)).

Definition table {A B C : Type} (F : A -> B -> C) (X : list A) (Y : list B) : list (list C) :=
  map (fun a => map (fun b => F a b) Y) X.

(** The fused matrix as [calculate_similarity] builds it. *)
Definition fused_matrix (vectors_a vectors_b : list ndarray) (w : R) : outcome matrix :=
  let* matrix_a := np_array vectors_a in
  let* matrix_b := np_array vectors_b in
  let* cos_sim_matrix := cosine_similarity matrix_a matrix_b in
  let* euc_sim := euc_sim_matrix matrix_a matrix_b in
  Returned (fused_sim_matrix w cos_sim_matrix euc_sim).

Definition similar_pairs_of (d : dict) : list similar_pair :=
  match dict_get "similar_pairs" d with
  | Some (VPairs l) => l
  | _ => []
  end.

(** What [calculate_similarity] returns, in one equation: the empty-side
    result, or the full result over the fused matrix. *)
Definition emitted (pa pb : list question) (th : R) (ts : bool) (F : matrix)
  : list similar_pair :=
  sort_desc similarity (collect_pairs ts th (collect_info pa) (collect_info pb) F).

(** Descending by key; among equal keys, the order [prec] of the input. *)
Definition ranked {A : Type} (key : A -> R) (prec : A -> A -> Prop) (x y : A) : Prop :=
  key y < key x \/ (key x = key y /\ prec x y).

Definition lex_lt (x y : nat * nat) : Prop :=
  (fst x < fst y)%nat \/ (fst x = fst y /\ (snd x < snd y)%nat).

Definition collect_indexed (type_sensitive : bool) (threshold : R)
    (info_a info_b : list info) (F : matrix) : list (nat * nat * similar_pair) :=
  flat_map (fun i =>
    flat_map (fun j => map (fun p => (i, j, p))
                           (candidate type_sensitive threshold info_a info_b F i j))
             (seq 0 (length info_b)))
    (seq 0 (length info_a)).

(** The specification's end-to-end example: one question on each side, the
    same text, embedded as [1, 0]. *)
Definition e2e_question : question :=
  Question [49]%N [77; 67]%N [87; 104; 97; 116; 32; 105; 115; 32; 50; 43; 50; 63]%N
           (Some [1; 0]).

Definition e2e_info : info :=
  Info [49]%N [77; 67]%N [87; 104; 97; 116; 32; 105; 115; 32; 50; 43; 50; 63]%N.

(** Opposite unit vectors, all weight on the cosine, a negative threshold. *)
Definition opp_a : question := Question [49]%N [77; 67]%N [97]%N (Some [1]).
Definition opp_b : question := Question [49]%N [77; 67]%N [98]%N (Some [-1]).

End SimilaritySpec.

Module CleanerSpec.
Import Py DataCleaner.
Local Open Scope N_scope.

(** The characters of a string that are not whitespace, in order. *)
Definition visible (s : str) : str := List.filter (fun c => negb (isspace c)) s.

(** [s] occurs in [t] as a contiguous piece. *)
Definition within (s t : str) : Prop := exists a b, t = a ++ s ++ b.

Definition total (l : list str) : Z :=
  fold_right (fun w acc => (len w + 1 + acc)%Z) 0%Z l.

(** The text every placeholder starts with, and strings that do not hold it. *)
Definition marker : str := codes "__MATH_".
Definition marker_free (s : str) : Prop := ~ within marker s.

(** The first stage of [clean_html]: the captured spans and the text with
    placeholders in their place. *)
Definition protect (raw_html : str) : list str * str :=
  match re_sub math_pattern save_math [] raw_html with
  | Returned saved => saved
  | Raised _ => ([], [])
  end.

(** The text handed to the restoring substitution. *)
Definition normalised (strip_markup : str -> str) (raw_html : str) : str :=
  strip (remove_control (collapse_whitespace (strip_markup (snd (protect raw_html))))).

(** The fingerprint of a cleaned question (the empty string if none is set). *)
Definition fingerprint_of (q : cleaned_question) : str := default [] (cq_fingerprint q).

(** Deduplication in the words of the specification: going through the
    questions in input order, a question is dropped when its fingerprint is
    among those of the questions before it, and kept otherwise.  [earlier]
    holds the fingerprints of all questions before the current one. *)
Fixpoint keep_first_occurrences (earlier : list str) (l : list cleaned_question)
  : list cleaned_question :=
  match l with
  | [] => []
  | q :: l' =>
      if bool_decide (fingerprint_of q ∈ earlier)
      then keep_first_occurrences (earlier ++ [fingerprint_of q]) l'
      else q :: keep_first_occurrences (earlier ++ [fingerprint_of q]) l'
  end.

(** The fingerprint the specification gives a question of cleaned text
    [text]. *)
Definition expected_fingerprint (extract_core_content sha256_hex : str -> str)
    (paper_id text : str) : str :=
  sha256_hex (paper_id ++ codes "::" ++ strip (extract_core_content text)).

(** Two questions of one text and a third: with deduplication the first and
    the third are written, without it all three.  The parameters are
    replaced by functions that change nothing, so a fingerprint is the text
    that would be hashed. *)
Definition same_text_twice : list exam_question :=
  [ ExamQuestion (Some (codes "What is 2+2?")) (Some (codes "1")) (Some (codes "MC"));
    ExamQuestion (Some (codes "What is 2+2?")) (Some (codes "2")) (Some (codes "MC"));
    ExamQuestion (Some (codes "Name a prime.")) (Some (codes "3")) None ].

End CleanerSpec.

Module VectorizerSpec.
Import Numpy PaperVectorizer.
Local Open Scope R_scope.

(** All rows have one length. *)
Definition uniform (rows : list ndarray) : bool :=
  forallb (fun r => (length r =? width rows)%nat) rows.

(** Three segments, one the provider cannot embed, in two orders. *)
Definition sample_provider (s : str) : option ndarray :=
  match s with
  | [97%N] => Some [1; 2]
  | [98%N] => Some [3; 6]
  | _ => None
  end.

End VectorizerSpec.

Module PairSpec.
Import Numpy SimilarityCalculator.
Local Open Scope R_scope.

(** The dictionary kept for a question. *)
Definition info_of (q : question) : info := Info (q_id q) (q_type q) (q_text q).

(** [SimilarPair b a s] for [SimilarPair a b s]. *)
Definition swap_sides (p : similar_pair) : similar_pair :=
  SimilarPair (pair_b p) (pair_a p) (similarity p).

(** The tests of the inner loop, as filters on pairs. *)
Definition reaches (threshold : R) (p : similar_pair) : bool :=
  if Rge_dec (similarity p) threshold then true else false.

Definition same_type (p : similar_pair) : bool :=
  bool_decide (info_type (pair_a p) = info_type (pair_b p)).

(** All vectors of both sides have the length [D]. *)
Definition one_dimension (D : nat) (va vb : list ndarray) : Prop :=
  (0 < D)%nat /\ Forall (fun v => length v = D) va /\ Forall (fun v => length v = D) vb.

(** Keys that do not increase along the list. *)
Definition descending {A : Type} (key : A -> R) (l : list A) : Prop :=
  StronglySorted (fun a b => key b <= key a) l.

End PairSpec.

Module StripSpec.
Import Py.
Local Open Scope N_scope.

(** Empty, or the first (last) character is not whitespace. *)
Definition starts_visible (s : str) : Prop :=
  match s with [] => True | c :: _ => isspace c = false end.

Definition ends_visible (s : str) : Prop := starts_visible (rev s).

(** A non-empty run of characters that are not whitespace. *)
Definition word (w : str) : Prop := w <> [] /\ Forall (fun c => isspace c = false) w.

(** Not empty, no whitespace at either end, no line feed. *)
Definition tidy (s : str) : Prop := s <> [] /\ strip s = s /\ ~ In 10 s.

End StripSpec.

Module PipelineSpec.
Import Numpy SimilarityCalculator PaperVectorizer.

(** A question of the vectorised file as [calculate_similarity] loads it. *)
Definition as_question (q : question_data) : question :=
  Question (qd_id q) (qd_type q) (qd_text q) (qd_vector q).

(** The embeddings of the segments of a question of the cleaned file. *)
Definition embeddings_of (vectorize_text : str -> option ndarray) (q : cleaned)
  : list ndarray :=
  embed_segments vectorize_text (default [] (c_segments q)).

(** A provider that embeds every text as one vector. *)
Definition constant_provider (v : ndarray) (s : str) : option ndarray := Some v.

End PipelineSpec.

(** * Similarity: lemmas *)

Module SimilarityFacts.
Import Numpy Vectorizer Sklearn SimilarityCalculator SimilaritySpec.
Local Open Scope R_scope.

Lemma div_nonzero (x y : R) : y <> 0 -> div x y = Returned (x / y).
Proof. intros Hy. unfold div. destruct (Req_dec_T y 0); [contradiction | reflexivity]. Qed.

Lemma div_never_value_error (x y : R) : div x y <> Raised ValueError.
Proof. unfold div. destruct (Req_dec_T y 0); discriminate. Qed.

Lemma mapM_pure {A B : Type} (f : A -> outcome B) (g : A -> B) (l : list A) :
  (forall x, In x l -> f x = Returned (g x)) -> mapM f l = Returned (map g l).
Proof.
  induction l as [|x l IH]; intros Hf; simpl; [reflexivity|].
  rewrite (Hf x (or_introl eq_refl)). simpl.
  rewrite IH by (intros y Hy; apply Hf; right; exact Hy). reflexivity.
Qed.

Lemma np_sum_square_nonneg (a : ndarray) : 0 <= np_sum (np_square a).
Proof.
  induction a as [|x a IH]; simpl; [lra|].
  unfold np_sum, np_square in *. simpl. nra.
Qed.

Lemma np_sum_square_dot (a : ndarray) : np_sum (np_square a) = dot a a.
Proof.
  induction a as [|x a IH]; simpl; [reflexivity|].
  unfold np_sum, np_square in *. simpl. rewrite IH. reflexivity.
Qed.

Lemma row_norm_nonneg (a : ndarray) : 0 <= row_norm a.
Proof. apply sqrt_pos. Qed.

Lemma row_norm_zero_sum (a : ndarray) : row_norm a = 0 -> np_sum (np_square a) = 0.
Proof. intros H. apply sqrt_eq_0; [apply np_sum_square_nonneg | exact H]. Qed.

Lemma dot_zero_left (a b : ndarray) : np_sum (np_square a) = 0 -> dot a b = 0.
Proof.
  revert b; induction a as [|x a IH]; intros b H; [reflexivity|].
  destruct b as [|y b]; [reflexivity|].
  pose proof (np_sum_square_nonneg a) as Ha.
  unfold np_sum, np_square in *. simpl in *.
  assert (Hx : x = 0) by nra.
  assert (Hs : fold_right Rplus 0 (map (fun x => x * x) a) = 0) by nra.
  rewrite (IH b Hs), Hx. lra.
Qed.

Lemma dot_comm (a b : ndarray) : dot a b = dot b a.
Proof.
  revert b; induction a as [|x a IH]; intros [|y b]; simpl; try reflexivity.
  rewrite IH. lra.
Qed.

Lemma dot_scale (c d : R) (a b : ndarray) :
  dot (map (fun x => x / c) a) (map (fun y => y / d) b) = dot a b / (c * d).
Proof.
  revert b; induction a as [|x a IH]; intros [|y b]; simpl;
    try (unfold Rdiv; lra).
  rewrite IH.
  destruct (Req_dec_T c 0) as [->|Hc].
  - unfold Rdiv. rewrite !Rmult_0_l, Rinv_0. lra.
  - destruct (Req_dec_T d 0) as [->|Hd].
    + unfold Rdiv. rewrite !Rmult_0_r, Rinv_0. lra.
    + field. split; assumption.
Qed.

Lemma cauchy_schwarz (a b : ndarray) :
  dot a b * dot a b <= dot a a * dot b b.
Proof.
  revert b; induction a as [|x a IH]; intros [|y b]; simpl; try lra.
  specialize (IH b).
    pose proof (np_sum_square_nonneg a) as HA. rewrite np_sum_square_dot in HA.
    pose proof (np_sum_square_nonneg b) as HB. rewrite np_sum_square_dot in HB.
    set (p := dot a b) in *. set (A := dot a a) in *. set (B := dot b b) in *.
    clearbody p A B.
    assert (Hk : 2 * (x * y * p) <= x * x * B + y * y * A).
    { destruct (Req_dec_T B 0) as [HB0|HB0].
      - assert (Hp : p = 0) by nra. rewrite Hp, HB0. nra.
      - assert (0 < B) by lra.
        assert (0 <= B * (x * x * B + y * y * A - 2 * (x * y * p))).
        { replace (B * (x * x * B + y * y * A - 2 * (x * y * p)))
            with ((x * B - y * p) * (x * B - y * p) + y * y * (A * B - p * p)) by ring.
          apply Rplus_le_le_0_compat.
          - apply Rle_0_sqr.
          - apply Rmult_le_pos; [apply Rle_0_sqr | lra]. }
        nra. }
    nra.
Qed.

Lemma handle_zeros_nonzero (n : R) : handle_zeros_in_scale n <> 0.
Proof. unfold handle_zeros_in_scale. destruct (Req_dec_T n 0); lra. Qed.

Lemma normalize_row_ok (a : ndarray) : normalize_row a = Returned (unit_row a).
Proof.
  unfold normalize_row, unit_row. apply mapM_pure.
  intros x _. apply div_nonzero, handle_zeros_nonzero.
Qed.

Lemma normalize_ok (X : matrix) : normalize X = Returned (map unit_row X).
Proof. unfold normalize. apply mapM_pure. intros a _. apply normalize_row_ok. Qed.

Lemma cosine_similarity_ok (X Y : matrix) :
  check_pairwise_arrays X Y = Returned tt ->
  cosine_similarity X Y = Returned (table cos_entry X Y).
Proof.
  intros Hc. unfold cosine_similarity. rewrite Hc. simpl.
  rewrite !normalize_ok. simpl. f_equal. unfold table, cos_entry.
  rewrite map_map. apply map_ext. intros a. rewrite map_map. reflexivity.
Qed.

Lemma cosine_similarity_raises (X Y : matrix) (e : exn) :
  cosine_similarity X Y = Raised e -> e = ValueError.
Proof.
  unfold cosine_similarity.
  destruct (check_pairwise_arrays X Y) as [[]|e'] eqn:Hc; simpl.
  - rewrite !normalize_ok. simpl. discriminate.
  - intros [= <-]. unfold check_pairwise_arrays in Hc.
    destruct X, Y; try (injection Hc as <-; reflexivity).
    destruct (_ || _); [injection Hc as <-; reflexivity|].
    destruct (_ =? _)%nat; [discriminate | injection Hc as <-; reflexivity].
Qed.

Lemma euc_entry_nonneg (a b : ndarray) : 0 <= euc_entry a b.
Proof. apply sqrt_pos. Qed.

Lemma euc_sim_matrix_ok (A B : matrix) :
  SimilarityCalculator.euc_sim_matrix A B
  = Returned (table (fun a b => 1 / (1 + euc_entry a b)) A B).
Proof.
  unfold SimilarityCalculator.euc_sim_matrix, SimilarityCalculator.euc_dist_matrix,
    SimilarityCalculator.squared_diff, SimilarityCalculator.diff, table.
  rewrite !map_map.
  induction A as [|a A IH]; simpl; [reflexivity|].
  rewrite IH. rewrite !map_map.
  rewrite (mapM_pure _ (fun d => 1 / (1 + d))).
  - simpl. rewrite map_map. reflexivity.
  - intros d Hd. apply div_nonzero. apply in_map_iff in Hd as (b & <- & _).
    pose proof (sqrt_pos (np_sum (np_square (zip_with Rminus a b)))). lra.
Qed.

Lemma zip_with_map_same {A B C D : Type} (f : B -> C -> D) (g : A -> B) (h : A -> C)
    (l : list A) :
  zip_with f (map g l) (map h l) = map (fun x => f (g x) (h x)) l.
Proof. induction l as [|x l IH]; simpl; [reflexivity | rewrite IH; reflexivity]. Qed.

Lemma fused_sim_matrix_table (w : R) (A B : matrix) :
  SimilarityCalculator.fused_sim_matrix w (table cos_entry A B)
    (table (fun a b => 1 / (1 + euc_entry a b)) A B)
  = table (fused_entry w) A B.
Proof.
  unfold SimilarityCalculator.fused_sim_matrix, table.
  rewrite zip_with_map_same. apply map_ext. intros a.
  rewrite zip_with_map_same. reflexivity.
Qed.

Lemma nth_map_some {A B : Type} (f : A -> B) (l : list A) (i : nat) (a : A) (d : B) :
  nth_error l i = Some a -> nth i (map f l) d = f a.
Proof.
  revert i; induction l as [|x l IH]; intros [|i] H; simpl in *; try discriminate.
  - injection H as ->. reflexivity.
  - apply IH. exact H.
Qed.

Lemma get_table (F : ndarray -> ndarray -> R) (A B : matrix) (i j : nat) (a b : ndarray) :
  nth_error A i = Some a -> nth_error B j = Some b ->
  get (table F A B) i j = F a b.
Proof.
  intros Ha Hb. unfold get, table.
  rewrite (nth_map_some _ A i a [] Ha).
  apply (nth_map_some (fun b => F a b) B j b 0 Hb).
Qed.

Lemma cos_entry_dot (a b : ndarray) :
  cos_entry a b
  = dot a b / (handle_zeros_in_scale (row_norm a) * handle_zeros_in_scale (row_norm b)).
Proof. unfold cos_entry, unit_row. apply dot_scale. Qed.

Lemma cos_entry_zero (a b : ndarray) :
  row_norm a = 0 \/ row_norm b = 0 -> cos_entry a b = 0.
Proof.
  intros H. rewrite cos_entry_dot.
  assert (Hd : dot a b = 0).
  { destruct H as [H|H].
    - apply dot_zero_left, row_norm_zero_sum, H.
    - rewrite dot_comm. apply dot_zero_left, row_norm_zero_sum, H. }
  rewrite Hd. unfold Rdiv. apply Rmult_0_l.
Qed.

Lemma cos_entry_bounds (a b : ndarray) : -1 <= cos_entry a b <= 1.
Proof.
  destruct (Req_dec_T (row_norm a) 0) as [Ha|Ha].
  { rewrite cos_entry_zero by (left; exact Ha). lra. }
  destruct (Req_dec_T (row_norm b) 0) as [Hb|Hb].
  { rewrite cos_entry_zero by (right; exact Hb). lra. }
  rewrite cos_entry_dot. unfold handle_zeros_in_scale.
  destruct (Req_dec_T (row_norm a) 0) as [|_]; [contradiction|].
  destruct (Req_dec_T (row_norm b) 0) as [|_]; [contradiction|].
  pose proof (row_norm_nonneg a) as Pa. pose proof (row_norm_nonneg b) as Pb.
  assert (Hn : 0 < row_norm a * row_norm b) by (apply Rmult_lt_0_compat; lra).
  pose proof (cauchy_schwarz a b) as Hcs.
  assert (Hsq : (row_norm a * row_norm b) * (row_norm a * row_norm b) = dot a a * dot b b).
  { unfold row_norm. rewrite !np_sum_square_dot.
    pose proof (np_sum_square_nonneg a) as Sa. rewrite np_sum_square_dot in Sa.
    pose proof (np_sum_square_nonneg b) as Sb. rewrite np_sum_square_dot in Sb.
    replace (sqrt (dot a a) * sqrt (dot b b) * (sqrt (dot a a) * sqrt (dot b b)))
      with ((sqrt (dot a a) * sqrt (dot a a)) * (sqrt (dot b b) * sqrt (dot b b))) by ring.
    rewrite !sqrt_sqrt by assumption. reflexivity. }
  set (n := row_norm a * row_norm b) in *. set (p := dot a b) in *.
  clearbody n p. rewrite <- Hsq in Hcs. clear Hsq Pa Pb Ha Hb.
  assert (Hp : - n <= p <= n) by (split; nra).
  split.
  - apply (Rmult_le_reg_r n); [exact Hn|]. unfold Rdiv.
    rewrite Rmult_assoc, Rinv_l by lra. lra.
  - apply (Rmult_le_reg_r n); [exact Hn|]. unfold Rdiv.
    rewrite Rmult_assoc, Rinv_l by lra. lra.
Qed.

Lemma euc_sim_bounds (a b : ndarray) : 0 < 1 / (1 + euc_entry a b) <= 1.
Proof.
  pose proof (euc_entry_nonneg a b) as H. split.
  - apply Rdiv_lt_0_compat; lra.
  - apply (Rmult_le_reg_r (1 + euc_entry a b)); [lra|].
    unfold Rdiv. rewrite Rmult_assoc, Rinv_l by lra. lra.
Qed.

Ltac case_forallb H :=
  match goal with |- context [forallb ?f ?l] => destruct (forallb f l) eqn:H end.

Lemma np_array_rows (rows : list ndarray) (m : matrix) :
  np_array rows = Returned m ->
  m = rows /\ forall r, In r rows -> length r = width rows.
Proof.
  unfold np_array. case_forallb H; [|discriminate].
  intros [= <-]. split; [reflexivity|].
  intros r Hr. rewrite forallb_forall in H. apply Nat.eqb_eq, H, Hr.
Qed.

Lemma np_array_raises (rows : list ndarray) (e : exn) :
  np_array rows = Raised e -> e = ValueError.
Proof. unfold np_array. case_forallb H; [discriminate|]. intros [= <-]. reflexivity. Qed.

Lemma check_pairwise_widths (X Y : matrix) :
  check_pairwise_arrays X Y = Returned tt ->
  width X = width Y /\ (0 < width X)%nat.
Proof.
  unfold check_pairwise_arrays. destruct X as [|x X]; [discriminate|].
  destruct Y as [|y Y]; [discriminate|].
  destruct (width (x :: X) =? 0)%nat eqn:H0; simpl; [discriminate|].
  destruct (width (y :: Y) =? 0)%nat eqn:H1; simpl; [discriminate|].
  destruct (width (x :: X) =? width (y :: Y))%nat eqn:H2; [|discriminate].
  intros _. apply Nat.eqb_eq in H2. apply Nat.eqb_neq in H0. split; [exact H2 | lia].
Qed.

Lemma euclidean_distance_ok (a b : ndarray) :
  length a = length b -> euclidean_distance a b = Returned (euc_entry a b).
Proof.
  intros H. unfold euclidean_distance, np_sub. rewrite H, Nat.eqb_refl. reflexivity.
Qed.

Lemma euclidean_distance_nonneg (a b : ndarray) (d : R) :
  euclidean_distance a b = Returned d -> 0 <= d.
Proof.
  unfold euclidean_distance. destruct (np_sub a b) as [v|e]; simpl; [|discriminate].
  intros [= <-]. apply sqrt_pos.
Qed.

Lemma euclidean_distance_raises (a b : ndarray) (e : exn) :
  euclidean_distance a b = Raised e -> e = ValueError.
Proof.
  unfold euclidean_distance, np_sub.
  repeat (destruct (_ =? _)%nat; simpl; try discriminate).
  intros [= <-]. reflexivity.
Qed.

Lemma fused_similarity_ok (a b : ndarray) (w : R) :
  length a = length b -> (0 < length a)%nat ->
  fused_similarity a b w = Returned (fused_entry w a b).
Proof.
  intros Hl Hp. unfold fused_similarity.
  rewrite cosine_similarity_ok.
  2:{ unfold check_pairwise_arrays, width. simpl. rewrite <- Hl.
      destruct (length a =? 0)%nat eqn:H0; [apply Nat.eqb_eq in H0; lia|].
      simpl. rewrite Nat.eqb_refl. reflexivity. }
  simpl. rewrite (euclidean_distance_ok a b Hl). simpl.
  rewrite div_nonzero by (pose proof (euc_entry_nonneg a b); lra).
  reflexivity.
Qed.

Lemma fused_similarity_raises (a b : ndarray) (w : R) (e : exn) :
  fused_similarity a b w = Raised e -> e = ValueError.
Proof.
  unfold fused_similarity.
  destruct (cosine_similarity [a] [b]) as [K|e1] eqn:HK; simpl.
  2:{ intros [= <-]. eapply cosine_similarity_raises, HK. }
  destruct (euclidean_distance a b) as [d|e2] eqn:Hd; simpl.
  2:{ intros [= <-]. eapply euclidean_distance_raises, Hd. }
  rewrite div_nonzero by (pose proof (euclidean_distance_nonneg a b d Hd); lra).
  simpl. discriminate.
Qed.

Lemma fused_matrix_inv (va vb : list ndarray) (w : R) (F : matrix) :
  fused_matrix va vb w = Returned F ->
  F = table (fused_entry w) va vb /\
  np_array va = Returned va /\ np_array vb = Returned vb /\
  check_pairwise_arrays va vb = Returned tt.
Proof.
  unfold fused_matrix.
  destruct (np_array va) as [A|] eqn:HA; simpl; [|discriminate].
  destruct (np_array vb) as [B|] eqn:HB; simpl; [|discriminate].
  apply np_array_rows in HA as [-> HA]. apply np_array_rows in HB as [-> HB].
  destruct (check_pairwise_arrays va vb) as [[]|] eqn:Hc.
  2:{ unfold cosine_similarity. rewrite Hc. simpl. discriminate. }
  rewrite (cosine_similarity_ok va vb Hc). simpl.
  rewrite euc_sim_matrix_ok. simpl. rewrite fused_sim_matrix_table.
  intros [= <-]. repeat split; reflexivity.
Qed.

Lemma fused_matrix_ok (va vb : list ndarray) (w : R) :
  np_array va = Returned va -> np_array vb = Returned vb ->
  check_pairwise_arrays va vb = Returned tt ->
  fused_matrix va vb w = Returned (table (fused_entry w) va vb).
Proof.
  intros HA HB Hc. unfold fused_matrix. rewrite HA, HB. simpl.
  rewrite (cosine_similarity_ok va vb Hc). simpl.
  rewrite euc_sim_matrix_ok. simpl. rewrite fused_sim_matrix_table. reflexivity.
Qed.

Lemma fused_matrix_raises (va vb : list ndarray) (w : R) (e : exn) :
  fused_matrix va vb w = Raised e -> e = ValueError.
Proof.
  unfold fused_matrix.
  destruct (np_array va) as [A|e1] eqn:HA; simpl.
  2:{ intros [= <-]. eapply np_array_raises, HA. }
  destruct (np_array vb) as [B|e2] eqn:HB; simpl.
  2:{ intros [= <-]. eapply np_array_raises, HB. }
  destruct (cosine_similarity A B) as [C|e3] eqn:HC; simpl.
  2:{ intros [= <-]. eapply cosine_similarity_raises, HC. }
  rewrite euc_sim_matrix_ok. simpl. discriminate.
Qed.

Lemma collect_lengths (qs : list question) :
  length (collect_vectors qs) = length (collect_info qs).
Proof.
  induction qs as [|q qs IH]; simpl; [reflexivity|].
  unfold collect_vectors, collect_info in *. simpl.
  destruct (q_vector q); simpl; rewrite ?IH; reflexivity.
Qed.

Lemma calculate_similarity_nonempty fa fb pa pb th ts w dd :
  collect_vectors pa <> [] -> collect_vectors pb <> [] ->
  calculate_similarity fa fb pa pb th ts w dd =
  let* F := fused_matrix (collect_vectors pa) (collect_vectors pb) w in
  Returned
    [ ("paper_a", VStr fa); ("paper_b", VStr fb);
      ("method", VStr [102; 117; 115; 101; 100]%N);
      ("threshold", VFloat th); ("type_sensitive", VBool ts);
      ("fusion_weight", VFloat w);
      ("total_questions_a", VInt (length (collect_vectors pa)));
      ("total_questions_b", VInt (length (collect_vectors pb)));
      ("total_pairs", VInt (length (emitted pa pb th ts F)));
      ("deduplicate", VBool dd);
      ("similar_pairs", VPairs (emitted pa pb th ts F)) ]%string.
Proof.
  intros Ha Hb. unfold calculate_similarity, fused_matrix, emitted.
  destruct (collect_vectors pa) as [|a va] eqn:Ea; [contradiction|].
  destruct (collect_vectors pb) as [|b vb] eqn:Eb; [contradiction|].
  destruct (np_array (a :: va)) as [A|]; simpl; [|reflexivity].
  destruct (np_array (b :: vb)) as [B|]; simpl; [|reflexivity].
  destruct (cosine_similarity A B) as [C|]; simpl; [|reflexivity].
  destruct (euc_sim_matrix A B) as [U|]; simpl; reflexivity.
Qed.

Lemma calculate_similarity_empty fa fb pa pb th ts w dd :
  collect_vectors pa = [] \/ collect_vectors pb = [] ->
  calculate_similarity fa fb pa pb th ts w dd =
  Returned
    [ ("paper_a", VStr fa); ("paper_b", VStr fb);
      ("method", VStr [102; 117; 115; 101; 100]%N);
      ("threshold", VFloat th); ("type_sensitive", VBool ts);
      ("fusion_weight", VFloat w);
      ("total_questions_a", VInt (length (collect_vectors pa)));
      ("total_questions_b", VInt (length (collect_vectors pb)));
      ("total_pairs", VInt 0);
      ("similar_pairs", VPairs []) ]%string.
Proof.
  intros H. unfold calculate_similarity.
  destruct (collect_vectors pa) as [|a va]; [reflexivity|].
  destruct (collect_vectors pb) as [|b vb]; [reflexivity|].
  destruct H; discriminate.
Qed.

(** *** Sorting *)

Lemma insert_desc_perm {A : Type} (key : A -> R) (x : A) (l : list A) :
  Permutation (insert_desc key x l) (x :: l).
Proof.
  induction l as [|y l IH]; simpl; [reflexivity|].
  destruct (Rlt_dec (key x) (key y)); [|reflexivity].
  rewrite IH. apply perm_swap.
Qed.

Lemma sort_desc_perm {A : Type} (key : A -> R) (l : list A) :
  Permutation (sort_desc key l) l.
Proof.
  induction l as [|x l IH]; simpl; [reflexivity|].
  rewrite insert_desc_perm. apply perm_skip, IH.
Qed.

Lemma sort_desc_in {A : Type} (key : A -> R) (l : list A) (x : A) :
  In x (sort_desc key l) <-> In x l.
Proof.
  split; apply Permutation_in; [|symmetry]; apply sort_desc_perm.
Qed.

Lemma insert_desc_map {A B : Type} (f : A -> B) (key : B -> R) (x : A) (l : list A) :
  map f (insert_desc (fun a => key (f a)) x l) = insert_desc key (f x) (map f l).
Proof.
  induction l as [|y l IH]; simpl; [reflexivity|].
  destruct (Rlt_dec (key (f x)) (key (f y))); simpl; [rewrite IH|]; reflexivity.
Qed.

Lemma sort_desc_map {A B : Type} (f : A -> B) (key : B -> R) (l : list A) :
  map f (sort_desc (fun a => key (f a)) l) = sort_desc key (map f l).
Proof.
  induction l as [|x l IH]; simpl; [reflexivity|].
  rewrite insert_desc_map, IH. reflexivity.
Qed.

Lemma insert_desc_ranked {A : Type} (key : A -> R) (prec : A -> A -> Prop)
    (x : A) (l : list A) :
  StronglySorted (ranked key prec) l -> Forall (prec x) l ->
  StronglySorted (ranked key prec) (insert_desc key x l).
Proof.
  induction l as [|y l IH]; intros Hs Hp; simpl.
  - constructor; constructor.
  - apply StronglySorted_inv in Hs as [Hs Hy].
    apply Forall_cons_iff in Hp as [Hxy Hp].
    destruct (Rlt_dec (key x) (key y)) as [Hlt|Hge].
    + constructor; [apply IH; assumption|].
      apply (Permutation_Forall (x := x :: l)); [symmetry; apply insert_desc_perm|].
      constructor; [left; exact Hlt | exact Hy].
    + constructor; [constructor; assumption|].
      constructor.
      * destruct (Rtotal_order (key y) (key x)) as [H|[H|H]];
          [left; exact H | right; split; [symmetry; exact H | exact Hxy] | lra].
      * rewrite List.Forall_forall in *. intros z Hz.
        specialize (Hy z Hz). specialize (Hp z Hz).
        destruct Hy as [Hy|[Hy _]].
        -- left. lra.
        -- destruct (Rtotal_order (key y) (key x)) as [H|[H|H]];
             [left; lra | right; split; [lra | exact Hp] | lra].
Qed.

Lemma sort_desc_ranked {A : Type} (key : A -> R) (prec : A -> A -> Prop) (l : list A) :
  StronglySorted prec l -> StronglySorted (ranked key prec) (sort_desc key l).
Proof.
  induction l as [|x l IH]; intros Hs; simpl; [constructor|].
  apply StronglySorted_inv in Hs as [Hs Hx].
  apply insert_desc_ranked; [apply IH, Hs|].
  apply (Permutation_Forall (x := l)); [symmetry; apply sort_desc_perm | exact Hx].
Qed.

(** *** The double loop *)

Lemma map_flat_map {A B C : Type} (f : B -> C) (g : A -> list B) (l : list A) :
  map f (flat_map g l) = flat_map (fun x => map f (g x)) l.
Proof.
  induction l as [|x l IH]; simpl; [reflexivity|].
  rewrite map_app, IH. reflexivity.
Qed.

Lemma collect_indexed_pairs ts th ia ib F :
  map snd (collect_indexed ts th ia ib F) = collect_pairs ts th ia ib F.
Proof.
  unfold collect_indexed, collect_pairs. rewrite map_flat_map.
  apply flat_map_ext. intros i. rewrite map_flat_map.
  apply flat_map_ext. intros j. rewrite map_map. simpl. apply map_id.
Qed.

Lemma candidate_inv ts th ia ib F i j p :
  In p (candidate ts th ia ib F i j) ->
  p = SimilarPair (nth i ia (Info [] [] [])) (nth j ib (Info [] [] [])) (get F i j)
  /\ get F i j >= th
  /\ (ts = true -> info_type (pair_a p) = info_type (pair_b p)).
Proof.
  unfold candidate.
  destruct (ts && type_differs _ _) eqn:Ht; [intros []|].
  destruct (Rge_dec (get F i j) th) as [Hge|]; [|intros []].
  intros [<-|[]]. repeat split; [exact Hge|].
  intros ->. simpl in *. unfold type_differs in Ht.
  apply negb_false_iff, bool_decide_eq_true in Ht. exact Ht.
Qed.

Lemma candidate_intro ts th ia ib F i j :
  (ts = true -> info_type (nth i ia (Info [] [] [])) = info_type (nth j ib (Info [] [] []))) ->
  get F i j >= th ->
  candidate ts th ia ib F i j
  = [SimilarPair (nth i ia (Info [] [] [])) (nth j ib (Info [] [] [])) (get F i j)].
Proof.
  intros Ht Hge. unfold candidate.
  destruct ts; simpl.
  - unfold type_differs. rewrite bool_decide_eq_true_2 by (apply Ht; reflexivity).
    simpl. destruct (Rge_dec (get F i j) th); [reflexivity | contradiction].
  - destruct (Rge_dec (get F i j) th); [reflexivity | contradiction].
Qed.

Lemma collect_indexed_in ts th ia ib F i j p :
  In (i, j, p) (collect_indexed ts th ia ib F) <->
  (i < length ia)%nat /\ (j < length ib)%nat /\ In p (candidate ts th ia ib F i j).
Proof.
  unfold collect_indexed. rewrite in_flat_map. split.
  - intros (i' & Hi & H). apply in_flat_map in H as (j' & Hj & H).
    apply in_map_iff in H as (p' & [= <- <- <-] & Hp).
    apply in_seq in Hi, Hj. repeat split; [lia | lia | exact Hp].
  - intros (Hi & Hj & Hp). exists i. split; [apply in_seq; lia|].
    apply in_flat_map. exists j. split; [apply in_seq; lia|].
    apply in_map_iff. exists p. split; [reflexivity | exact Hp].
Qed.

Lemma StronglySorted_app {A : Type} (R : A -> A -> Prop) (l1 l2 : list A) :
  StronglySorted R l1 -> StronglySorted R l2 ->
  (forall x y, In x l1 -> In y l2 -> R x y) ->
  StronglySorted R (l1 ++ l2).
Proof.
  induction l1 as [|x l1 IH]; intros H1 H2 H12; simpl; [exact H2|].
  apply StronglySorted_inv in H1 as [H1 Hx].
  constructor.
  - apply IH; [exact H1 | exact H2 | intros a b Ha Hb; apply H12; [right|]; assumption].
  - apply Forall_app. split; [exact Hx|].
    apply List.Forall_forall. intros y Hy. apply H12; [left; reflexivity | exact Hy].
Qed.

Lemma StronglySorted_flat_map {A B : Type} (R : B -> B -> Prop) (g : A -> list B)
    (lt : A -> A -> Prop) (l : list A) :
  StronglySorted lt l ->
  (forall i, In i l -> StronglySorted R (g i)) ->
  (forall i i' x y, lt i i' -> In x (g i) -> In y (g i') -> R x y) ->
  StronglySorted R (flat_map g l).
Proof.
  induction l as [|i l IH]; intros Hl Hg Hc; simpl; [constructor|].
  apply StronglySorted_inv in Hl as [Hl Hi].
  apply StronglySorted_app.
  - apply Hg. left; reflexivity.
  - apply IH; [exact Hl | intros k Hk; apply Hg; right; exact Hk | exact Hc].
  - intros x y Hx Hy. apply in_flat_map in Hy as (i' & Hi' & Hy).
    rewrite List.Forall_forall in Hi. exact (Hc i i' x y (Hi i' Hi') Hx Hy).
Qed.

Lemma seq_sorted (a n : nat) : StronglySorted Peano.lt (seq a n).
Proof.
  revert a; induction n as [|n IH]; intros a; simpl; constructor; [apply IH|].
  apply List.Forall_forall. intros x Hx. apply in_seq in Hx. lia.
Qed.

Lemma candidate_at_most_one ts th ia ib F i j :
  (length (candidate ts th ia ib F i j) <= 1)%nat.
Proof.
  unfold candidate. destruct (ts && _); simpl; [lia|].
  destruct (Rge_dec _ _); simpl; lia.
Qed.

Lemma collect_indexed_sorted ts th ia ib F :
  StronglySorted (fun x y => lex_lt (fst x) (fst y)) (collect_indexed ts th ia ib F).
Proof.
  unfold collect_indexed.
  apply (StronglySorted_flat_map _ _ Peano.lt); [apply seq_sorted | |].
  - intros i _. apply (StronglySorted_flat_map _ _ Peano.lt); [apply seq_sorted | |].
    + intros j _. pose proof (candidate_at_most_one ts th ia ib F i j) as H.
      destruct (candidate ts th ia ib F i j) as [|p [|q l]]; simpl in *;
        [constructor | repeat constructor | lia].
    + intros j j' x y Hj Hx Hy.
      apply in_map_iff in Hx as (p & <- & _). apply in_map_iff in Hy as (q & <- & _).
      right. simpl. split; [reflexivity | exact Hj].
  - intros i i' x y Hi Hx Hy.
    apply in_flat_map in Hx as (j & _ & Hx). apply in_flat_map in Hy as (j' & _ & Hy).
    apply in_map_iff in Hx as (p & <- & _). apply in_map_iff in Hy as (q & <- & _).
    left. simpl. exact Hi.
Qed.

Lemma nth_error_nth_default {A : Type} (l : list A) (i : nat) (d : A) :
  (i < length l)%nat -> nth_error l i = Some (nth i l d).
Proof.
  revert i; induction l as [|x l IH]; intros [|i] H; simpl in *; try lia; [reflexivity|].
  apply IH. lia.
Qed.

Lemma nth_error_nth_some {A : Type} (l : list A) (i : nat) (a d : A) :
  nth_error l i = Some a -> (i < length l)%nat /\ nth i l d = a.
Proof.
  revert i; induction l as [|x l IH]; intros [|i] H; simpl in *; try discriminate.
  - injection H as ->. split; [lia | reflexivity].
  - apply IH in H as [H1 H2]. split; [lia | exact H2].
Qed.

Lemma calculate_similarity_pairs fa fb pa pb th ts w dd d :
  calculate_similarity fa fb pa pb th ts w dd = Returned d ->
  ((collect_vectors pa = [] \/ collect_vectors pb = []) /\ similar_pairs_of d = [])
  \/ exists F, fused_matrix (collect_vectors pa) (collect_vectors pb) w = Returned F
               /\ similar_pairs_of d = emitted pa pb th ts F.
Proof.
  intros H.
  destruct (collect_vectors pa) as [|a va] eqn:Ea.
  { rewrite calculate_similarity_empty in H by (left; exact Ea).
    injection H as <-. left. split; [left|]; reflexivity. }
  destruct (collect_vectors pb) as [|b vb] eqn:Eb.
  { rewrite calculate_similarity_empty in H by (right; exact Eb).
    injection H as <-. left. split; [right|]; reflexivity. }
  rewrite calculate_similarity_nonempty in H by (rewrite ?Ea, ?Eb; discriminate).
  rewrite Ea, Eb in H.
  destruct (fused_matrix (a :: va) (b :: vb) w) as [F|] eqn:HF; simpl in H; [|discriminate].
  injection H as <-. right. exists F. split; reflexivity.
Qed.

Lemma calculate_similarity_raises fa fb pa pb th ts w dd e :
  calculate_similarity fa fb pa pb th ts w dd = Raised e -> e = ValueError.
Proof.
  intros H.
  destruct (collect_vectors pa) as [|a va] eqn:Ea.
  { rewrite calculate_similarity_empty in H by (left; exact Ea). discriminate. }
  destruct (collect_vectors pb) as [|b vb] eqn:Eb.
  { rewrite calculate_similarity_empty in H by (right; exact Eb). discriminate. }
  rewrite calculate_similarity_nonempty in H by (rewrite ?Ea, ?Eb; discriminate).
  rewrite Ea, Eb in H.
  destruct (fused_matrix (a :: va) (b :: vb) w) as [F|e'] eqn:HF; simpl in H; [discriminate|].
  injection H as <-. eapply fused_matrix_raises, HF.
Qed.

(** Every emitted pair comes from one cell [(i, j)] of the fused matrix. *)
Lemma emitted_inv pa pb th ts w F p :
  fused_matrix (collect_vectors pa) (collect_vectors pb) w = Returned F ->
  In p (emitted pa pb th ts F) ->
  exists i j a b,
    nth_error (collect_vectors pa) i = Some a /\
    nth_error (collect_vectors pb) j = Some b /\
    nth_error (collect_info pa) i = Some (pair_a p) /\
    nth_error (collect_info pb) j = Some (pair_b p) /\
    similarity p = fused_entry w a b /\
    similarity p >= th /\
    (ts = true -> info_type (pair_a p) = info_type (pair_b p)).
Proof.
  intros HF Hp. apply fused_matrix_inv in HF as (-> & _).
  unfold emitted in Hp. apply sort_desc_in in Hp.
  rewrite <- collect_indexed_pairs in Hp.
  apply in_map_iff in Hp as ([[i j] q] & Hq & Hp). simpl in Hq. subst q.
  apply collect_indexed_in in Hp as (Hi & Hj & Hp).
  apply candidate_inv in Hp as (Hp & Hge & Ht).
  assert (Hi' : (i < length (collect_vectors pa))%nat) by (rewrite collect_lengths; exact Hi).
  assert (Hj' : (j < length (collect_vectors pb))%nat) by (rewrite collect_lengths; exact Hj).
  exists i, j, (nth i (collect_vectors pa) []), (nth j (collect_vectors pb) []).
  pose proof (nth_error_nth_default _ i [] Hi') as Ea.
  pose proof (nth_error_nth_default _ j [] Hj') as Eb.
  rewrite (get_table _ _ _ i j _ _ Ea Eb) in Hp, Hge.
  subst p. simpl in *.
  repeat split; try assumption; try reflexivity;
    apply nth_error_nth_default; assumption.
Qed.

(** *** Two concrete runs *)

Lemma handle_zeros_one : handle_zeros_in_scale 1 = 1.
Proof. unfold handle_zeros_in_scale. destruct (Req_dec_T 1 0); lra. Qed.

Lemma e2e_fused_entry (w : R) : fused_entry w [1; 0] [1; 0] = 1.
Proof.
  unfold fused_entry. rewrite cos_entry_dot.
  assert (Hn : row_norm [1; 0] = 1).
  { unfold row_norm, np_sum, np_square. simpl.
    replace (1 * 1 + (0 * 0 + 0)) with 1 by ring. apply sqrt_1. }
  assert (He : euc_entry [1; 0] [1; 0] = 0).
  { unfold euc_entry, np_sum, np_square. simpl.
    replace ((1 - 1) * (1 - 1) + ((0 - 0) * (0 - 0) + 0)) with 0 by ring. apply sqrt_0. }
  rewrite Hn, He, handle_zeros_one. simpl. field.
Qed.

Lemma e2e_run (fa fb : str) (th w : R) (dd : bool) :
  th <= 1 ->
  calculate_similarity fa fb [e2e_question] [e2e_question] th true w dd =
  Returned
    [ ("paper_a", VStr fa); ("paper_b", VStr fb);
      ("method", VStr [102; 117; 115; 101; 100]%N);
      ("threshold", VFloat th); ("type_sensitive", VBool true);
      ("fusion_weight", VFloat w);
      ("total_questions_a", VInt 1); ("total_questions_b", VInt 1);
      ("total_pairs", VInt 1); ("deduplicate", VBool dd);
      ("similar_pairs", VPairs [SimilarPair e2e_info e2e_info 1]) ]%string.
Proof.
  intros Hth.
  rewrite calculate_similarity_nonempty by discriminate.
  rewrite fused_matrix_ok by reflexivity.
  assert (He : emitted [e2e_question] [e2e_question] th true
                 (table (fused_entry w) (collect_vectors [e2e_question])
                                        (collect_vectors [e2e_question]))
               = [SimilarPair e2e_info e2e_info 1]).
  { unfold emitted, collect_pairs. simpl.
    rewrite candidate_intro.
    - unfold get, table. simpl. rewrite e2e_fused_entry. reflexivity.
    - intros _. reflexivity.
    - unfold get, table. simpl. rewrite e2e_fused_entry. lra. }
  cbv [bind]. rewrite He. reflexivity.
Qed.

Lemma opp_fused_entry : fused_entry 1 [1] [-1] = -1.
Proof.
  unfold fused_entry. rewrite cos_entry_dot.
  assert (Ha : row_norm [1] = 1).
  { unfold row_norm, np_sum, np_square. simpl.
    replace (1 * 1 + 0) with 1 by ring. apply sqrt_1. }
  assert (Hb : row_norm [-1] = 1).
  { unfold row_norm, np_sum, np_square. simpl.
    replace (-1 * -1 + 0) with 1 by ring. apply sqrt_1. }
  rewrite Ha, Hb, handle_zeros_one. simpl. field.
  pose proof (euc_entry_nonneg [1] [-1]). lra.
Qed.

Lemma opp_run :
  calculate_similarity [] [] [opp_a] [opp_b] (-1) false 1 true =
  Returned
    [ ("paper_a", VStr []); ("paper_b", VStr []);
      ("method", VStr [102; 117; 115; 101; 100]%N);
      ("threshold", VFloat (-1)); ("type_sensitive", VBool false);
      ("fusion_weight", VFloat 1);
      ("total_questions_a", VInt 1); ("total_questions_b", VInt 1);
      ("total_pairs", VInt 1); ("deduplicate", VBool true);
      ("similar_pairs",
       VPairs [SimilarPair (Info [49]%N [77; 67]%N [97]%N)
                           (Info [49]%N [77; 67]%N [98]%N) (-1)]) ]%string.
Proof.
  rewrite calculate_similarity_nonempty by discriminate.
  rewrite fused_matrix_ok by reflexivity.
  assert (He : emitted [opp_a] [opp_b] (-1) false
                 (table (fused_entry 1) (collect_vectors [opp_a]) (collect_vectors [opp_b]))
               = [SimilarPair (Info [49]%N [77; 67]%N [97]%N)
                              (Info [49]%N [77; 67]%N [98]%N) (-1)]).
  { unfold emitted, collect_pairs. simpl.
    rewrite candidate_intro.
    - unfold get, table. simpl. rewrite opp_fused_entry. reflexivity.
    - discriminate.
    - unfold get, table. simpl. rewrite opp_fused_entry. lra. }
  cbv [bind]. rewrite He. reflexivity.
Qed.

End SimilarityFacts.

(** * Similarity: the claims *)

Module SimilarityClaims.
Import Numpy Vectorizer Sklearn SimilarityCalculator SimilaritySpec SimilarityFacts.
Local Open Scope R_scope.

(** ** The claims on [calculate_similarity] and [fused_similarity] *)

(** C1. A row of zero norm has cosine 0 against every row, in the matrix
    that [calculate_similarity] computes and in the scalar
    [fused_similarity]; no division by zero is ever raised: the only
    exception either function can raise is the shape error. *)
Theorem C1_zero_norm_cosine_is_zero :
  (forall X Y : matrix,
      cosine_similarity X Y <> Raised ZeroDivisionError /\
      (check_pairwise_arrays X Y = Returned tt ->
       exists C, cosine_similarity X Y = Returned C /\
         forall i j a b, nth_error X i = Some a -> nth_error Y j = Some b ->
           row_norm a = 0 \/ row_norm b = 0 -> get C i j = 0))
  /\ (forall (v_a v_b : ndarray) (w : R),
      fused_similarity v_a v_b w <> Raised ZeroDivisionError /\
      (length v_a = length v_b -> (0 < length v_a)%nat ->
       row_norm v_a = 0 \/ row_norm v_b = 0 ->
       exists d, euclidean_distance v_a v_b = Returned d /\
         fused_similarity v_a v_b w = Returned (w * 0 + (1 - w) * (1 / (1 + d)))))
  /\ (forall fa fb pa pb th ts w dd,
      calculate_similarity fa fb pa pb th ts w dd <> Raised ZeroDivisionError).
Proof.
  split; [|split].
  - intros X Y. split.
    + intros H. apply cosine_similarity_raises in H. discriminate.
    + intros Hc. exists (table cos_entry X Y). split; [apply cosine_similarity_ok, Hc|].
      intros i j a b Ha Hb Hz. rewrite (get_table _ _ _ i j a b Ha Hb).
      apply cos_entry_zero, Hz.
  - intros v_a v_b w. split.
    + intros H. apply fused_similarity_raises in H. discriminate.
    + intros Hl Hp Hz. exists (euc_entry v_a v_b).
      split; [apply euclidean_distance_ok, Hl|].
      rewrite (fused_similarity_ok v_a v_b w Hl Hp). unfold fused_entry.
      rewrite (cos_entry_zero v_a v_b Hz). reflexivity.
  - intros fa fb pa pb th ts w dd H.
    apply calculate_similarity_raises in H. discriminate.
Qed.

(** A zero row against a row of norm 5. *)
Example zero_row_cosine : cosine_similarity [[0; 0]] [[3; 4]] = Returned [[0]].
Proof.
  rewrite cosine_similarity_ok by reflexivity. unfold table. cbn [map].
  rewrite cos_entry_zero; [reflexivity|]. left.
  unfold row_norm, np_sum, np_square. simpl.
  replace (0 * 0 + (0 * 0 + 0)) with 0 by ring. apply sqrt_0.
Qed.

(** C10. On rectangular inputs of one positive width the matrix path
    returns, and the scalar [fused_similarity] of row [i] of one side and row
    [j] of the other returns the entry [(i, j)] of the fused matrix. *)
Theorem C10_scalar_agrees_with_matrix (A B : matrix) (w : R) :
  np_array A = Returned A -> np_array B = Returned B ->
  check_pairwise_arrays A B = Returned tt ->
  exists C U,
    cosine_similarity A B = Returned C /\
    euc_sim_matrix A B = Returned U /\
    forall i j a b, nth_error A i = Some a -> nth_error B j = Some b ->
      fused_similarity a b w = Returned (get (fused_sim_matrix w C U) i j).
Proof.
  intros HA HB Hc.
  exists (table cos_entry A B), (table (fun a b => 1 / (1 + euc_entry a b)) A B).
  split; [apply cosine_similarity_ok, Hc|]. split; [apply euc_sim_matrix_ok|].
  intros i j a b Ha Hb. rewrite fused_sim_matrix_table.
  rewrite (get_table _ _ _ i j a b Ha Hb).
  apply np_array_rows in HA as [_ HA]. apply np_array_rows in HB as [_ HB].
  apply check_pairwise_widths in Hc as [Hw Hpos].
  apply nth_error_In in Ha, Hb.
  apply fused_similarity_ok; rewrite (HA a Ha); [rewrite (HB b Hb); exact Hw | exact Hpos].
Qed.

Lemma C10_scalar_agrees_with_matrix_witness :
  exists C U,
    cosine_similarity [[1; 0]; [3; 4]] [[0; 1]] = Returned C /\
    euc_sim_matrix [[1; 0]; [3; 4]] [[0; 1]] = Returned U /\
    forall i j a b, nth_error [[1; 0]; [3; 4]] i = Some a -> nth_error [[0; 1]] j = Some b ->
      fused_similarity a b (6 / 10) = Returned (get (fused_sim_matrix (6 / 10) C U) i j).
Proof.
  apply (C10_scalar_agrees_with_matrix [[1; 0]; [3; 4]] [[0; 1]] (6 / 10)); reflexivity.
Defined.




(** C3.  With an empty side the function returns, with zero pairs and the
    two counts; the dictionary it returns there has no ["deduplicate"] key,
    which the full result has. *)
Theorem C3_empty_side_result fa fb pa pb th ts w dd :
  collect_vectors pa = [] \/ collect_vectors pb = [] ->
  exists d, calculate_similarity fa fb pa pb th ts w dd = Returned d /\
    dict_get "total_pairs" d = Some (VInt 0) /\
    dict_get "similar_pairs" d = Some (VPairs []) /\
    dict_get "total_questions_a" d = Some (VInt (length (collect_vectors pa))) /\
    dict_get "total_questions_b" d = Some (VInt (length (collect_vectors pb))) /\
    dict_get "deduplicate" d = None.
Proof.
  intros H. eexists. split; [apply calculate_similarity_empty, H|].
  repeat split; reflexivity.
Qed.

Lemma C3_empty_side_result_witness :
  exists d, calculate_similarity [97]%N [98]%N [] [e2e_question] (7 / 10) true (6 / 10) false
            = Returned d /\
    dict_get "total_pairs" d = Some (VInt 0) /\
    dict_get "similar_pairs" d = Some (VPairs []) /\
    dict_get "total_questions_a" d = Some (VInt (length (collect_vectors []))) /\
    dict_get "total_questions_b" d = Some (VInt (length (collect_vectors [e2e_question]))) /\
    dict_get "deduplicate" d = None.
Proof.
  apply (C3_empty_side_result [97]%N [98]%N [] [e2e_question] (7 / 10) true (6 / 10) false).
  left. reflexivity.
Defined.

(** The sibling path: a result computed from two non-empty sides carries the
    flag. *)
Lemma full_result_has_deduplicate fa fb pa pb th ts w dd d :
  collect_vectors pa <> [] -> collect_vectors pb <> [] ->
  calculate_similarity fa fb pa pb th ts w dd = Returned d ->
  dict_get "deduplicate" d = Some (VBool dd).
Proof.
  intros Ha Hb H. rewrite calculate_similarity_nonempty in H by assumption.
  destruct (fused_matrix _ _ w) as [F|]; simpl in H; [|discriminate].
  injection H as <-. reflexivity.
Qed.

(** C7.  A cell whose fused score equals the threshold is emitted (unless
    the type filter skips it), and under [type_sensitive] every emitted pair
    has one type on both sides. *)
Theorem C7_threshold_inclusive_and_type_filter fa fb pa pb th ts w dd d :
  calculate_similarity fa fb pa pb th ts w dd = Returned d ->
  (forall F i j a b,
      fused_matrix (collect_vectors pa) (collect_vectors pb) w = Returned F ->
      nth_error (collect_info pa) i = Some a ->
      nth_error (collect_info pb) j = Some b ->
      (ts = true -> info_type a = info_type b) ->
      get F i j = th ->
      In (SimilarPair a b th) (similar_pairs_of d))
  /\ (ts = true ->
      Forall (fun p => info_type (pair_a p) = info_type (pair_b p)) (similar_pairs_of d)).
Proof.
  intros H. split.
  - intros F i j a b HF Ha Hb Ht Heq.
    apply calculate_similarity_pairs in H as [[H _]|(F' & HF' & H)].
    + (* an empty side has no cell (i, j) *)
      exfalso.
      apply nth_error_nth_some with (d := Info [] [] []) in Ha as [Hi _].
      apply nth_error_nth_some with (d := Info [] [] []) in Hb as [Hj _].
      rewrite <- collect_lengths in Hi, Hj.
      destruct H as [H|H]; rewrite H in *; simpl in *; lia.
    + rewrite H. rewrite HF in HF'. injection HF' as <-.
      unfold emitted. apply sort_desc_in. rewrite <- collect_indexed_pairs.
      apply in_map_iff. exists (i, j, SimilarPair a b th). split; [reflexivity|].
      apply nth_error_nth_some with (d := Info [] [] []) in Ha as [Hi Ha].
      apply nth_error_nth_some with (d := Info [] [] []) in Hb as [Hj Hb].
      apply collect_indexed_in. repeat split; [exact Hi | exact Hj |].
      rewrite candidate_intro; rewrite ?Ha, ?Hb, ?Heq;
        [left; reflexivity | exact Ht | lra].
  - intros Hts. apply List.Forall_forall. intros p Hp.
    apply calculate_similarity_pairs in H as [[_ H]|(F & HF & H)]; rewrite H in Hp; [destruct Hp|].
    destruct (emitted_inv pa pb th ts w F p HF Hp) as (i & j & a & b & _ & _ & _ & _ & _ & _ & Ht).
    apply Ht, Hts.
Qed.

Lemma C7_threshold_inclusive_and_type_filter_witness :
  let d := [ ("paper_a", VStr []); ("paper_b", VStr []);
             ("method", VStr [102; 117; 115; 101; 100]%N);
             ("threshold", VFloat 1); ("type_sensitive", VBool true);
             ("fusion_weight", VFloat (6 / 10));
             ("total_questions_a", VInt 1); ("total_questions_b", VInt 1);
             ("total_pairs", VInt 1); ("deduplicate", VBool true);
             ("similar_pairs", VPairs [SimilarPair e2e_info e2e_info 1]) ]%string in
  (forall F i j a b,
      fused_matrix (collect_vectors [e2e_question]) (collect_vectors [e2e_question]) (6 / 10)
        = Returned F ->
      nth_error (collect_info [e2e_question]) i = Some a ->
      nth_error (collect_info [e2e_question]) j = Some b ->
      (true = true -> info_type a = info_type b) ->
      get F i j = 1 ->
      In (SimilarPair a b 1) (similar_pairs_of d))
  /\ (true = true ->
      Forall (fun p => info_type (pair_a p) = info_type (pair_b p)) (similar_pairs_of d)).
Proof.
  apply (C7_threshold_inclusive_and_type_filter [] [] [e2e_question] [e2e_question]
           1 true (6 / 10) true).
  apply e2e_run. lra.
Defined.



(** Equal scores keep the order of the double loop: one question against
    two copies of it gives the pairs of cells (0, 0) and (0, 1), in that
    order. *)
Example equal_scores_keep_loop_order :
  let b1 := Question [49]%N [77; 67]%N [97]%N (Some [1; 0]) in
  let b2 := Question [50]%N [77; 67]%N [98]%N (Some [1; 0]) in
  exists d,
    calculate_similarity [] [] [e2e_question] [b1; b2] (5 / 10) true (6 / 10) true
    = Returned d
    /\ similar_pairs_of d
       = [ SimilarPair e2e_info (Info [49]%N [77; 67]%N [97]%N) 1;
           SimilarPair e2e_info (Info [50]%N [77; 67]%N [98]%N) 1 ].
Proof.
  intros b1 b2. eexists. split.
  - rewrite calculate_similarity_nonempty by discriminate.
    rewrite fused_matrix_ok by reflexivity. reflexivity.
  - unfold similar_pairs_of. cbn [dict_get String.eqb Ascii.eqb Bool.eqb].
    unfold emitted, collect_pairs. cbn [collect_info collect_vectors flat_map app q_vector
      q_id q_type q_text e2e_question b1 b2 length seq].
    rewrite !candidate_intro.
    + unfold get, table. cbn [map nth]. rewrite !e2e_fused_entry.
      cbn [app sort_desc fold_right insert_desc similarity].
      destruct (Rlt_dec 1 1) as [H|_]; [lra | reflexivity].
    + intros _. reflexivity.
    + unfold get, table. cbn [map nth]. rewrite e2e_fused_entry. lra.
    + intros _. reflexivity.
    + unfold get, table. cbn [map nth]. rewrite e2e_fused_entry. lra.
Qed.
End SimilarityClaims.

(** * Strings and segmentation: lemmas *)

Module StringFacts.
Import Py DataCleaner CleanerSpec.
Local Open Scope N_scope.

Lemma visible_cons (c : N) (s : str) :
  visible (c :: s) = if isspace c then visible s else c :: visible s.
Proof. unfold visible. simpl. destruct (isspace c); reflexivity. Qed.

Lemma visible_app (a b : str) : visible (a ++ b) = visible a ++ visible b.
Proof. apply List.filter_app. Qed.

Lemma visible_idem (s : str) : visible (visible s) = visible s.
Proof.
  induction s as [|c s IH]; [reflexivity|].
  rewrite visible_cons. destruct (isspace c) eqn:E; [exact IH|].
  rewrite visible_cons, E, IH. reflexivity.
Qed.

Lemma visible_rev (s : str) : visible (rev s) = rev (visible s).
Proof.
  induction s as [|c s IH]; simpl; [reflexivity|].
  rewrite visible_app, IH, !visible_cons.
  destruct (isspace c); simpl; [apply app_nil_r | reflexivity].
Qed.

Lemma visible_drop_while (s : str) : visible (drop_while isspace s) = visible s.
Proof.
  induction s as [|c s IH]; [reflexivity|].
  cbn [drop_while]. destruct (isspace c) eqn:E; [|reflexivity].
  rewrite IH, visible_cons, E. reflexivity.
Qed.

Lemma visible_strip (s : str) : visible (strip s) = visible s.
Proof.
  unfold strip, rstrip, lstrip.
  rewrite visible_rev, visible_drop_while, visible_rev, rev_involutive.
  apply visible_drop_while.
Qed.

Lemma visible_concat_flat_map {A : Type} (g : A -> list str) (h : A -> str) (l : list A) :
  (forall x, In x l -> visible (concat (g x)) = visible (h x)) ->
  visible (concat (flat_map g l)) = visible (concat (map h l)).
Proof.
  induction l as [|x l IH]; intros H; simpl; [reflexivity|].
  rewrite concat_app, !visible_app, H by (left; reflexivity).
  rewrite IH by (intros y Hy; apply H; right; exact Hy). reflexivity.
Qed.

Lemma split_on_nonempty (sep : N) (s : str) : split_on sep s <> [].
Proof.
  destruct s as [|c s]; simpl; [discriminate|].
  destruct (c =? sep); [discriminate|]. destruct (split_on sep s); discriminate.
Qed.

Lemma visible_split_on (sep : N) (s : str) :
  isspace sep = true -> visible (concat (split_on sep s)) = visible s.
Proof.
  intros Hs. induction s as [|c s IH]; [reflexivity|].
  cbn [split_on]. destruct (c =? sep) eqn:E.
  - apply N.eqb_eq in E. subst c. cbn [concat app].
    rewrite IH, visible_cons, Hs. reflexivity.
  - destruct (split_on sep s) as [|h t] eqn:Es; [exfalso; eapply split_on_nonempty, Es|].
    cbn [concat app] in *. rewrite !visible_cons, IH. reflexivity.
Qed.

Lemma concat_filter_nonempty (l : list str) :
  concat (List.filter (fun p => negb (is_nil p)) l) = concat l.
Proof.
  induction l as [|x l IH]; simpl; [reflexivity|].
  destruct x; simpl; rewrite IH; reflexivity.
Qed.

Lemma visible_concat_map_strip (l : list str) :
  visible (concat (map strip l)) = visible (concat l).
Proof.
  induction l as [|x l IH]; simpl; [reflexivity|].
  rewrite !visible_app, visible_strip, IH. reflexivity.
Qed.

Lemma concat_split_ws (s : str) : concat (split_ws s) = visible s.
Proof.
  induction s as [|c s IH]; [reflexivity|].
  rewrite visible_cons. cbn [split_ws]. destruct (isspace c) eqn:E; [exact IH|].
  destruct s as [|c' s']; [reflexivity|].
  destruct (isspace c') eqn:E'.
  - cbn [concat app]. rewrite IH. reflexivity.
  - destruct (split_ws (c' :: s')) as [|h t] eqn:Es.
    + rewrite visible_cons, E' in IH. discriminate.
    + cbn [concat app] in *. rewrite IH. reflexivity.
Qed.

Lemma visible_join_space (l : list str) :
  visible (join [32] l) = visible (concat l).
Proof.
  induction l as [|x l IH]; [reflexivity|].
  cbn [join]. destruct l as [|y l]; [cbn [concat]; rewrite app_nil_r; reflexivity|].
  cbn [concat] in *. rewrite !visible_app, IH, visible_app. reflexivity.
Qed.

(** [within] *)

Lemma within_refl (s : str) : within s s.
Proof. exists [], []. rewrite app_nil_r. reflexivity. Qed.

Lemma within_trans (s t u : str) : within s t -> within t u -> within s u.
Proof.
  intros (a & b & ->) (a' & b' & ->). exists (a' ++ a), (b ++ b').
  rewrite <- !app_assoc. reflexivity.
Qed.

Lemma within_length (s t : str) : within s t -> (length s <= length t)%nat.
Proof. intros (a & b & ->). rewrite !length_app. lia. Qed.

Lemma within_cons (c : N) (s t : str) : within s t -> within s (c :: t).
Proof. intros (a & b & ->). exists (c :: a), b. reflexivity. Qed.

Lemma within_app_l (s t u : str) : within s t -> within s (u ++ t).
Proof. intros (a & b & ->). exists (u ++ a), b. rewrite <- app_assoc. reflexivity. Qed.

Lemma within_app_r (s t u : str) : within s t -> within s (t ++ u).
Proof. intros (a & b & ->). exists a, (b ++ u). rewrite <- !app_assoc. reflexivity. Qed.

Lemma drop_while_suffix (p : N -> bool) (s : str) :
  exists a, s = a ++ drop_while p s.
Proof.
  induction s as [|c s [a IH]]; simpl; [exists []; reflexivity|].
  destruct (p c); [exists (c :: a); simpl; rewrite <- IH; reflexivity | exists []; reflexivity].
Qed.

Lemma strip_within (s : str) : within (strip s) s.
Proof.
  unfold strip, rstrip, lstrip.
  destruct (drop_while_suffix isspace s) as [a Ha].
  destruct (drop_while_suffix isspace (rev (drop_while isspace s))) as [b Hb].
  exists a, (rev b).
  rewrite Ha at 1. f_equal.
  rewrite <- (rev_involutive (drop_while isspace s)) at 1.
  rewrite Hb at 1. rewrite rev_app_distr. reflexivity.
Qed.

Lemma split_on_within (sep : N) (s p : str) : In p (split_on sep s) -> within p s.
Proof.
  revert p; induction s as [|c s IH]; intros p Hp; simpl in Hp.
  - destruct Hp as [<-|[]]. apply within_refl.
  - destruct (c =? sep).
    + destruct Hp as [<-|Hp]; [exists [], (c :: s); reflexivity|].
      apply within_cons, IH, Hp.
    + destruct (split_on sep s) as [|h t] eqn:Es.
      * destruct Hp as [<-|[]]. exists [], s. reflexivity.
      * destruct Hp as [<-|Hp].
        -- destruct (IH h (or_introl eq_refl)) as (a & b & Hs).
           (* the first piece starts the string *)
           assert (Ha : exists b', s = h ++ b').
           { clear -Es. revert h t Es. induction s as [|c' s' IH']; intros h t Es; simpl in Es.
             - injection Es as <- <-. exists []. reflexivity.
             - destruct (c' =? sep); [injection Es as <- <-; exists (c' :: s'); reflexivity|].
               destruct (split_on sep s') as [|h' t'] eqn:Es'.
               + injection Es as <- <-. exists s'. reflexivity.
               + injection Es as <- <-. destruct (IH' h' t' eq_refl) as [b' ->].
                 exists b'. reflexivity. }
           destruct Ha as [b' ->]. exists [], b'. reflexivity.
        -- apply within_cons, IH. right. exact Hp.
Qed.

(** *** Tokens of [split()] *)

Lemma split_ws_space (c : N) (s : str) :
  isspace c = true -> split_ws (c :: s) = split_ws s.
Proof. intros E. cbn [split_ws]. rewrite E. reflexivity. Qed.

Lemma split_ws_last (c : N) : isspace c = false -> split_ws [c] = [[c]].
Proof. intros E. cbn [split_ws]. rewrite E. reflexivity. Qed.

Lemma split_ws_end (c c' : N) (s : str) :
  isspace c = false -> isspace c' = true ->
  split_ws (c :: c' :: s) = [c] :: split_ws (c' :: s).
Proof. intros E E'. cbn [split_ws]. rewrite E, E'. reflexivity. Qed.

Lemma split_ws_head (c : N) (s : str) :
  isspace c = false -> exists h t, split_ws (c :: s) = (c :: h) :: t.
Proof.
  intros E. cbn [split_ws]. rewrite E.
  destruct s as [|c' s']; [exists [], []; reflexivity|].
  destruct (isspace c'); [eexists [], _; reflexivity|].
  match goal with |- context [match ?x with _ => _ end] => destruct x as [|h t] end;
    [exists [], [] | exists h, t]; reflexivity.
Qed.

Lemma split_ws_more (c c' : N) (s h t : str) (tl : list str) :
  isspace c = false -> isspace c' = false ->
  split_ws (c' :: s) = h :: tl ->
  split_ws (c :: c' :: s) = (c :: h) :: tl.
Proof.
  intros E E' H. change (split_ws (c :: c' :: s)) with
    (if isspace c then split_ws (c' :: s)
     else if isspace c' then [c] :: split_ws (c' :: s)
     else match split_ws (c' :: s) with h :: t => (c :: h) :: t | [] => [[c]] end).
  rewrite E, E', H. reflexivity.
Qed.

(** The first token of a string that starts with a visible character is a
    prefix of the string. *)
Lemma split_ws_first_prefix (c : N) (s h : str) (tl : list str) :
  isspace c = false -> split_ws (c :: s) = h :: tl -> exists b, c :: s = h ++ b.
Proof.
  revert c h tl; induction s as [|c' s IH]; intros c h tl E H.
  - rewrite (split_ws_last c E) in H. injection H as <- <-. exists []. reflexivity.
  - destruct (isspace c') eqn:E'.
    + rewrite (split_ws_end c c' s E E') in H. injection H as <- <-.
      exists (c' :: s). reflexivity.
    + destruct (split_ws_head c' s E') as (h' & t' & Hh).
      rewrite (split_ws_more c c' s (c' :: h') [] t' E E' Hh) in H.
      injection H as <- <-.
      destruct (IH c' (c' :: h') t' E' Hh) as [b Hb]. exists b.
      cbn [app] in *. rewrite Hb. reflexivity.
Qed.

(** A run of visible characters at the head of a string starts its first
    token. *)
Lemma split_ws_prefix_token (w post : str) :
  w <> [] -> Forall (fun c => isspace c = false) w ->
  exists b t, split_ws (w ++ post) = (w ++ b) :: t.
Proof.
  induction w as [|c w IH]; intros Hne Hw; [contradiction|].
  apply Forall_cons_iff in Hw as [Hc Hw].
  destruct w as [|c2 w2].
  - cbn [app]. destruct (split_ws_head c post Hc) as (h & t & ->). exists h, t. reflexivity.
  - destruct (IH ltac:(discriminate) Hw) as (b & t & IHe).
    pose proof Hw as Hw'. apply Forall_cons_iff in Hw' as [Hc2 _].
    exists b, t. cbn [app] in *.
    apply (split_ws_more c c2 (w2 ++ post) (c2 :: w2 ++ b) [] t Hc Hc2 IHe).
Qed.

(** A run of visible characters anywhere in a string lies inside one token. *)
Lemma split_ws_covers (pre w post : str) :
  w <> [] -> Forall (fun c => isspace c = false) w ->
  exists t, In t (split_ws (pre ++ w ++ post)) /\ within w t.
Proof.
  intros Hne Hw. induction pre as [|c pre IH].
  - destruct (split_ws_prefix_token w post Hne Hw) as (b & t & E).
    exists (w ++ b). cbn [app]. rewrite E. split; [left; reflexivity|].
    exists [], b. reflexivity.
  - destruct IH as (t & Ht & Hwt). cbn [app].
    destruct (isspace c) eqn:Ec.
    { rewrite (split_ws_space c _ Ec). exists t. split; assumption. }
    destruct (pre ++ w ++ post) as [|c' s'] eqn:Es; [destruct Ht|].
    destruct (isspace c') eqn:Ec'.
    + rewrite (split_ws_end c c' s' Ec Ec'). exists t. split; [right; exact Ht | exact Hwt].
    + destruct (split_ws_head c' s' Ec') as (h & tl & Eh).
      rewrite (split_ws_more c c' s' (c' :: h) [] tl Ec Ec' Eh).
      rewrite Eh in Ht. destruct Ht as [<-|Ht].
      * exists (c :: c' :: h). split; [left; reflexivity | apply within_cons, Hwt].
      * exists t. split; [right; exact Ht | exact Hwt].
Qed.

(** Every token is a non-empty run of visible characters of the string. *)
Lemma split_ws_token (s w : str) :
  In w (split_ws s) ->
  w <> [] /\ Forall (fun c => isspace c = false) w /\ within w s.
Proof.
  revert w; induction s as [|c s IH]; intros w Hw; [destruct Hw|].
  destruct (isspace c) eqn:Ec.
  { rewrite (split_ws_space c s Ec) in Hw.
    destruct (IH w Hw) as (H1 & H2 & H3). repeat split; try assumption.
    apply within_cons, H3. }
  destruct s as [|c' s'].
  { rewrite (split_ws_last c Ec) in Hw. destruct Hw as [<-|[]].
    repeat split; [discriminate | repeat constructor; exact Ec | apply within_refl]. }
  destruct (isspace c') eqn:Ec'.
  { rewrite (split_ws_end c c' s' Ec Ec') in Hw. destruct Hw as [<-|Hw].
    - repeat split; [discriminate | repeat constructor; exact Ec |].
      exists [], (c' :: s'). reflexivity.
    - destruct (IH w Hw) as (H1 & H2 & H3). repeat split; try assumption.
      apply within_cons, H3. }
  destruct (split_ws_head c' s' Ec') as (h & tl & Eh).
  rewrite (split_ws_more c c' s' (c' :: h) [] tl Ec Ec' Eh) in Hw.
  destruct Hw as [<-|Hw].
  - destruct (IH (c' :: h) ltac:(rewrite Eh; left; reflexivity)) as (H1 & H2 & H3).
    repeat split; [discriminate | constructor; assumption |].
    destruct (split_ws_first_prefix c' s' (c' :: h) tl Ec' Eh) as [b Hb].
    exists [], b. cbn [app] in *. rewrite Hb. reflexivity.
  - destruct (IH w ltac:(rewrite Eh; right; exact Hw)) as (H1 & H2 & H3).
    repeat split; try assumption. apply within_cons, H3.
Qed.

(** *** The character loop *)

Lemma punctuation_segments_visible (m : Z) (cur para : str) :
  visible (concat (punctuation_segments m cur para)) = visible (cur ++ para).
Proof.
  revert cur; induction para as [|c para IH]; intros cur.
  - cbn [punctuation_segments]. rewrite app_nil_r. destruct cur as [|c cur]; [reflexivity|].
    cbn [concat]. rewrite app_nil_r. apply visible_strip.
  - cbn [punctuation_segments].
    destruct (is_terminal c && _)%bool.
    + cbn [concat]. rewrite visible_app, visible_strip, IH. cbn [app].
      rewrite <- visible_app, <- app_assoc. reflexivity.
    + rewrite IH, <- app_assoc. reflexivity.
Qed.

Lemma punctuation_segments_within (m : Z) (cur para seg : str) :
  In seg (punctuation_segments m cur para) -> within seg (cur ++ para).
Proof.
  revert cur; induction para as [|c para IH]; intros cur Hs.
  - cbn [punctuation_segments] in Hs. rewrite app_nil_r.
    destruct cur as [|c cur]; [destruct Hs|]. destruct Hs as [<-|[]]. apply strip_within.
  - cbn [punctuation_segments] in Hs.
    replace (cur ++ c :: para) with ((cur ++ [c]) ++ para) by (rewrite <- app_assoc; reflexivity).
    destruct (is_terminal c && _)%bool.
    + destruct Hs as [<-|Hs].
      * apply within_app_r, strip_within.
      * apply within_app_l. apply (IH [] Hs).
    + apply IH, Hs.
Qed.

(** *** The word loop *)

Lemma total_app (a b : list str) : total (a ++ b) = (total a + total b)%Z.
Proof. induction a as [|x a IH]; simpl; [reflexivity | rewrite IH; lia]. Qed.

Lemma len_nonneg (s : str) : (0 <= len s)%Z.
Proof. unfold len. lia. Qed.

Lemma len_app (a b : str) : len (a ++ b) = (len a + len b)%Z.
Proof. unfold len. rewrite length_app. lia. Qed.

Lemma len_join (l : list str) : l <> [] -> len (join [32] l) = (total l - 1)%Z.
Proof.
  induction l as [|x l IH]; intros H; [contradiction|].
  cbn [join total fold_right]. destruct l as [|y l]; [simpl; lia|].
  rewrite !len_app, IH by discriminate. cbn [total fold_right]. unfold len at 2. simpl. lia.
Qed.

Lemma pack_words_visible (m : Z) (frag : list str) (cl : Z) (words : list str) :
  visible (concat (pack_words m frag cl words)) = visible (concat (frag ++ words)).
Proof.
  revert frag cl; induction words as [|w words IH]; intros frag cl.
  - cbn [pack_words]. rewrite app_nil_r. destruct frag as [|x frag]; [reflexivity|].
    cbn [concat]. rewrite app_nil_r. apply visible_join_space.
  - cbn [pack_words]. destruct (_ && _)%bool.
    + cbn [concat]. rewrite visible_app, visible_join_space, IH.
      rewrite <- visible_app, <- concat_app. reflexivity.
    + rewrite IH, <- app_assoc. reflexivity.
Qed.

Lemma pack_words_bound (m : Z) (frag : list str) (cl : Z) (words : list str) (s : str) :
  cl = total frag -> ((2 <= length frag)%nat -> (cl <= m)%Z) ->
  In s (pack_words m frag cl words) ->
  (len s <= m)%Z \/ In s (frag ++ words).
Proof.
  revert frag cl; induction words as [|w words IH]; intros frag cl Hcl Hm Hs.
  - cbn [pack_words] in Hs. destruct frag as [|x frag]; [destruct Hs|].
    destruct Hs as [<-|[]]. destruct frag as [|y frag].
    + right. left. reflexivity.
    + left. rewrite len_join by discriminate. specialize (Hm ltac:(simpl; lia)). lia.
  - cbn [pack_words] in Hs.
    assert (Hkeep : In s (pack_words m (frag ++ [w]) (cl + len w + 1)%Z words) ->
                    (frag = [] \/ (cl + len w + 1 <= m)%Z) ->
                    (len s <= m)%Z \/ In s (frag ++ w :: words)).
    { intros Hs' Hc. apply (IH (frag ++ [w]) (cl + len w + 1)%Z) in Hs'.
      - rewrite <- app_assoc in Hs'. exact Hs'.
      - rewrite total_app, Hcl. cbn. lia.
      - intros Hl. destruct Hc as [->|Hc]; [simpl in Hl; lia | exact Hc]. }
    destruct (m <? cl + len w + 1)%Z eqn:Elt; cbn [andb] in Hs.
    + destruct frag as [|x frag]; cbn [is_nil negb] in Hs.
      * apply Hkeep; [exact Hs | left; reflexivity].
      * destruct Hs as [<-|Hs].
        -- destruct frag as [|y frag].
           ++ right. left. reflexivity.
           ++ left. rewrite len_join by discriminate. specialize (Hm ltac:(simpl; lia)). lia.
        -- apply (IH [w] (len w + 1)%Z) in Hs.
           ++ destruct Hs as [Hs|Hs]; [left; exact Hs|].
              right. apply in_or_app. right. exact Hs.
           ++ cbn. lia.
           ++ simpl. lia.
    + apply Hkeep; [exact Hs|]. right. apply Z.ltb_ge in Elt. exact Elt.
Qed.

Lemma paragraphs_visible (text : str) :
  visible (concat (paragraphs text)) = visible text.
Proof.
  unfold paragraphs.
  rewrite concat_filter_nonempty, visible_concat_map_strip.
  apply visible_split_on. reflexivity.
Qed.

Lemma paragraphs_within (text para : str) : In para (paragraphs text) -> within para text.
Proof.
  unfold paragraphs. intros H. apply filter_In in H as [H _].
  apply in_map_iff in H as (p & <- & Hp).
  eapply within_trans; [apply strip_within | eapply split_on_within, Hp].
Qed.

Lemma segment_paragraph_visible (m : Z) (para : str) :
  visible (concat (segment_paragraph m para)) = visible para.
Proof.
  unfold segment_paragraph. destruct (len para <=? m)%Z.
  { cbn [concat]. rewrite app_nil_r. reflexivity. }
  rewrite (visible_concat_flat_map _ (fun seg => seg)).
  - rewrite map_id. apply (punctuation_segments_visible m [] para).
  - intros seg _. destruct (len seg <=? m)%Z.
    + cbn [concat]. rewrite app_nil_r. reflexivity.
    + rewrite pack_words_visible. cbn [app]. rewrite concat_split_ws. apply visible_idem.
Qed.

End StringFacts.

(** * Segmentation: the claim *)

Module SegmentClaims.
Import Py DataCleaner CleanerSpec StringFacts.
Local Open Scope N_scope.

(** C5.  The visible characters of the segments, in order, are those of the
    text; and a segment longer than [max_length] is a piece of one
    whitespace-delimited token of the text, which is then longer than
    [max_length] itself. *)
Theorem C5_segments_cover_and_bound (text : str) (max_length : Z) :
  visible (concat (segment_text text max_length)) = visible text
  /\ forall s, In s (segment_text text max_length) ->
       (len s <= max_length)%Z
       \/ exists t, In t (split_ws text) /\ within s t /\ (max_length < len t)%Z.
Proof.
  split.
  - unfold segment_text.
    rewrite (visible_concat_flat_map _ (fun para => para)).
    + rewrite map_id. apply paragraphs_visible.
    + intros para _. apply segment_paragraph_visible.
  - intros s Hs. unfold segment_text in Hs.
    apply in_flat_map in Hs as (para & Hpara & Hs).
    apply paragraphs_within in Hpara.
    unfold segment_paragraph in Hs.
    destruct (len para <=? max_length)%Z eqn:Ep.
    { destruct Hs as [<-|[]]. left. apply Z.leb_le, Ep. }
    apply in_flat_map in Hs as (seg & Hseg & Hs).
    apply (punctuation_segments_within max_length [] para) in Hseg. cbn [app] in Hseg.
    destruct (len seg <=? max_length)%Z eqn:Eseg.
    { destruct Hs as [<-|[]]. left. apply Z.leb_le, Eseg. }
    apply (pack_words_bound max_length [] 0%Z) in Hs; [|reflexivity | simpl; lia].
    destruct Hs as [Hs|Hs]; [left; exact Hs|].
    destruct (Z_le_gt_dec (len s) max_length) as [Hle|Hgt]; [left; exact Hle|].
    right. cbn [app] in Hs.
    apply split_ws_token in Hs as (Hne & Hvis & Hin).
    assert (Hst : within s text).
    { eapply within_trans; [exact Hin|]. eapply within_trans; [exact Hseg | exact Hpara]. }
    destruct Hst as (pre & post & ->).
    destruct (split_ws_covers pre s post Hne Hvis) as (t & Ht & Hwt).
    exists t. repeat split; [exact Ht | exact Hwt |].
    apply within_length in Hwt. unfold len in *. lia.
Qed.

(** Two runs: words packed under the bound, and a token that alone exceeds
    it. *)
Example segment_text_packs :
  segment_text (codes "  hello world  foo bar baz qux ") 11
  = map codes ["hello"; "world foo"; "bar baz"; "qux"]%string.
Proof. vm_compute. reflexivity. Qed.

Example segment_text_long_token :
  segment_text (codes "aaaaaaaaaaaaaaaa bb") 5 = map codes ["aaaaaaaaaaaaaaaa"; "bb"]%string.
Proof. vm_compute. reflexivity. Qed.

(** A cut after a full stop once 30% of the bound is reached. *)
Example segment_text_cuts_at_full_stop :
  segment_text ([97; 98; 99; 12290; 100; 101; 12290; 102; 103] ++ codes " hi there") 10
  = [[97; 98; 99; 12290]; [100; 101; 12290]; [102; 103] ++ codes " hi"; codes "there"].
Proof. vm_compute. reflexivity. Qed.

End SegmentClaims.

(** * Markup cleaning: lemmas *)

Module CleanHtmlFacts.
Import Py DataCleaner CleanerSpec StringFacts.
Local Open Scope N_scope.

Section ReSub.
Context {St : Type}.
Variable find : str -> option nat.
Variable repl : St -> str -> outcome (St * str).

Lemma sub_from_skip (k : nat) (st : St) (s : str) :
  sub_from find repl k st s = re_sub find repl st (skipn k s).
Proof.
  unfold re_sub. revert k; induction s as [|c s IH]; intros k.
  - destruct k; reflexivity.
  - destruct k as [|k]; [reflexivity|]. cbn [sub_from skipn]. apply IH.
Qed.

Lemma re_sub_nil (st : St) : re_sub find repl st [] = Returned (st, []).
Proof. reflexivity. Qed.

Lemma re_sub_copy (st : St) (c : N) (s : str) :
  find (c :: s) = None ->
  re_sub find repl st (c :: s) =
  let* t := re_sub find repl st s in Returned (fst t, c :: snd t).
Proof. intros H. unfold re_sub. cbn [sub_from]. rewrite H. reflexivity. Qed.

Lemma re_sub_match (st : St) (c : N) (s : str) (n : nat) :
  find (c :: s) = Some n -> (0 < n)%nat ->
  re_sub find repl st (c :: s) =
  let* r := repl st (firstn n (c :: s)) in
  let* t := re_sub find repl (fst r) (skipn n (c :: s)) in
  Returned (fst t, snd r ++ snd t).
Proof.
  intros H Hn. unfold re_sub at 1. cbn [sub_from]. rewrite H.
  destruct (repl st (firstn n (c :: s))) as [r|e]; [|reflexivity].
  cbn [bind]. rewrite sub_from_skip.
  destruct n as [|n]; [lia|]. reflexivity.
Qed.

(** With a replacement that always returns, so does the substitution. *)
Lemma sub_from_returns (k : nat) (st : St) (s : str) :
  (forall st' m, exists r, repl st' m = Returned r) ->
  exists t, sub_from find repl k st s = Returned t.
Proof.
  intros Hr. revert k st; induction s as [|c s IH]; intros k st.
  - eexists. reflexivity.
  - cbn [sub_from]. destruct k as [|k]; [|apply IH].
    destruct (find (c :: s)) as [n|].
    + destruct (Hr st (firstn n (c :: s))) as [r ->]. cbn [bind].
      destruct (IH (pred n) (fst r)) as [t ->]. eexists. reflexivity.
    + destruct (IH 0%nat st) as [t ->]. eexists. reflexivity.
Qed.

(** Text in which no match starts is copied. *)
Lemma re_sub_copy_prefix (st : St) (pre rest : str) :
  (forall a b, pre = a ++ b -> b <> [] -> find (b ++ rest) = None) ->
  re_sub find repl st (pre ++ rest) =
  let* t := re_sub find repl st rest in Returned (fst t, pre ++ snd t).
Proof.
  induction pre as [|c pre IH]; intros H.
  - cbn [app]. destruct (re_sub find repl st rest) as [[st' t]|e]; reflexivity.
  - cbn [app]. rewrite re_sub_copy by (apply (H [] (c :: pre)); [reflexivity | discriminate]).
    rewrite IH.
    + destruct (re_sub find repl st rest) as [[st' t]|e]; reflexivity.
    + intros a b -> Hb. apply (H (c :: a) b); [reflexivity | exact Hb].
Qed.

End ReSub.

Section CleanHtml.
Variable strip_markup : str -> str.
Variable unicode_decimal : N -> option nat.

Local Abbreviation decimal_value := (decimal_value unicode_decimal).
Local Abbreviation is_digit := (is_digit unicode_decimal).
Local Abbreviation int_of_digits := (int_of_digits unicode_decimal).
Local Abbreviation placeholder_pattern := (placeholder_pattern unicode_decimal).
Local Abbreviation restore_math := (restore_math unicode_decimal).
Local Abbreviation clean_html := (clean_html strip_markup unicode_decimal).

(** *** Decimal digits *)

Definition ascii_digit (c : N) : Prop := 48 <= c <= 57.

Lemma uint_codes_digits (d : Decimal.uint) : Forall ascii_digit (uint_codes d).
Proof.
  induction d; cbn [uint_codes]; constructor; try assumption; unfold ascii_digit; lia.
Qed.

Lemma is_digit_ascii (c : N) : ascii_digit c -> is_digit c = true.
Proof.
  intros [H1 H2]. unfold DataCleaner.is_digit, DataCleaner.decimal_value.
  apply N.leb_le in H1, H2. rewrite H1, H2. reflexivity.
Qed.

Lemma is_digit_underscore : is_digit 95 = false.
Proof. reflexivity. Qed.

Lemma int_of_uint_codes (d : Decimal.uint) (acc : nat) :
  fold_left (fun acc c => (10 * acc + default 0 (decimal_value c))%nat) (uint_codes d) acc
  = Nat.of_uint_acc d acc.
Proof.
  revert acc; induction d; intros acc; cbn [uint_codes fold_left Nat.of_uint_acc];
    try reflexivity; rewrite IHd; f_equal; rewrite Nat.tail_mul_spec;
    unfold DataCleaner.decimal_value; cbn; lia.
Qed.

Lemma int_of_format_nat (n : nat) : int_of_digits (format_nat n) = n.
Proof.
  unfold DataCleaner.int_of_digits, format_nat. rewrite int_of_uint_codes.
  apply Unsigned.of_to.
Qed.

Lemma format_nat_nonempty (n : nat) : format_nat n <> [].
Proof.
  unfold format_nat. intros H.
  assert (Hn : Nat.to_uint n <> Decimal.Nil).
  { rewrite <- (Unsigned.of_to n) at 1. rewrite Unsigned.to_of. apply unorm_nonnil. }
  destruct (Nat.to_uint n); try discriminate. contradiction.
Qed.

Lemma take_while_digits (ds rest : str) :
  Forall ascii_digit ds -> take_while is_digit (ds ++ 95 :: rest) = ds.
Proof.
  induction ds as [|c ds IH]; intros H; cbn [app take_while].
  - rewrite is_digit_underscore. reflexivity.
  - apply Forall_cons_iff in H as [Hc H]. rewrite (is_digit_ascii c Hc), IH by exact H.
    reflexivity.
Qed.

(** *** The placeholder and its pattern *)

Lemma placeholder_unfold (k : nat) (post : str) :
  placeholder k ++ post
  = [95; 95; 77; 65; 84; 72; 95] ++ format_nat k ++ 95 :: 95 :: post.
Proof. unfold placeholder. cbn [codes]. rewrite <- !app_assoc. reflexivity. Qed.

Lemma placeholder_length (k : nat) :
  length (placeholder k) = (7 + length (format_nat k) + 2)%nat.
Proof. unfold placeholder. rewrite !length_app. cbn. lia. Qed.

Lemma placeholder_pattern_at (k : nat) (post : str) :
  placeholder_pattern (placeholder k ++ post) = Some (length (placeholder k)).
Proof.
  rewrite placeholder_unfold, placeholder_length.
  unfold DataCleaner.placeholder_pattern, starts_with.
  cbn [codes list_ascii_of_string map length firstn skipn app].
  rewrite bool_decide_eq_true_2 by reflexivity. rewrite skipn_O.
  rewrite take_while_digits by apply uint_codes_digits.
  pose proof (format_nat_nonempty k) as Hne.
  destruct (format_nat k) as [|d ds] eqn:E; [contradiction|].
  cbn [is_nil negb andb].
  replace (skipn (7 + length (d :: ds))
             (95 :: 95 :: 77 :: 65 :: 84 :: 72 :: 95 :: (d :: ds) ++ 95 :: 95 :: post))
    with (95 :: 95 :: post).
  - rewrite bool_decide_eq_true_2 by reflexivity. reflexivity.
  - change (7 + length (d :: ds))%nat with (S (S (S (S (S (S (S (length (d :: ds))))))))).
    cbn [skipn]. rewrite skipn_app, skipn_all, Nat.sub_diag. reflexivity.
Qed.

Lemma restore_math_placeholder (blocks : list str) (k : nat) :
  restore_math blocks tt (placeholder k) = Returned (tt, nth k blocks []).
Proof.
  unfold DataCleaner.restore_math.
  rewrite <- (app_nil_r (placeholder k)), placeholder_unfold.
  cbn [skipn app]. rewrite skipn_O, take_while_digits by apply uint_codes_digits.
  rewrite int_of_format_nat.
  destruct (k <? length blocks)%nat eqn:E.
  - apply Nat.ltb_lt in E. destruct (nth_error blocks k) as [b|] eqn:Eb.
    + do 2 f_equal. symmetry. apply nth_error_nth. exact Eb.
    + apply nth_error_None in Eb. lia.
  - apply Nat.ltb_ge in E. rewrite nth_overflow by exact E. reflexivity.
Qed.

(** [restore_math] never raises: the index is tested before it is used. *)
Lemma restore_math_returns (blocks : list str) (st : unit) (m : str) :
  exists r, restore_math blocks st m = Returned r.
Proof.
  unfold DataCleaner.restore_math.
  destruct (_ <? length blocks)%nat eqn:E; [|eexists; reflexivity].
  apply Nat.ltb_lt in E.
  destruct (nth_error blocks _) as [b|] eqn:Eb; [eexists; reflexivity|].
  apply nth_error_None in Eb. lia.
Qed.

End CleanHtml.

Section CleanHtml.
Variable strip_markup : str -> str.
Variable unicode_decimal : N -> option nat.

Local Abbreviation placeholder_pattern := (placeholder_pattern unicode_decimal).
Local Abbreviation restore_math := (restore_math unicode_decimal).
Local Abbreviation clean_html := (clean_html strip_markup unicode_decimal).
Local Abbreviation normalised := (normalised strip_markup).

Lemma protect_eq (raw : str) :
  re_sub math_pattern save_math [] raw = Returned (protect raw).
Proof.
  unfold protect, re_sub.
  destruct (sub_from_returns math_pattern save_math 0 [] raw) as [t Ht];
    [intros st m; eexists; reflexivity|].
  rewrite Ht. reflexivity.
Qed.

Lemma clean_html_eq (raw : str) :
  clean_html raw =
  let* restored :=
    re_sub placeholder_pattern (restore_math (fst (protect raw))) tt (normalised raw) in
  Returned (snd restored).
Proof. unfold DataCleaner.clean_html. rewrite protect_eq. reflexivity. Qed.

Lemma clean_html_returns (raw : str) : exists out, clean_html raw = Returned out.
Proof.
  rewrite clean_html_eq. unfold re_sub.
  destruct (sub_from_returns placeholder_pattern (restore_math (fst (protect raw)))
              0 tt (normalised raw)) as [t Ht]; [apply restore_math_returns|].
  rewrite Ht. eexists. reflexivity.
Qed.

(** No placeholder match starts in marker-free text that a placeholder
    follows. *)
Lemma no_match_before_placeholder (pre : str) (k : nat) (post : str) :
  marker_free pre ->
  forall a b, pre = a ++ b -> b <> [] ->
  placeholder_pattern (b ++ placeholder k ++ post) = None.
Proof.
  intros Hfree a b -> Hb. rewrite placeholder_unfold.
  unfold DataCleaner.placeholder_pattern, starts_with.
  change (codes "__MATH_") with ([95; 95; 77; 65; 84; 72; 95] : str).
  destruct (bool_decide _) eqn:E; [|reflexivity].
  apply bool_decide_eq_true in E.
  destruct b as [|x1 [|x2 [|x3 [|x4 [|x5 [|x6 [|x7 b]]]]]]]; [contradiction|..];
    cbn [length firstn app] in E; try congruence.
  - (* six characters, then the first underscore of the placeholder: no
       digit follows *)
    reflexivity.
  - exfalso. apply Hfree. exists a, b. injection E as -> -> -> -> -> -> ->. reflexivity.
Qed.

(** Around a placeholder that marker-free text precedes, the restoring
    substitution copies the text, puts the span of that index (or the empty
    string) and goes on behind it. *)
Lemma restore_around (blocks : list str) (pre post : str) (k : nat) :
  marker_free pre ->
  re_sub placeholder_pattern (restore_math blocks) tt (pre ++ placeholder k ++ post) =
  let* t := re_sub placeholder_pattern (restore_math blocks) tt post in
  Returned (fst t, pre ++ nth k blocks [] ++ snd t).
Proof.
  intros Hfree.
  rewrite re_sub_copy_prefix by (apply no_match_before_placeholder, Hfree).
  assert (Hm : re_sub placeholder_pattern (restore_math blocks) tt (placeholder k ++ post) =
               let* t := re_sub placeholder_pattern (restore_math blocks) tt post in
               Returned (fst t, nth k blocks [] ++ snd t)).
  { pose proof (placeholder_pattern_at unicode_decimal k post) as Hp.
    pose proof (placeholder_length k) as Hl.
    destruct (placeholder k ++ post) as [|c s] eqn:Es.
    { apply (f_equal (@length N)) in Es. rewrite length_app, Hl in Es. simpl in Es. lia. }
    rewrite (re_sub_match _ _ tt c s _ Hp) by lia.
    rewrite <- Es, firstn_app, firstn_all, Nat.sub_diag, firstn_O, app_nil_r.
    rewrite restore_math_placeholder. cbn [bind fst snd].
    rewrite skipn_app, skipn_all, Nat.sub_diag, skipn_O. reflexivity. }
  rewrite Hm.
  destruct (re_sub placeholder_pattern (restore_math blocks) tt post) as [[u t]|e];
    reflexivity.
Qed.

(** The captured spans are pieces of the input. *)
Lemma save_math_within (n : nat) :
  forall (s : str) (blocks blocks' : list str) (out : str),
  (length s <= n)%nat ->
  re_sub math_pattern save_math blocks s = Returned (blocks', out) ->
  exists new, blocks' = blocks ++ new /\ Forall (fun b => within b s) new.
Proof.
  induction n as [|n IH]; intros s blocks blocks' out Hn H.
  - destruct s; [|simpl in Hn; lia]. injection H as <- <-.
    exists []. rewrite app_nil_r. split; [reflexivity | constructor].
  - destruct s as [|c s].
    { injection H as <- <-. exists []. rewrite app_nil_r. split; [reflexivity | constructor]. }
    destruct (math_pattern (c :: s)) as [m|] eqn:Em.
    + assert (Hpos : (0 < m)%nat).
      { unfold math_pattern in Em. destruct (c =? 36).
        - destruct (dollar_close s); [injection Em as <-; lia | discriminate].
        - destruct s as [|c2 s2]; [discriminate|].
          destruct ((c =? 92) && (c2 =? 91)); [|discriminate].
          destruct (bracket_close s2); [injection Em as <-; lia | discriminate]. }
      rewrite (re_sub_match _ _ blocks c s m Em Hpos) in H.
      unfold save_math at 1 in H. cbn [bind fst snd] in H.
      destruct (re_sub math_pattern save_math _ (skipn m (c :: s))) as [[bl o]|e] eqn:Er;
        [|discriminate].
      cbn [bind fst snd] in H. injection H as <- <-.
      apply IH in Er as (new & -> & Hnew).
      2:{ rewrite length_skipn. simpl in *. lia. }
      exists (firstn m (c :: s) :: new). rewrite <- app_assoc. split; [reflexivity|].
      constructor.
      * exists [], (skipn m (c :: s)). cbn [app]. symmetry. apply firstn_skipn.
      * eapply List.Forall_impl; [|exact Hnew]. intros b (x & y & Hb).
        exists (firstn m (c :: s) ++ x), y.
        rewrite <- (firstn_skipn m (c :: s)) at 1. rewrite Hb, <- app_assoc. reflexivity.
    + rewrite (re_sub_copy _ _ blocks c s Em) in H.
      destruct (re_sub math_pattern save_math blocks s) as [[bl o]|e] eqn:Er; [|discriminate].
      cbn [bind fst snd] in H. injection H as <- <-.
      apply IH in Er as (new & -> & Hnew); [|simpl in Hn; lia].
      exists new. split; [reflexivity|].
      eapply List.Forall_impl; [|exact Hnew]. intros b Hb. apply within_cons, Hb.
Qed.

Lemma protect_within (raw span : str) : In span (fst (protect raw)) -> within span raw.
Proof.
  intros H. pose proof (protect_eq raw) as He.
  destruct (protect raw) as [blocks out].
  apply (save_math_within (length raw)) in He as (new & -> & Hnew); [|lia].
  cbn [fst app] in H. rewrite List.Forall_forall in Hnew. apply Hnew, H.
Qed.

End CleanHtml.

Lemma within_in (s t : str) (c : N) : within s t -> In c s -> In c t.
Proof. intros (a & b & ->) H. apply in_or_app. right. apply in_or_app. left. exact H. Qed.

Lemma protect_example :
  protect (codes "<p>Compute $x^2+1$ here</p>")
  = ([codes "$x^2+1$"], codes "<p>Compute __MATH_0__ here</p>").
Proof. vm_compute. reflexivity. Qed.

Lemma protect_collision :
  protect (codes "__MATH_1$x$") = ([codes "$x$"], codes "__MATH_1__MATH_0__").
Proof. vm_compute. reflexivity. Qed.

End CleanHtmlFacts.

(** * Markup cleaning and deduplication: the claims *)

Module CleanerClaims.
Import Py DataCleaner CleanerSpec StringFacts CleanHtmlFacts.
Local Open Scope N_scope.




Lemma keep_first_sublist (earlier : list str) (l : list cleaned_question) :
  sublist (keep_first_occurrences earlier l) l.
Proof.
  revert earlier; induction l as [|q l IH]; intros earlier; cbn [keep_first_occurrences].
  - constructor.
  - destruct (bool_decide _); [apply sublist_cons | apply sublist_skip]; apply IH.
Qed.

Lemma keep_first_fresh (earlier : list str) (l : list cleaned_question) (q : cleaned_question) :
  In q (keep_first_occurrences earlier l) -> fingerprint_of q ∉ earlier.
Proof.
  revert earlier; induction l as [|x l IH]; intros earlier H; cbn [keep_first_occurrences] in H.
  - destruct H.
  - destruct (bool_decide (fingerprint_of x ∈ earlier)) eqn:E.
    + apply IH in H. intros Hin. apply H. apply elem_of_app. left. exact Hin.
    + destruct H as [<-|H]; [apply bool_decide_eq_false in E; exact E|].
      apply IH in H. intros Hin. apply H. apply elem_of_app. left. exact Hin.
Qed.

Lemma keep_first_nodup (earlier : list str) (l : list cleaned_question) :
  List.NoDup (map fingerprint_of (keep_first_occurrences earlier l)).
Proof.
  revert earlier; induction l as [|x l IH]; intros earlier; cbn [keep_first_occurrences].
  - constructor.
  - destruct (bool_decide _); [apply IH|].
    cbn [map]. constructor; [|apply IH].
    intros Hin. apply in_map_iff in Hin as (q & Hq & Hin).
    apply keep_first_fresh in Hin. apply Hin. rewrite Hq.
    apply elem_of_app. right. apply list_elem_of_singleton. reflexivity.
Qed.

Lemma keep_first_keeps_first (earlier : list str) (pre post : list cleaned_question)
    (q : cleaned_question) :
  fingerprint_of q ∉ earlier -> ~ In (fingerprint_of q) (map fingerprint_of pre) ->
  In q (keep_first_occurrences earlier (pre ++ q :: post)).
Proof.
  revert earlier; induction pre as [|x pre IH]; intros earlier He Hp.
  - cbn [app keep_first_occurrences]. rewrite bool_decide_eq_false_2 by exact He.
    left. reflexivity.
  - cbn [app keep_first_occurrences].
    assert (Hx : fingerprint_of q <> fingerprint_of x).
    { intros Heq. apply Hp. left. symmetry. exact Heq. }
    assert (IH' : In q (keep_first_occurrences (earlier ++ [fingerprint_of x])
                          (pre ++ q :: post))).
    { apply IH.
      - intros Hin. apply elem_of_app in Hin as [Hin|Hin]; [exact (He Hin)|].
        apply list_elem_of_singleton in Hin. exact (Hx Hin).
      - intros Hin. apply Hp. right. exact Hin. }
    destruct (bool_decide _); [exact IH' | right; exact IH'].
Qed.

Section CleanPaper.
Variable strip_markup : str -> str.
Variable unicode_decimal : N -> option nat.
Variable extract_core_content : str -> str.
Variable sha256_hex : str -> str.
Variable basename : str -> str.

Local Abbreviation clean_html := (clean_html strip_markup unicode_decimal).
Local Abbreviation clean_question :=
  (clean_question strip_markup unicode_decimal extract_core_content sha256_hex).
Local Abbreviation clean_loop :=
  (clean_loop strip_markup unicode_decimal extract_core_content sha256_hex).
Local Abbreviation expected_fingerprint :=
  (expected_fingerprint extract_core_content sha256_hex).
Local Abbreviation clean_paper_data :=
  (clean_paper_data strip_markup unicode_decimal extract_core_content sha256_hex basename).

Lemma clean_question_returns (paper_id : str) (question : exam_question) :
  exists q, clean_question paper_id question = Returned q
            /\ cq_fingerprint q = Some (expected_fingerprint paper_id (cq_text q)).
Proof.
  unfold DataCleaner.clean_question.
  destruct (clean_html_returns strip_markup unicode_decimal
              (default [] (richTextContent question))) as [out ->].
  cbn [bind]. eexists. split; reflexivity.
Qed.

Lemma mapM_clean_question (paper_id : str) (exam_data : list exam_question) :
  exists cleaned, mapM (clean_question paper_id) exam_data = Returned cleaned
    /\ Forall (fun q => cq_fingerprint q = Some (expected_fingerprint paper_id (cq_text q)))
              cleaned.
Proof.
  induction exam_data as [|x l (cleaned & IH & Hf)].
  - exists []. split; [reflexivity | constructor].
  - destruct (clean_question_returns paper_id x) as (q & Hq & Hfp).
    exists (q :: cleaned). cbn [mapM]. rewrite Hq, IH. split; [reflexivity|].
    constructor; assumption.
Qed.

Lemma clean_loop_spec (paper_id : str) (deduplicate : bool) (exam_data : list exam_question)
    (cleaned : list cleaned_question) :
  mapM (clean_question paper_id) exam_data = Returned cleaned ->
  forall (acc : list cleaned_question) (seen : gset str) (earlier : list str),
  (forall x, x ∈ seen <-> x ∈ earlier) ->
  clean_loop paper_id deduplicate exam_data acc seen =
  Returned (acc ++ if deduplicate then keep_first_occurrences earlier cleaned else cleaned).
Proof.
  revert cleaned; induction exam_data as [|x l IH]; intros cleaned Hm acc seen earlier Hs.
  - injection Hm as <-. cbn [clean_loop keep_first_occurrences].
    destruct deduplicate; rewrite app_nil_r; reflexivity.
  - cbn [mapM] in Hm.
    destruct (clean_question paper_id x) as [q|] eqn:Hq; [|discriminate].
    destruct (mapM (clean_question paper_id) l) as [cl|] eqn:Hl; [|discriminate].
    cbn [bind] in Hm. injection Hm as <-.
    cbn [clean_loop]. rewrite Hq. cbn [bind]. fold (fingerprint_of q).
    assert (Hs' : forall y, y ∈ ({[fingerprint_of q]} ∪ seen : gset str)
                            <-> y ∈ earlier ++ [fingerprint_of q]).
    { intros y. rewrite elem_of_union, elem_of_singleton, elem_of_app,
        list_elem_of_singleton, Hs. tauto. }
    destruct deduplicate; cbn [andb keep_first_occurrences].
    + destruct (decide (fingerprint_of q ∈ seen)) as [E|E].
      * rewrite (bool_decide_eq_true_2 (fingerprint_of q ∈ seen)) by exact E.
        rewrite (bool_decide_eq_true_2 (fingerprint_of q ∈ earlier))
          by exact (proj1 (Hs _) E).
        apply (IH cl eq_refl).
        intros y. rewrite elem_of_app, list_elem_of_singleton, <- Hs. split; [tauto|].
        intros [H| ->]; assumption.
      * rewrite (bool_decide_eq_false_2 (fingerprint_of q ∈ seen)) by exact E.
        rewrite (bool_decide_eq_false_2 (fingerprint_of q ∈ earlier))
          by (intros Hin; exact (E (proj2 (Hs _) Hin))).
        rewrite (IH cl eq_refl _ _ _ Hs'), <- app_assoc. reflexivity.
    + rewrite (IH cl eq_refl _ _ _ Hs'), <- app_assoc. reflexivity.
Qed.


End CleanPaper.

(** The run of [same_text_twice] with and without deduplication. *)
Example deduplicate_keeps_first :
  let run := clean_paper_data (fun s => s) (fun _ => None) (fun s => s) (fun s => s)
               (fun s => s) (codes "a.json") same_text_twice (Some (codes "paper_a")) in
  match run true, run false with
  | Returned kept, Returned all =>
      map cq_id kept = [codes "1"; codes "3"]
      /\ map cq_id all = [codes "1"; codes "2"; codes "3"]
      /\ map cq_fingerprint all
         = [ Some (codes "paper_a::What is 2+2?");
             Some (codes "paper_a::What is 2+2?");
             Some (codes "paper_a::Name a prime.") ]
  | _, _ => False
  end.
Proof. vm_compute. repeat split; reflexivity. Qed.
End CleanerClaims.

(** * Aggregation: the claim *)

Module VectorizerClaims.
Import Numpy PaperVectorizer VectorizerSpec SimilarityFacts.
Local Open Scope R_scope.

Lemma zip_with_plus_swap (a b c : ndarray) :
  zip_with Rplus a (zip_with Rplus b c) = zip_with Rplus b (zip_with Rplus a c).
Proof.
  revert b c; induction a as [|x a IH]; intros [|y b] [|z c]; simpl; try reflexivity.
  rewrite IH. f_equal. lra.
Qed.

Lemma fold_right_permutation {A B : Type} (f : A -> B -> B) (init : B) (l l' : list A) :
  (forall a b c, f a (f b c) = f b (f a c)) ->
  Permutation l l' -> fold_right f init l = fold_right f init l'.
Proof.
  intros Hf Hp. induction Hp as [|x l l' _ IH|x y l|l l' l'' _ IH1 _ IH2]; simpl.
  - reflexivity.
  - rewrite IH. reflexivity.
  - apply Hf.
  - rewrite IH1. exact IH2.
Qed.

Lemma uniform_spec (rows : list ndarray) :
  uniform rows = true <-> forall r r', In r rows -> In r' rows -> length r = length r'.
Proof.
  unfold uniform. rewrite forallb_forall. split.
  - intros H r r' Hr Hr'. apply H, Nat.eqb_eq in Hr, Hr'. congruence.
  - intros H r Hr. apply Nat.eqb_eq. destruct rows as [|r0 rows]; [destruct Hr|].
    apply H; [exact Hr | left; reflexivity].
Qed.

Lemma uniform_permutation (rows rows' : list ndarray) :
  Permutation rows rows' -> uniform rows = uniform rows'.
Proof.
  intros Hp.
  assert (H : forall l l', Permutation l l' -> uniform l = true -> uniform l' = true).
  { intros l l' Hl Hu. apply uniform_spec. intros r r' Hr Hr'.
    apply (proj1 (uniform_spec l) Hu); eapply Permutation_in; try eassumption;
      symmetry; exact Hl. }
  destruct (uniform rows) eqn:E.
  - symmetry. apply (H rows rows' Hp E).
  - destruct (uniform rows') eqn:E'; [|reflexivity].
    rewrite (H rows' rows (Permutation_sym Hp) E') in E. discriminate.
Qed.

Lemma width_permutation (rows rows' : list ndarray) :
  Permutation rows rows' -> uniform rows = true -> width rows = width rows'.
Proof.
  intros Hp Hu. destruct rows as [|r rows].
  - apply Permutation_nil in Hp. subst. reflexivity.
  - destruct rows' as [|r' rows']; [apply Permutation_sym, Permutation_nil in Hp; discriminate|].
    unfold width. simpl. apply (proj1 (uniform_spec _) Hu); [left; reflexivity|].
    eapply Permutation_in; [symmetry; exact Hp | left; reflexivity].
Qed.

Lemma np_mean_axis0_permutation (rows rows' : list ndarray) :
  Permutation rows rows' -> np_mean_axis0 rows = np_mean_axis0 rows'.
Proof.
  intros Hp. unfold np_mean_axis0, np_array, matrix, ndarray in *.
  fold (uniform rows) (uniform rows'). rewrite <- (uniform_permutation rows rows' Hp).
  destruct (uniform rows) eqn:Hu; [|reflexivity].
  cbn [bind]. unfold sum_axis0.
  rewrite <- (width_permutation rows rows' Hp Hu), <- (Permutation_length Hp).
  rewrite (fold_right_permutation _ _ rows rows' zip_with_plus_swap Hp). reflexivity.
Qed.

(** On embeddings of one length the mean is returned: column sums divided
    by the number of rows. *)
Lemma np_mean_axis0_uniform (rows : list ndarray) :
  rows <> [] -> uniform rows = true ->
  np_mean_axis0 rows
  = Returned (map (fun s => s / INR (length rows)) (sum_axis0 rows)).
Proof.
  intros Hne Hu. unfold np_mean_axis0, np_array. fold (uniform rows). rewrite Hu.
  cbn [bind]. apply mapM_pure. intros s _. apply div_nonzero.
  apply not_0_INR. destruct rows; [contradiction | discriminate].
Qed.

Section Vectorize.
Variable vectorize_text : str -> option ndarray.
Variable vector_size : nat.

Local Abbreviation embed_segments := (embed_segments vectorize_text).
Local Abbreviation question_vector := (question_vector vectorize_text vector_size).

Lemma embed_segments_permutation (segments segments' : list str) :
  Permutation segments segments' ->
  Permutation (embed_segments segments) (embed_segments segments').
Proof. apply Permutation_flat_map. Qed.


End Vectorize.


End VectorizerClaims.

(** * Similarity: further properties *)

Module SimilarityProperties.
Import Numpy Vectorizer Sklearn SimilarityCalculator SimilaritySpec SimilarityFacts PairSpec.
Local Open Scope R_scope.

(** *** Symmetry and self-similarity of the scalar score *)

Lemma cos_entry_comm (a b : ndarray) : cos_entry a b = cos_entry b a.
Proof. rewrite !cos_entry_dot, dot_comm. f_equal. apply Rmult_comm. Qed.

Lemma sum_square_sub_comm (a b : ndarray) :
  np_sum (np_square (zip_with Rminus a b)) = np_sum (np_square (zip_with Rminus b a)).
Proof.
  revert b; induction a as [|x a IH]; intros [|y b]; try reflexivity.
  unfold np_sum, np_square in *. simpl. rewrite IH. ring.
Qed.

Lemma euc_entry_comm (a b : ndarray) : euc_entry a b = euc_entry b a.
Proof. unfold euc_entry. rewrite sum_square_sub_comm. reflexivity. Qed.

Lemma fused_entry_comm (w : R) (a b : ndarray) : fused_entry w a b = fused_entry w b a.
Proof. unfold fused_entry. rewrite cos_entry_comm, euc_entry_comm. reflexivity. Qed.

Lemma fused_similarity_shape_error (a b : ndarray) (w : R) :
  length a <> length b \/ length a = 0%nat ->
  fused_similarity a b w = Raised ValueError.
Proof.
  intros H. unfold fused_similarity, cosine_similarity, check_pairwise_arrays, width.
  cbn [hd].
  destruct (length a =? 0)%nat eqn:Ea; [reflexivity|].
  destruct (length b =? 0)%nat eqn:Eb; [reflexivity|].
  destruct (length a =? length b)%nat eqn:Eab.
  - apply Nat.eqb_eq in Eab. apply Nat.eqb_neq in Ea. destruct H; contradiction.
  - reflexivity.
Qed.

Lemma fused_similarity_cases (a b : ndarray) (w : R) :
  fused_similarity a b w =
  if ((length a =? length b) && negb (length a =? 0))%nat
  then Returned (fused_entry w a b) else Raised ValueError.
Proof.
  destruct (length a =? length b)%nat eqn:Eab; cbn [andb].
  - apply Nat.eqb_eq in Eab. destruct (length a =? 0)%nat eqn:Ea; cbn [negb].
    + apply fused_similarity_shape_error. right. apply Nat.eqb_eq, Ea.
    + apply fused_similarity_ok; [exact Eab|]. apply Nat.eqb_neq in Ea. lia.
  - apply fused_similarity_shape_error. left. apply Nat.eqb_neq, Eab.
Qed.

(** X1.  [fused_similarity] does not depend on the order of its two
    vectors: the same score, or the same shape error. *)
Theorem fused_similarity_symmetric (v_a v_b : ndarray) (w : R) :
  fused_similarity v_a v_b w = fused_similarity v_b v_a w.
Proof.
  rewrite !fused_similarity_cases, fused_entry_comm.
  destruct (length v_a =? length v_b)%nat eqn:E.
  - apply Nat.eqb_eq in E. rewrite E, Nat.eqb_refl. reflexivity.
  - rewrite (Nat.eqb_sym (length v_b) (length v_a)), E. reflexivity.
Qed.

Lemma euc_entry_self (a : ndarray) : euc_entry a a = 0.
Proof.
  unfold euc_entry.
  replace (np_sum (np_square (zip_with Rminus a a))) with 0; [apply sqrt_0|].
  induction a as [|x a IH]; [reflexivity|].
  unfold np_sum, np_square in *. simpl. rewrite <- IH. ring.
Qed.

Lemma cos_entry_self (a : ndarray) : row_norm a <> 0 -> cos_entry a a = 1.
Proof.
  intros Hn. rewrite cos_entry_dot. unfold handle_zeros_in_scale.
  destruct (Req_dec_T (row_norm a) 0) as [|_]; [contradiction|].
  unfold row_norm in *. rewrite sqrt_sqrt by apply np_sum_square_nonneg.
  rewrite np_sum_square_dot in *. field.
  intros H. apply Hn. rewrite H. apply sqrt_0.
Qed.




(** *** Questions, indices and cells *)

Lemma collect_at (pa : list question) (i : nat) (inf : info) (v : ndarray) :
  nth_error (collect_info pa) i = Some inf ->
  nth_error (collect_vectors pa) i = Some v ->
  exists q, In q pa /\ q_vector q = Some v /\ inf = info_of q.
Proof.
  revert i; induction pa as [|q pa IH]; intros i Hi Hv.
  - destruct i; discriminate.
  - unfold collect_info, collect_vectors in *. cbn [flat_map] in *.
    destruct (q_vector q) as [v0|] eqn:Eq; cbn [app] in *.
    + destruct i as [|i]; cbn [nth_error] in *.
      * injection Hi as <-. injection Hv as <-. exists q. repeat split; [left; reflexivity | exact Eq].
      * destruct (IH i Hi Hv) as (q' & Hin & H1 & H2). exists q'. repeat split; try assumption.
        right. exact Hin.
    + destruct (IH i Hi Hv) as (q' & Hin & H1 & H2). exists q'. repeat split; try assumption.
      right. exact Hin.
Qed.

Lemma collect_index (pa : list question) (q : question) (v : ndarray) :
  In q pa -> q_vector q = Some v ->
  exists i, nth_error (collect_info pa) i = Some (info_of q)
            /\ nth_error (collect_vectors pa) i = Some v.
Proof.
  induction pa as [|x pa IH]; intros Hin Hv; [destruct Hin|].
  unfold collect_info, collect_vectors in *. cbn [flat_map].
  destruct Hin as [->|Hin].
  - rewrite Hv. exists 0%nat. split; reflexivity.
  - destruct (IH Hin Hv) as (i & H1 & H2).
    destruct (q_vector x); [exists (S i) | exists i]; split; assumption.
Qed.

Lemma fused_matrix_rows (va vb : list ndarray) (w : R) (F : matrix) (a b : ndarray) :
  fused_matrix va vb w = Returned F -> In a va -> In b vb ->
  fused_similarity a b w = Returned (fused_entry w a b).
Proof.
  intros HF Ha Hb. apply fused_matrix_inv in HF as (_ & HA & HB & Hc).
  apply np_array_rows in HA as [_ HA]. apply np_array_rows in HB as [_ HB].
  apply check_pairwise_widths in Hc as [Hw Hpos].
  apply fused_similarity_ok; rewrite (HA a Ha); [rewrite (HB b Hb); exact Hw | exact Hpos].
Qed.

Lemma fused_similarity_returned (a b : ndarray) (w s : R) :
  fused_similarity a b w = Returned s -> s = fused_entry w a b.
Proof.
  rewrite fused_similarity_cases. destruct (_ && _)%bool; [|discriminate].
  intros [= <-]. reflexivity.
Qed.

(** X3.  What [calculate_similarity] emits, read on the questions: a pair
    is in the list exactly when it joins a question of each paper that has a
    vector, the types agree if [type_sensitive] is set, and the score is the
    scalar [fused_similarity] of the two vectors and reaches the
    threshold.  A question without a vector is in no pair. *)
Theorem emitted_pairs_characterised fa fb pa pb th ts w dd d :
  calculate_similarity fa fb pa pb th ts w dd = Returned d ->
  forall p, In p (similar_pairs_of d) <->
    exists qa qb va vb,
      In qa pa /\ In qb pb /\ q_vector qa = Some va /\ q_vector qb = Some vb /\
      pair_a p = info_of qa /\ pair_b p = info_of qb /\
      (ts = true -> q_type qa = q_type qb) /\
      fused_similarity va vb w = Returned (similarity p) /\
      similarity p >= th.
Proof.
  intros H p. split.
  - intros Hp.
    apply calculate_similarity_pairs in H as [[_ H]|(F & HF & H)]; rewrite H in Hp; [destruct Hp|].
    destruct (emitted_inv pa pb th ts w F p HF Hp)
      as (i & j & a & b & Ha & Hb & Hia & Hib & Hs & Hge & Ht).
    destruct (collect_at pa i _ a Hia Ha) as (qa & Hqa & Hva & Ea).
    destruct (collect_at pb j _ b Hib Hb) as (qb & Hqb & Hvb & Eb).
    exists qa, qb, a, b. repeat split; try assumption.
    + intros Hts. specialize (Ht Hts). rewrite Ea, Eb in Ht. exact Ht.
    + rewrite Hs. apply (fused_matrix_rows _ _ w F a b HF); eapply nth_error_In; eassumption.
  - intros (qa & qb & va & vb & Hqa & Hqb & Hva & Hvb & Ea & Eb & Ht & Hs & Hge).
    destruct (collect_index pa qa va Hqa Hva) as (i & Hia & Hi).
    destruct (collect_index pb qb vb Hqb Hvb) as (j & Hib & Hj).
    apply calculate_similarity_pairs in H as [[H _]|(F & HF & H)].
    { exfalso. destruct H as [H|H]; rewrite H in *; [destruct i | destruct j]; discriminate. }
    rewrite H. pose proof HF as HF'. apply fused_matrix_inv in HF' as (-> & _).
    apply fused_similarity_returned in Hs.
    unfold emitted. apply sort_desc_in. rewrite <- collect_indexed_pairs.
    apply in_map_iff. exists (i, j, p). split; [reflexivity|].
    apply nth_error_nth_some with (d := Info [] [] []) in Hia as [Hi' Hia].
    apply nth_error_nth_some with (d := Info [] [] []) in Hib as [Hj' Hib].
    apply collect_indexed_in. repeat split; [exact Hi' | exact Hj' |].
    rewrite candidate_intro; rewrite ?Hia, ?Hib, ?(get_table _ _ _ i j va vb Hi Hj).
    + left. destruct p as [x y s]. cbn in *. subst. reflexivity.
    + exact Ht.
    + rewrite <- Hs. exact Hge.
Qed.

Lemma emitted_pairs_characterised_witness :
  let p := SimilarPair e2e_info e2e_info 1 in
  In p (similar_pairs_of
          [ ("paper_a", VStr []); ("paper_b", VStr []);
            ("method", VStr [102; 117; 115; 101; 100]%N);
            ("threshold", VFloat (5 / 10)); ("type_sensitive", VBool true);
            ("fusion_weight", VFloat (6 / 10));
            ("total_questions_a", VInt 1); ("total_questions_b", VInt 1);
            ("total_pairs", VInt 1); ("deduplicate", VBool true);
            ("similar_pairs", VPairs [SimilarPair e2e_info e2e_info 1]) ]%string) <->
  exists qa qb va vb,
    In qa [e2e_question] /\ In qb [e2e_question] /\
    q_vector qa = Some va /\ q_vector qb = Some vb /\
    pair_a p = info_of qa /\ pair_b p = info_of qb /\
    (true = true -> q_type qa = q_type qb) /\
    fused_similarity va vb (6 / 10) = Returned (similarity p) /\
    similarity p >= 5 / 10.
Proof.
  apply (emitted_pairs_characterised [] [] [e2e_question] [e2e_question]
           (5 / 10) true (6 / 10) true).
  apply e2e_run. lra.
Defined.

(** *** When [calculate_similarity] returns *)

Lemma np_array_forall (rows : list ndarray) (D : nat) :
  Forall (fun v => length v = D) rows -> np_array rows = Returned rows.
Proof.
  intros H. unfold np_array.
  replace (forallb _ rows) with true; [reflexivity|].
  symmetry. apply forallb_forall. intros r Hr. apply Nat.eqb_eq.
  rewrite List.Forall_forall in H. rewrite (H r Hr).
  destruct rows as [|r0 rows]; [destruct Hr|]. unfold width. cbn [hd].
  symmetry. apply H. left. reflexivity.
Qed.

Lemma fused_matrix_one_dimension (va vb : list ndarray) (w : R) :
  va <> [] -> vb <> [] ->
  ((exists F, fused_matrix va vb w = Returned F) <-> exists D, one_dimension D va vb).
Proof.
  intros Ha Hb. split.
  - intros [F HF]. apply fused_matrix_inv in HF as (_ & HA & HB & Hc).
    apply np_array_rows in HA as [_ HA]. apply np_array_rows in HB as [_ HB].
    apply check_pairwise_widths in Hc as [Hw Hpos].
    exists (width va). repeat split; [exact Hpos | |]; apply List.Forall_forall; intros v Hv.
    + apply HA, Hv.
    + rewrite Hw. apply HB, Hv.
  - intros (D & Hpos & HA & HB). exists (table (fused_entry w) va vb).
    apply fused_matrix_ok; try (eapply np_array_forall; eassumption).
    destruct va as [|a va]; [contradiction|]. destruct vb as [|b vb]; [contradiction|].
    apply Forall_cons_iff in HA as [HA _]. apply Forall_cons_iff in HB as [HB _].
    unfold check_pairwise_arrays, width. cbn [hd]. rewrite HA, HB.
    destruct (D =? 0)%nat eqn:E; [apply Nat.eqb_eq in E; lia|].
    cbn [orb]. rewrite Nat.eqb_refl. reflexivity.
Qed.

Lemma calculate_similarity_shaped fa fb pa pb th ts w dd :
  (exists d, calculate_similarity fa fb pa pb th ts w dd = Returned d)
  <-> (collect_vectors pa = [] \/ collect_vectors pb = []
       \/ exists D, one_dimension D (collect_vectors pa) (collect_vectors pb)).
Proof.
  split.
  - intros [d H].
    destruct (collect_vectors pa) as [|a va] eqn:Ea; [left; reflexivity|].
    destruct (collect_vectors pb) as [|b vb] eqn:Eb; [right; left; reflexivity|].
    right. right. rewrite <- Ea, <- Eb.
    apply (fused_matrix_one_dimension _ _ w); [rewrite Ea | rewrite Eb |]; try discriminate.
    rewrite calculate_similarity_nonempty in H by (rewrite ?Ea, ?Eb; discriminate).
    destruct (fused_matrix _ _ w) as [F|] eqn:HF; [exists F; reflexivity | discriminate].
  - intros H.
    destruct (collect_vectors pa) as [|a va] eqn:Ea.
    { eexists. apply calculate_similarity_empty. left. exact Ea. }
    destruct (collect_vectors pb) as [|b vb] eqn:Eb.
    { eexists. apply calculate_similarity_empty. right. exact Eb. }
    destruct H as [H|[H|H]]; try discriminate.
    rewrite <- Ea, <- Eb in H.
    apply (fused_matrix_one_dimension _ _ w) in H as [F HF];
      [|rewrite Ea; discriminate | rewrite Eb; discriminate].
    rewrite calculate_similarity_nonempty by (rewrite ?Ea, ?Eb; discriminate).
    rewrite HF. eexists. reflexivity.
Qed.

(** X4.  [calculate_similarity] returns exactly when a side has no vector or
    all vectors of both sides have one positive length; in every other case
    it raises the shape error. *)
Theorem calculate_similarity_returns_iff fa fb pa pb th ts w dd :
  let shaped := collect_vectors pa = [] \/ collect_vectors pb = []
                \/ exists D, one_dimension D (collect_vectors pa) (collect_vectors pb) in
  ((exists d, calculate_similarity fa fb pa pb th ts w dd = Returned d) <-> shaped)
  /\ (~ shaped -> calculate_similarity fa fb pa pb th ts w dd = Raised ValueError).
Proof.
  intros shaped. split; [apply calculate_similarity_shaped|].
  intros Hn.
  destruct (calculate_similarity fa fb pa pb th ts w dd) as [d|e] eqn:H.
  - exfalso. apply Hn. apply (calculate_similarity_shaped fa fb pa pb th ts w dd).
    exists d. exact H.
  - f_equal. eapply calculate_similarity_raises, H.
Qed.

(** Vectors of two lengths on one side. *)
Example mixed_dimensions_raise :
  calculate_similarity [] []
    [Question [49]%N [] [] (Some [1; 0]); Question [50]%N [] [] (Some [1])]
    [Question [49]%N [] [] (Some [1; 0])] (7 / 10) true (6 / 10) true
  = Raised ValueError.
Proof.
  rewrite calculate_similarity_nonempty by discriminate. reflexivity.
Qed.

(** *** The tests of the loop as filters *)

Lemma insert_desc_head {A : Type} (key : A -> R) (x : A) (l : list A) :
  Forall (fun z => key z <= key x) l -> insert_desc key x l = x :: l.
Proof.
  intros H. destruct l as [|y l]; [reflexivity|].
  apply Forall_cons_iff in H as [H _]. cbn [insert_desc].
  destruct (Rlt_dec (key x) (key y)); [lra | reflexivity].
Qed.

Lemma insert_desc_descending {A : Type} (key : A -> R) (x : A) (l : list A) :
  descending key l -> descending key (insert_desc key x l).
Proof.
  unfold descending. induction l as [|y l IH]; intros Hs; cbn [insert_desc].
  - repeat constructor.
  - apply StronglySorted_inv in Hs as [Hs Hy].
    destruct (Rlt_dec (key x) (key y)) as [Hlt|Hge].
    + constructor; [apply IH, Hs|].
      apply (Permutation_Forall (x := x :: l)); [symmetry; apply insert_desc_perm|].
      constructor; [lra | exact Hy].
    + constructor; [constructor; assumption|].
      constructor; [lra|].
      eapply List.Forall_impl; [|exact Hy]. cbn. intros z Hz. lra.
Qed.

Lemma sort_desc_descending {A : Type} (key : A -> R) (l : list A) :
  descending key (sort_desc key l).
Proof.
  induction l as [|x l IH]; cbn [sort_desc fold_right]; [constructor|].
  apply insert_desc_descending, IH.
Qed.

Lemma insert_desc_filter {A : Type} (key : A -> R) (P : A -> bool) (x : A) (l : list A) :
  descending key l ->
  List.filter P (insert_desc key x l)
  = if P x then insert_desc key x (List.filter P l) else List.filter P l.
Proof.
  unfold descending. induction l as [|y l IH]; intros Hs; cbn [insert_desc List.filter].
  - destruct (P x); reflexivity.
  - apply StronglySorted_inv in Hs as [Hs Hy].
    destruct (Rlt_dec (key x) (key y)) as [Hlt|Hge]; cbn [List.filter].
    + rewrite (IH Hs). destruct (P y) eqn:Ey; destruct (P x) eqn:Ex; try reflexivity.
      cbn [insert_desc]. destruct (Rlt_dec (key x) (key y)); [reflexivity | contradiction].
    + destruct (P x) eqn:Ex; destruct (P y) eqn:Ey; try reflexivity.
      * cbn [insert_desc]. destruct (Rlt_dec (key x) (key y)); [contradiction | reflexivity].
      * symmetry. apply insert_desc_head.
        apply List.Forall_forall. intros z Hz. apply filter_In in Hz as [Hz _].
        rewrite List.Forall_forall in Hy. specialize (Hy z Hz). cbn in Hy. lra.
Qed.

Lemma sort_desc_filter {A : Type} (key : A -> R) (P : A -> bool) (l : list A) :
  List.filter P (sort_desc key l) = sort_desc key (List.filter P l).
Proof.
  induction l as [|x l IH]; [reflexivity|].
  cbn [sort_desc fold_right List.filter].
  rewrite insert_desc_filter by apply sort_desc_descending.
  fold (sort_desc key l). rewrite IH. destruct (P x); reflexivity.
Qed.

Lemma filter_flat_map {A B : Type} (P : B -> bool) (g : A -> list B) (l : list A) :
  List.filter P (flat_map g l) = flat_map (fun x => List.filter P (g x)) l.
Proof.
  induction l as [|x l IH]; [reflexivity|].
  cbn [flat_map]. rewrite List.filter_app, IH. reflexivity.
Qed.

Lemma collect_pairs_filter (P : similar_pair -> bool) ts th ts' th' ia ib F :
  (forall i j, candidate ts' th' ia ib F i j = List.filter P (candidate ts th ia ib F i j)) ->
  collect_pairs ts' th' ia ib F = List.filter P (collect_pairs ts th ia ib F).
Proof.
  intros H. unfold collect_pairs. rewrite filter_flat_map.
  apply flat_map_ext. intros i. rewrite filter_flat_map.
  apply flat_map_ext. intros j. apply H.
Qed.

Lemma candidate_threshold ts th th' ia ib F i j :
  th <= th' ->
  candidate ts th' ia ib F i j = List.filter (reaches th') (candidate ts th ia ib F i j).
Proof.
  intros Hle. unfold candidate. destruct (ts && _)%bool; [reflexivity|].
  destruct (Rge_dec (get F i j) th') as [H'|H'];
    destruct (Rge_dec (get F i j) th) as [H|H]; cbn [List.filter]; unfold reaches; cbn.
  - destruct (Rge_dec (get F i j) th'); [reflexivity | contradiction].
  - lra.
  - destruct (Rge_dec (get F i j) th'); [contradiction | reflexivity].
  - reflexivity.
Qed.

Lemma candidate_type_filter th ia ib F i j :
  candidate true th ia ib F i j = List.filter same_type (candidate false th ia ib F i j).
Proof.
  unfold candidate, type_differs. cbn [andb].
  destruct (Rge_dec (get F i j) th) as [H|H]; cbn [List.filter]; unfold same_type; cbn;
    destruct (bool_decide _); reflexivity.
Qed.

(** X5.  Raising the threshold only removes pairs: the list for the higher
    threshold is the list for the lower one without the pairs below the
    higher threshold, in the same order. *)
Theorem higher_threshold_filters fa fb pa pb th th' ts w dd d :
  th <= th' ->
  calculate_similarity fa fb pa pb th ts w dd = Returned d ->
  exists d', calculate_similarity fa fb pa pb th' ts w dd = Returned d'
             /\ similar_pairs_of d' = List.filter (reaches th') (similar_pairs_of d).
Proof.
  intros Hle H.
  destruct (collect_vectors pa) as [|a va] eqn:Ea.
  { rewrite calculate_similarity_empty in * by (left; exact Ea). injection H as <-.
    eexists. split; reflexivity. }
  destruct (collect_vectors pb) as [|b vb] eqn:Eb.
  { rewrite calculate_similarity_empty in * by (right; exact Eb). injection H as <-.
    eexists. split; reflexivity. }
  rewrite calculate_similarity_nonempty in * by (rewrite ?Ea, ?Eb; discriminate).
  destruct (fused_matrix _ _ w) as [F|]; [|discriminate].
  cbn [bind] in *. injection H as <-. eexists. split; [reflexivity|].
  unfold similar_pairs_of. cbn. unfold emitted.
  rewrite sort_desc_filter. f_equal.
  apply collect_pairs_filter. intros i j. apply candidate_threshold, Hle.
Qed.

Lemma higher_threshold_filters_witness :
  exists d', calculate_similarity [] [] [e2e_question] [e2e_question] 1 true (6 / 10) true
             = Returned d'
             /\ similar_pairs_of d'
                = List.filter (reaches 1)
                    (similar_pairs_of
                       [ ("paper_a", VStr []); ("paper_b", VStr []);
                         ("method", VStr [102; 117; 115; 101; 100]%N);
                         ("threshold", VFloat (5 / 10)); ("type_sensitive", VBool true);
                         ("fusion_weight", VFloat (6 / 10));
                         ("total_questions_a", VInt 1); ("total_questions_b", VInt 1);
                         ("total_pairs", VInt 1); ("deduplicate", VBool true);
                         ("similar_pairs", VPairs [SimilarPair e2e_info e2e_info 1]) ]%string).
Proof.
  apply (higher_threshold_filters [] [] [e2e_question] [e2e_question]
           (5 / 10) 1 true (6 / 10) true); [lra|].
  apply e2e_run. lra.
Defined.

(** X6.  Type-sensitive matching only removes pairs: its list is the list
    of the type-insensitive run without the pairs of two types, in the same
    order. *)
Theorem type_sensitive_filters fa fb pa pb th w dd d :
  calculate_similarity fa fb pa pb th false w dd = Returned d ->
  exists d', calculate_similarity fa fb pa pb th true w dd = Returned d'
             /\ similar_pairs_of d' = List.filter same_type (similar_pairs_of d).
Proof.
  intros H.
  destruct (collect_vectors pa) as [|a va] eqn:Ea.
  { rewrite calculate_similarity_empty in * by (left; exact Ea). injection H as <-.
    eexists. split; reflexivity. }
  destruct (collect_vectors pb) as [|b vb] eqn:Eb.
  { rewrite calculate_similarity_empty in * by (right; exact Eb). injection H as <-.
    eexists. split; reflexivity. }
  rewrite calculate_similarity_nonempty in * by (rewrite ?Ea, ?Eb; discriminate).
  destruct (fused_matrix _ _ w) as [F|]; [|discriminate].
  cbn [bind] in *. injection H as <-. eexists. split; [reflexivity|].
  unfold similar_pairs_of. cbn. unfold emitted.
  rewrite sort_desc_filter. f_equal.
  apply collect_pairs_filter. intros i j. apply candidate_type_filter.
Qed.

Lemma type_sensitive_filters_witness :
  exists d', calculate_similarity [] [] [opp_a] [opp_b] (-1) true 1 true = Returned d'
             /\ similar_pairs_of d'
                = List.filter same_type
                    (similar_pairs_of
                       [ ("paper_a", VStr []); ("paper_b", VStr []);
                         ("method", VStr [102; 117; 115; 101; 100]%N);
                         ("threshold", VFloat (-1)); ("type_sensitive", VBool false);
                         ("fusion_weight", VFloat 1);
                         ("total_questions_a", VInt 1); ("total_questions_b", VInt 1);
                         ("total_pairs", VInt 1); ("deduplicate", VBool true);
                         ("similar_pairs",
                          VPairs [SimilarPair (Info [49]%N [77; 67]%N [97]%N)
                                              (Info [49]%N [77; 67]%N [98]%N) (-1)]) ]%string).
Proof.
  apply (type_sensitive_filters [] [] [opp_a] [opp_b] (-1) 1 true). exact opp_run.
Defined.

(** *** Exchanging the two papers *)

Lemma flat_map_nil {A B : Type} (l : list A) :
  flat_map (fun _ : A => @nil B) l = [].
Proof. induction l as [|x l IH]; [reflexivity | exact IH]. Qed.

Lemma flat_map_app_perm {A B : Type} (g h : A -> list B) (l : list A) :
  Permutation (flat_map (fun x => g x ++ h x) l) (flat_map g l ++ flat_map h l).
Proof.
  induction l as [|x l IH]; [constructor|].
  cbn [flat_map]. rewrite IH.
  rewrite <- !app_assoc. apply Permutation_app_head.
  rewrite !app_assoc. apply Permutation_app_tail. apply Permutation_app_comm.
Qed.

Lemma flat_map_swap {A B C : Type} (f : A -> B -> list C) (la : list A) (lb : list B) :
  Permutation (flat_map (fun i => flat_map (fun j => f i j) lb) la)
              (flat_map (fun j => flat_map (fun i => f i j) la) lb).
Proof.
  induction la as [|a la IH]; cbn [flat_map].
  - rewrite flat_map_nil. constructor.
  - rewrite IH. symmetry. apply (flat_map_app_perm (f a)).
Qed.

Lemma check_pairwise_swap (X Y : matrix) :
  check_pairwise_arrays X Y = Returned tt -> check_pairwise_arrays Y X = Returned tt.
Proof.
  unfold check_pairwise_arrays. destruct X as [|x X], Y as [|y Y]; try discriminate.
  rewrite (Nat.eqb_sym (width (y :: Y)) (width (x :: X))).
  destruct (width (x :: X) =? 0)%nat, (width (y :: Y) =? 0)%nat; cbn [orb]; try discriminate.
  intros H; exact H.
Qed.

Lemma fused_matrix_swap (va vb : list ndarray) (w : R) (F : matrix) :
  fused_matrix va vb w = Returned F ->
  fused_matrix vb va w = Returned (table (fused_entry w) vb va).
Proof.
  intros H. apply fused_matrix_inv in H as (_ & HA & HB & Hc).
  apply fused_matrix_ok; [exact HB | exact HA | apply check_pairwise_swap, Hc].
Qed.

Lemma nth_in_range {A : Type} (l : list A) (i : nat) (d : A) :
  (i < length l)%nat -> nth_error l i = Some (nth i l d).
Proof. intros H. apply nth_error_nth'. exact H. Qed.

Lemma candidate_swap ts th ia ib F F' i j :
  get F' j i = get F i j ->
  map swap_sides (candidate ts th ia ib F i j) = candidate ts th ib ia F' j i.
Proof.
  intros Hg. unfold candidate, type_differs. rewrite Hg.
  set (a := nth i ia _). set (b := nth j ib _).
  assert (Hd : bool_decide (info_type b = info_type a)
               = bool_decide (info_type a = info_type b)).
  { apply bool_decide_ext. split; intros H; symmetry; exact H. }
  rewrite Hd.
  destruct (ts && _)%bool; [reflexivity|].
  destruct (Rge_dec (get F i j) th); reflexivity.
Qed.

(** X7.  Exchanging the two papers gives the same pairs with their sides
    exchanged, up to the order of the list. *)
Theorem exchanged_papers_same_pairs fa fb pa pb th ts w dd d :
  calculate_similarity fa fb pa pb th ts w dd = Returned d ->
  exists d', calculate_similarity fb fa pb pa th ts w dd = Returned d'
             /\ Permutation (map swap_sides (similar_pairs_of d)) (similar_pairs_of d').
Proof.
  intros H. apply calculate_similarity_pairs in H as [[He Hnil]|(F & HF & Hp)].
  { rewrite Hnil. eexists. split; [apply calculate_similarity_empty; tauto|]. constructor. }
  rewrite Hp. pose proof (fused_matrix_swap _ _ _ _ HF) as HF'.
  apply fused_matrix_inv in HF as (-> & _ & _ & Hc).
  assert (Ha : collect_vectors pa <> []).
  { intros E. rewrite E in Hc. discriminate. }
  assert (Hb : collect_vectors pb <> []).
  { intros E. rewrite E in Hc. destruct (collect_vectors pa); discriminate. }
  rewrite calculate_similarity_nonempty, HF' by assumption.
  eexists. split; [reflexivity|].
  unfold similar_pairs_of. cbn [dict_get String.eqb Ascii.eqb Bool.eqb]. unfold emitted.
  rewrite !sort_desc_perm. unfold collect_pairs.
  rewrite (flat_map_swap
             (fun j i => candidate ts th (collect_info pb) (collect_info pa)
                           (table (fused_entry w) (collect_vectors pb) (collect_vectors pa)) j i)).
  rewrite !List.flat_map_concat_map, concat_map, map_map.
  apply Permutation_refl'. f_equal. apply map_ext_in. intros i Hi.
  rewrite !List.flat_map_concat_map, concat_map, map_map.
  f_equal. apply map_ext_in. intros j Hj.
  apply in_seq in Hi, Hj. rewrite <- collect_lengths in Hi, Hj.
  apply candidate_swap.
  assert (Hi' : nth_error (collect_vectors pa) i = Some (nth i (collect_vectors pa) []))
    by (apply nth_in_range; lia).
  assert (Hj' : nth_error (collect_vectors pb) j = Some (nth j (collect_vectors pb) []))
    by (apply nth_in_range; lia).
  rewrite (get_table _ _ _ _ _ _ _ Hj' Hi'), (get_table _ _ _ _ _ _ _ Hi' Hj').
  apply fused_entry_comm.
Qed.

Lemma exchanged_papers_same_pairs_witness :
  exists d', calculate_similarity [] [] [opp_b] [opp_a] (-1) false 1 true = Returned d'
             /\ Permutation
                  (map swap_sides
                     (similar_pairs_of
                        [ ("paper_a", VStr []); ("paper_b", VStr []);
                          ("method", VStr [102; 117; 115; 101; 100]%N);
                          ("threshold", VFloat (-1)); ("type_sensitive", VBool false);
                          ("fusion_weight", VFloat 1);
                          ("total_questions_a", VInt 1); ("total_questions_b", VInt 1);
                          ("total_pairs", VInt 1); ("deduplicate", VBool true);
                          ("similar_pairs",
                           VPairs [SimilarPair (Info [49]%N [77; 67]%N [97]%N)
                                               (Info [49]%N [77; 67]%N [98]%N) (-1)]) ]%string))
                  (similar_pairs_of d').
Proof.
  apply (exchanged_papers_same_pairs [] [] [opp_a] [opp_b] (-1) false 1 true). exact opp_run.
Defined.

End SimilarityProperties.

(** * The distance: properties *)

Module DistanceProperties.
Import Numpy Vectorizer Sklearn SimilarityCalculator SimilaritySpec SimilarityFacts.
Import SimilarityProperties.
Local Open Scope R_scope.

Lemma sum_square_broadcast (x : R) (b : ndarray) :
  np_sum (np_square (map (fun y => x - y) b)) = np_sum (np_square (map (fun y => y - x) b)).
Proof.
  induction b as [|y b IH]; [reflexivity|].
  unfold np_sum, np_square in *. simpl. rewrite IH. ring.
Qed.

(** X8.  The distance does not depend on the order of its arguments, in
    every case of the subtraction: equal lengths, a one-element array
    stretched over the other, or the shape error. *)
Theorem euclidean_distance_symmetric (v1 v2 : ndarray) :
  euclidean_distance v1 v2 = euclidean_distance v2 v1.
Proof.
  unfold euclidean_distance, np_sub.
  rewrite (Nat.eqb_sym (length v2) (length v1)).
  destruct (length v1 =? length v2)%nat eqn:E.
  { cbn [bind]. rewrite sum_square_sub_comm. reflexivity. }
  destruct (length v1 =? 1)%nat eqn:E1, (length v2 =? 1)%nat eqn:E2; cbn [bind];
    try reflexivity.
  - apply Nat.eqb_eq in E1, E2. apply Nat.eqb_neq in E. lia.
  - rewrite sum_square_broadcast. reflexivity.
  - rewrite <- sum_square_broadcast. reflexivity.
Qed.

Lemma sum_square_zero (a b : ndarray) :
  length a = length b -> np_sum (np_square (zip_with Rminus a b)) = 0 -> a = b.
Proof.
  revert b; induction a as [|x a IH]; intros [|y b] Hl H; try discriminate; [reflexivity|].
  injection Hl as Hl.
  pose proof (np_sum_square_nonneg (zip_with Rminus a b)) as Hn.
  change (np_sum (np_square (zip_with Rminus (x :: a) (y :: b))))
    with ((x - y) * (x - y) + np_sum (np_square (zip_with Rminus a b))) in H.
  set (r := np_sum (np_square (zip_with Rminus a b))) in *.
  pose proof (Rle_0_sqr (x - y)) as Hs. unfold Rsqr in Hs.
  assert (Hx : (x - y) * (x - y) = 0) by lra.
  assert (Hr : r = 0) by lra.
  f_equal; [|apply IH; assumption].
  apply Rmult_integral in Hx. lra.
Qed.



Lemma dot_sub_expand (a b c : ndarray) :
  length a = length b -> length b = length c ->
  dot (zip_with Rminus a c) (zip_with Rminus a c)
  = dot (zip_with Rminus a b) (zip_with Rminus a b)
    + 2 * dot (zip_with Rminus a b) (zip_with Rminus b c)
    + dot (zip_with Rminus b c) (zip_with Rminus b c).
Proof.
  revert b c; induction a as [|x a IH]; intros [|y b] [|z c] Hab Hbc; try discriminate.
  - simpl. ring.
  - injection Hab as Hab. injection Hbc as Hbc. simpl. rewrite (IH b c Hab Hbc). ring.
Qed.

Lemma euc_entry_triangle (a b c : ndarray) :
  length a = length b -> length b = length c ->
  euc_entry a c <= euc_entry a b + euc_entry b c.
Proof.
  intros Hab Hbc. unfold euc_entry. rewrite !np_sum_square_dot.
  rewrite (dot_sub_expand a b c Hab Hbc).
  set (u := zip_with Rminus a b). set (v := zip_with Rminus b c).
  pose proof (cauchy_schwarz u v) as Hcs.
  pose proof (np_sum_square_nonneg u) as Hu. rewrite np_sum_square_dot in Hu.
  pose proof (np_sum_square_nonneg v) as Hv. rewrite np_sum_square_dot in Hv.
  set (U := dot u u) in *. set (V := dot v v) in *. set (p := dot u v) in *.
  clearbody U V p.
  pose proof (sqrt_pos U) as HsU. pose proof (sqrt_pos V) as HsV.
  pose proof (sqrt_sqrt U Hu) as HU. pose proof (sqrt_sqrt V Hv) as HV.
  set (su := sqrt U) in *. set (sv := sqrt V) in *. clearbody su sv.
  assert (Hp : p <= su * sv).
  { destruct (Rle_dec p 0) as [Hneg|Hpos].
    - pose proof (Rmult_le_pos su sv HsU HsV). lra.
    - apply Rnot_le_lt in Hpos.
      assert (Hsq : p * p <= (su * sv) * (su * sv)).
      { replace ((su * sv) * (su * sv)) with ((su * su) * (sv * sv)) by ring.
        rewrite HU, HV. exact Hcs. }
      pose proof (Rmult_le_pos su sv HsU HsV) as Hnn.
      destruct (Rle_dec p (su * sv)) as [H|H]; [exact H|].
      apply Rnot_le_lt in H. exfalso.
      assert ((su * sv) * (su * sv) < p * p); [|lra].
      apply Rle_lt_trans with (su * sv * p).
      + apply Rmult_le_compat_l; lra.
      + apply Rmult_lt_compat_r; lra. }
  rewrite <- (sqrt_square (su + sv)) by lra.
  apply sqrt_le_1_alt. rewrite <- HU, <- HV. nra.
Qed.



End DistanceProperties.

(** * Stripped strings: lemmas *)

Module StripFacts.
Import Py DataCleaner CleanerSpec StringFacts CleanHtmlFacts StripSpec.
Local Open Scope N_scope.

Lemma drop_while_starts (s : str) : starts_visible (drop_while isspace s).
Proof.
  induction s as [|c s IH]; [exact I|].
  cbn [drop_while]. destruct (isspace c) eqn:E; [exact IH | exact E].
Qed.

Lemma drop_while_id (s : str) : starts_visible s -> drop_while isspace s = s.
Proof. destruct s as [|c s]; [reflexivity|]. cbn. intros ->. reflexivity. Qed.

Lemma drop_while_snoc (l : str) (c : N) :
  isspace c = false -> drop_while isspace (l ++ [c]) = drop_while isspace l ++ [c].
Proof.
  intros E. induction l as [|x l IH]; cbn [app drop_while].
  - rewrite E. reflexivity.
  - destruct (isspace x); [exact IH | reflexivity].
Qed.

Lemma rstrip_cons (c : N) (s : str) :
  isspace c = false -> rstrip (c :: s) = c :: rstrip s.
Proof.
  intros E. unfold rstrip. cbn [rev].
  rewrite (drop_while_snoc _ _ E), rev_app_distr. reflexivity.
Qed.

Lemma strip_starts (s : str) : starts_visible (strip s).
Proof.
  unfold strip, lstrip. pose proof (drop_while_starts s) as H.
  destruct (drop_while isspace s) as [|c t]; [exact I|].
  cbn in H. rewrite (rstrip_cons c t H). exact H.
Qed.

Lemma strip_ends (s : str) : ends_visible (strip s).
Proof.
  unfold ends_visible, strip, rstrip. rewrite rev_involutive. apply drop_while_starts.
Qed.

Lemma strip_id (s : str) : starts_visible s -> ends_visible s -> strip s = s.
Proof.
  intros Hs He. unfold strip, lstrip, rstrip.
  rewrite (drop_while_id s Hs), (drop_while_id (rev s) He). apply rev_involutive.
Qed.

Lemma strip_idem (s : str) : strip (strip s) = strip s.
Proof. apply strip_id; [apply strip_starts | apply strip_ends]. Qed.

Lemma stripped_inv (s : str) : strip s = s -> starts_visible s /\ ends_visible s.
Proof. intros <-. split; [apply strip_starts | apply strip_ends]. Qed.

Lemma strip_nonempty (s : str) : visible s <> [] -> strip s <> [].
Proof. intros H E. apply H. rewrite <- visible_strip, E. reflexivity. Qed.

Lemma strip_blank (s : str) : visible s = [] -> strip s = [].
Proof.
  intros H. pose proof (strip_starts s) as Hs. rewrite <- visible_strip in H.
  destruct (strip s) as [|c t]; [reflexivity|].
  cbn in Hs. rewrite visible_cons, Hs in H. discriminate.
Qed.

Lemma ends_visible_app (a b : str) : b <> [] -> ends_visible b -> ends_visible (a ++ b).
Proof.
  unfold ends_visible. intros Hne H. rewrite rev_app_distr.
  destruct (rev b) as [|c r] eqn:E; [|exact H].
  exfalso. apply Hne. rewrite <- (rev_involutive b), E. reflexivity.
Qed.

Lemma ends_visible_app_inv (a b : str) : b <> [] -> ends_visible (a ++ b) -> ends_visible b.
Proof.
  unfold ends_visible. intros Hne H. rewrite rev_app_distr in H.
  destruct (rev b) as [|c r] eqn:E; [exact I | exact H].
Qed.

Lemma ends_visible_snoc (a : str) (c : N) : isspace c = false -> ends_visible (a ++ [c]).
Proof. intros E. apply ends_visible_app; [discriminate | exact E]. Qed.

Lemma ends_visible_nonblank (s : str) : s <> [] -> ends_visible s -> visible s <> [].
Proof.
  unfold ends_visible. intros Hne H E.
  destruct (rev s) as [|c r] eqn:Er.
  - apply Hne. rewrite <- (rev_involutive s), Er. reflexivity.
  - cbn in H. pose proof (visible_rev s) as Hv. rewrite Er, E, visible_cons, H in Hv.
    discriminate.
Qed.

Lemma is_terminal_visible (c : N) : is_terminal c = true -> isspace c = false.
Proof.
  unfold is_terminal. intros H.
  repeat (apply orb_true_iff in H as [H|H]); apply N.eqb_eq in H; subst c; reflexivity.
Qed.

Lemma split_on_no_sep (sep : N) (s p : str) : In p (split_on sep s) -> ~ In sep p.
Proof.
  revert p; induction s as [|c s IH]; intros p Hp; cbn [split_on] in Hp.
  - destruct Hp as [<-|[]]. intros [].
  - destruct (c =? sep) eqn:E.
    + destruct Hp as [<-|Hp]; [intros [] | apply IH, Hp].
    + destruct (split_on sep s) as [|h t] eqn:Es.
      * destruct Hp as [<-|[]]. intros [H|[]]. subst. rewrite N.eqb_refl in E. discriminate.
      * destruct Hp as [<-|Hp].
        -- intros [H|H]; [subst; rewrite N.eqb_refl in E; discriminate|].
           apply (IH h); [left; reflexivity | exact H].
        -- apply IH. right. exact Hp.
Qed.

Lemma split_on_single (sep : N) (s : str) : ~ In sep s -> split_on sep s = [s].
Proof.
  induction s as [|c s IH]; intros H; [reflexivity|].
  cbn [split_on]. destruct (c =? sep) eqn:E.
  - exfalso. apply H. left. apply N.eqb_eq, E.
  - rewrite IH; [reflexivity|]. intros Hs. apply H. right. exact Hs.
Qed.

(** *** Joined words *)

Lemma join_words_in (l : list str) (c : N) :
  In c (join [32] l) -> c = 32 \/ exists w, In w l /\ In c w.
Proof.
  induction l as [|x l IH]; intros H; [destruct H|].
  cbn [join] in H. destruct l as [|y l].
  - right. exists x. split; [left; reflexivity | exact H].
  - apply in_app_or in H as [H|H]; [right; exists x; split; [left; reflexivity | exact H]|].
    apply in_app_or in H as [[<-|[]]|H]; [left; reflexivity|].
    destruct (IH H) as [->|(w & Hw & Hc)]; [left; reflexivity|].
    right. exists w. split; [right; exact Hw | exact Hc].
Qed.

Lemma word_ends (w : str) : word w -> starts_visible w /\ ends_visible w.
Proof.
  intros [Hne Hw]. rewrite List.Forall_forall in Hw. split.
  - destruct w as [|c w]; [exact I|]. apply Hw. left. reflexivity.
  - unfold ends_visible. destruct (rev w) as [|c r] eqn:E; [exact I|].
    apply Hw, in_rev. rewrite E. left. reflexivity.
Qed.

Lemma join_words (l : list str) :
  l <> [] -> Forall word l ->
  join [32] l <> [] /\ strip (join [32] l) = join [32] l /\ ~ In 10 (join [32] l).
Proof.
  intros Hne Hl.
  assert (Hs : starts_visible (join [32] l) /\ join [32] l <> []).
  { destruct l as [|w l]; [contradiction|].
    apply Forall_cons_iff in Hl as [[Hw Hv] _].
    destruct w as [|c w]; [contradiction|].
    apply Forall_cons_iff in Hv as [Hc _].
    cbn [join]. destruct l; cbn; split; try exact Hc; discriminate. }
  assert (He : ends_visible (join [32] l)).
  { clear Hs. induction l as [|w l IH]; [contradiction|].
    apply Forall_cons_iff in Hl as [Hw Hl]. cbn [join]. destruct l as [|w2 l].
    - apply word_ends, Hw.
    - assert (Hj : join [32] (w2 :: l) <> []).
      { apply Forall_cons_iff in Hl as [[Hw2 _] _].
        cbn [join]. destruct w2; [contradiction|]. destruct l; discriminate. }
      apply ends_visible_app; [destruct ([32] ++ join [32] (w2 :: l)) eqn:E; discriminate|].
      apply ends_visible_app; [exact Hj|]. apply IH; [discriminate | exact Hl]. }
  destruct Hs as [Hs Hn]. split; [exact Hn|]. split; [apply strip_id; assumption|].
  intros H. apply join_words_in in H as [H|(w & Hw & Hc)]; [discriminate|].
  rewrite List.Forall_forall in Hl. destruct (Hl w Hw) as [_ Hv].
  rewrite List.Forall_forall in Hv. specialize (Hv _ Hc). discriminate.
Qed.

Lemma pack_words_joined (m : Z) (frag : list str) (cl : Z) (words : list str) (s : str) :
  Forall word (frag ++ words) ->
  In s (pack_words m frag cl words) ->
  exists l, l <> [] /\ Forall word l /\ s = join [32] l.
Proof.
  revert frag cl; induction words as [|w words IH]; intros frag cl Hw Hs.
  - cbn [pack_words] in Hs. rewrite app_nil_r in Hw.
    destruct frag as [|x frag]; [destruct Hs|]. destruct Hs as [<-|[]].
    exists (x :: frag). repeat split; [discriminate | exact Hw].
  - cbn [pack_words] in Hs.
    assert (Hw' : Forall word ((frag ++ [w]) ++ words)) by (rewrite <- app_assoc; exact Hw).
    apply List.Forall_app in Hw as [Hf Hws].
    destruct (_ && _)%bool eqn:E.
    + destruct Hs as [<-|Hs].
      * exists frag. repeat split; [|exact Hf].
        apply andb_true_iff in E as [_ E]. destruct frag; [discriminate E | discriminate].
      * apply (IH [w] _ Hws Hs).
    + apply (IH _ _ Hw' Hs).
Qed.

(** *** The character loop *)

Lemma punctuation_segments_tidy (m : Z) (cur para seg : str) :
  ends_visible (cur ++ para) ->
  In seg (punctuation_segments m cur para) -> seg <> [] /\ strip seg = seg.
Proof.
  revert cur; induction para as [|c para IH]; intros cur He Hs.
  - cbn [punctuation_segments] in Hs. rewrite app_nil_r in He.
    destruct cur as [|x cur]; [destruct Hs|]. destruct Hs as [<-|[]].
    split; [|apply strip_idem].
    apply strip_nonempty, ends_visible_nonblank; [discriminate | exact He].
  - cbn [punctuation_segments] in Hs.
    replace (cur ++ c :: para) with ((cur ++ [c]) ++ para) in He
      by (rewrite <- app_assoc; reflexivity).
    destruct (is_terminal c && _)%bool eqn:E.
    + apply andb_true_iff in E as [E _]. apply is_terminal_visible in E.
      destruct Hs as [<-|Hs].
      * split; [|apply strip_idem].
        apply strip_nonempty, ends_visible_nonblank;
          [destruct cur; discriminate | apply ends_visible_snoc, E].
      * apply (IH []); [|exact Hs]. cbn [app].
        destruct para as [|c' para]; [exact I|].
        apply (ends_visible_app_inv (cur ++ [c])); [discriminate | exact He].
    + apply (IH (cur ++ [c])); assumption.
Qed.

Lemma collapse_from_spaces (in_run : bool) (s : str) (c : N) :
  In c (collapse_from in_run s) -> isspace c = true -> c = 32.
Proof.
  revert in_run; induction s as [|x s IH]; intros in_run H Hc; [destruct H|].
  cbn [collapse_from] in H. destruct (isspace x) eqn:Ex.
  - destruct in_run.
    + apply (IH true); assumption.
    + destruct H as [<-|H]; [reflexivity | apply (IH true); assumption].
  - destruct H as [<-|H]; [congruence | apply (IH false); assumption].
Qed.

End StripFacts.

(** * Segmentation: further properties *)

Module SegmentProperties.
Import Py DataCleaner CleanerSpec StringFacts CleanHtmlFacts StripSpec StripFacts.
Local Open Scope N_scope.

Lemma paragraphs_tidy (text para : str) : In para (paragraphs text) -> tidy para.
Proof.
  unfold paragraphs. intros H. apply filter_In in H as [H Hne].
  apply in_map_iff in H as (p & <- & Hp). repeat split.
  - intros E. rewrite E in Hne. discriminate.
  - apply strip_idem.
  - intros H. apply (split_on_no_sep 10 text p Hp).
    eapply within_in; [apply strip_within | exact H].
Qed.

Lemma segment_paragraph_tidy (m : Z) (para s : str) :
  tidy para -> In s (segment_paragraph m para) -> tidy s.
Proof.
  intros (Hne & Hst & Hlf) Hs. unfold segment_paragraph in Hs.
  destruct (len para <=? m)%Z.
  { destruct Hs as [<-|[]]. repeat split; assumption. }
  apply in_flat_map in Hs as (seg & Hseg & Hs).
  assert (Htidy : tidy seg).
  { destruct (punctuation_segments_tidy m [] para seg) as [H1 H2];
      [apply stripped_inv, Hst | exact Hseg |].
    repeat split; [exact H1 | exact H2 |].
    intros H. apply Hlf. eapply within_in; [|exact H].
    apply (punctuation_segments_within m [] para seg Hseg). }
  destruct (len seg <=? m)%Z.
  { destruct Hs as [<-|[]]. exact Htidy. }
  apply (pack_words_joined m [] 0%Z) in Hs as (l & Hl & Hw & ->).
  - apply join_words; assumption.
  - cbn [app]. apply List.Forall_forall. intros w Hw.
    apply split_ws_token in Hw as (H1 & H2 & _). split; assumption.
Qed.

Lemma segment_text_tidy (text : str) (m : Z) (s : str) :
  In s (segment_text text m) -> tidy s.
Proof.
  intros Hs. unfold segment_text in Hs.
  apply in_flat_map in Hs as (para & Hpara & Hs).
  apply (segment_paragraph_tidy m para s); [|exact Hs].
  apply (paragraphs_tidy text), Hpara.
Qed.

(** X11.  Every segment is non-empty, has no whitespace at either end and
    holds no line feed, whatever the text and the bound. *)
Theorem segments_are_tidy (text : str) (max_length : Z) :
  Forall (fun s => s <> [] /\ strip s = s /\ ~ In 10 s) (segment_text text max_length).
Proof.
  apply List.Forall_forall. intros s Hs.
  destruct (segment_text_tidy text max_length s Hs) as (Hne & Hstrip & Hfeed).
  repeat split; assumption.
Qed.

Lemma segment_text_visible (text : str) (m : Z) :
  visible (concat (segment_text text m)) = visible text.
Proof.
  unfold segment_text. rewrite (visible_concat_flat_map _ (fun para => para)).
  - rewrite map_id. apply paragraphs_visible.
  - intros para _. apply segment_paragraph_visible.
Qed.

(** X12.  A text gives no segment exactly when it holds nothing but
    whitespace. *)
Theorem no_segment_iff_blank (text : str) (max_length : Z) :
  segment_text text max_length = [] <-> visible text = [].
Proof.
  split.
  - intros H. rewrite <- (segment_text_visible text max_length), H. reflexivity.
  - intros H. pose proof (segment_text_tidy text max_length) as Ht.
    pose proof (segment_text_visible text max_length) as Hv. rewrite H in Hv.
    destruct (segment_text text max_length) as [|s l]; [reflexivity|].
    destruct (Ht s (or_introl eq_refl)) as (Hne & Hst & _).
    cbn [concat] in Hv. rewrite visible_app in Hv. apply app_eq_nil in Hv as [Hv _].
    exfalso. apply Hne. rewrite <- Hst. apply strip_blank, Hv.
Qed.

Lemma segment_text_tidy_within (s : str) (m : Z) :
  tidy s -> (len s <= m)%Z -> segment_text s m = [s].
Proof.
  intros (Hne & Hst & Hlf) Hle. unfold segment_text, paragraphs.
  rewrite (split_on_single 10 s Hlf). cbn [map]. rewrite Hst.
  cbn [List.filter]. destruct s as [|c s]; [contradiction|]. cbn [is_nil negb flat_map].
  unfold segment_paragraph. apply Z.leb_le in Hle. rewrite Hle. reflexivity.
Qed.

(** X13.  Segmenting again changes nothing: a segment within the bound is
    the one segment of itself. *)
Theorem segment_within_bound_is_fixed (text : str) (max_length : Z) :
  Forall (fun s => (len s <= max_length)%Z -> segment_text s max_length = [s])
         (segment_text text max_length).
Proof.
  apply List.Forall_forall. intros s Hs Hle.
  apply segment_text_tidy_within; [|exact Hle].
  apply (segment_text_tidy text max_length s Hs).
Qed.

End SegmentProperties.

(** * utils.py: properties *)

Module UtilsProperties.
Import Numpy SimilarityCalculator Py DataCleaner CleanerSpec StringFacts CleanHtmlFacts.
Import StripSpec StripFacts SimilarityFacts Utils.

(** *** [calculate_overall_similarity] *)

Section Overall.
Local Open Scope R_scope.

Lemma fold_left_Rplus (l : list R) (a : R) :
  fold_left Rplus l a = a + np_sum l.
Proof.
  revert a; induction l as [|x l IH]; intros a; cbn [fold_left].
  - unfold np_sum. simpl. ring.
  - rewrite IH. unfold np_sum. simpl. ring.
Qed.

Lemma calculate_overall_similarity_some (similar_pairs : list similar_pair)
    (total_questions : Z) :
  similar_pairs <> [] -> total_questions <> 0%Z ->
  calculate_overall_similarity similar_pairs total_questions
  = Returned (Rmin 1 (np_sum (map similarity similar_pairs) / IZR total_questions)).
Proof.
  intros Hp Ht. unfold calculate_overall_similarity.
  destruct similar_pairs as [|p l]; [contradiction|]. cbn [is_nil orb].
  apply Z.eqb_neq in Ht as E. rewrite E.
  assert (HT : IZR total_questions <> 0) by (apply not_0_IZR, Ht).
  assert (HN : INR (length (p :: l)) <> 0) by (apply not_0_INR; discriminate).
  rewrite (div_nonzero _ _ HT). cbn [bind]. rewrite (div_nonzero _ _ HN). cbn [bind].
  rewrite fold_left_Rplus. do 2 f_equal. field. split; assumption.
Qed.


Lemma np_sum_nonneg (l : list R) : Forall (fun x => 0 <= x) l -> 0 <= np_sum l.
Proof.
  induction 1 as [|x l Hx _ IH]; unfold np_sum in *; simpl; lra.
Qed.

(** X20.  With scores that are not negative and a number of questions that
    is not negative, the overall score lies between 0 and 1. *)
Theorem overall_similarity_in_unit_interval (similar_pairs : list similar_pair)
    (total_questions : Z) :
  Forall (fun p => 0 <= similarity p) similar_pairs ->
  (0 <= total_questions)%Z ->
  exists r, calculate_overall_similarity similar_pairs total_questions = Returned r
            /\ 0 <= r <= 1.
Proof.
  intros Hs Ht.
  destruct similar_pairs as [|p l]; [exists 0; split; [reflexivity | lra]|].
  destruct (Z.eq_dec total_questions 0%Z) as [->|E]; [exists 0; split; [reflexivity | lra]|].
  rewrite calculate_overall_similarity_some by (try discriminate; exact E).
  eexists. split; [reflexivity|]. set (similar_pairs := p :: l) in *.
  assert (HT : 0 < IZR total_questions) by (apply IZR_lt; lia).
  assert (HS : 0 <= np_sum (map similarity similar_pairs)).
  { apply np_sum_nonneg. apply Forall_map. exact Hs. }
  split; [|apply Rmin_l].
  apply Rmin_glb; [lra|]. apply Rmult_le_pos; [exact HS|].
  apply Rlt_le, Rinv_0_lt_compat, HT.
Qed.

Lemma overall_similarity_in_unit_interval_witness :
  exists r, calculate_overall_similarity
              [SimilarPair (Info [] [] []) (Info [] [] []) 1] 2 = Returned r
            /\ 0 <= r <= 1.
Proof.
  apply (overall_similarity_in_unit_interval
           [SimilarPair (Info [] [] []) (Info [] [] []) 1] 2).
  - repeat constructor. cbn. lra.
  - lia.
Defined.

End Overall.

Local Open Scope N_scope.

(** *** [normalize_choices] *)

Lemma take_while_all (p : N -> bool) (s : str) :
  Forall (fun c => p c = true) s -> take_while p s = s.
Proof.
  induction 1 as [|c s Hc _ IH]; [reflexivity|].
  cbn [take_while]. rewrite Hc, IH. reflexivity.
Qed.

Lemma take_while_holds (p : N -> bool) (s : str) :
  Forall (fun c => p c = true) (take_while p s).
Proof.
  induction s as [|c s IH]; [constructor|].
  cbn [take_while]. destruct (p c) eqn:E; constructor; assumption.
Qed.

Lemma to_end_no_feed (s : str) :
  ~ In 10 s -> to_end s = Some s.
Proof.
  intros H. unfold to_end.
  rewrite take_while_all.
  - rewrite skipn_all. reflexivity.
  - apply List.Forall_forall. intros c Hc. apply negb_true_iff, N.eqb_neq.
    intros ->. apply H, Hc.
Qed.

Lemma to_end_inv (s content : str) : to_end s = Some content -> ~ In 10 content.
Proof.
  unfold to_end. intros H.
  assert (E : content = take_while (fun c => negb (c =? 10)) s).
  { destruct (skipn _ s) as [|c [|c' r]]; congruence. }
  rewrite E. intros Hin.
  pose proof (take_while_holds (fun c => negb (c =? 10)) s) as Hall.
  rewrite List.Forall_forall in Hall. specialize (Hall 10 Hin). discriminate.
Qed.

Lemma upper_is_letter (c : N) : is_letter c = true -> is_letter (upper c) = true.
Proof.
  unfold is_letter, upper. intros H.
  destruct ((97 <=? c) && (c <=? 122))%bool eqn:E.
  - apply andb_true_iff in E as [E1 E2]. apply N.leb_le in E1, E2.
    apply orb_true_iff. left. apply andb_true_iff. split; apply N.leb_le; lia.
  - rewrite ?E. exact H.
Qed.

Lemma upper_idem (c : N) : is_letter c = true -> upper (upper c) = upper c.
Proof.
  unfold is_letter, upper. intros H.
  destruct ((97 <=? c) && (c <=? 122))%bool eqn:E; [|rewrite E; reflexivity].
  apply andb_true_iff in E as [E1 E2]. apply N.leb_le in E1, E2.
  replace ((97 <=? c - 32) && (c - 32 <=? 122))%bool with false; [reflexivity|].
  symmetry. apply andb_false_iff. left. apply N.leb_gt. lia.
Qed.

Lemma strip_space_cons (s : str) : strip (32 :: s) = strip s.
Proof. reflexivity. Qed.

(** The pattern on a choice already in the normal form. *)
Lemma choice_pattern_normal (u : N) (t : str) :
  is_letter u = true -> ~ In 10 t ->
  choice_pattern (40 :: u :: 41 :: t) = Some (u, t).
Proof.
  intros Hu Ht. unfold choice_pattern.
  replace (is_open 40) with true by reflexivity. rewrite Hu.
  replace (is_close 41) with true by reflexivity.
  rewrite (to_end_no_feed t Ht). reflexivity.
Qed.

Lemma normalize_choice_idem (choice : str) :
  normalize_choice (normalize_choice choice) = normalize_choice choice.
Proof.
  unfold normalize_choice at 2 3.
  destruct (is_nil (strip choice)) eqn:Eb.
  { unfold normalize_choice. rewrite Eb. reflexivity. }
  destruct (choice_pattern (strip choice)) as [[letter content]|] eqn:Ep.
  2:{ unfold normalize_choice. rewrite Eb, Ep. reflexivity. }
  assert (Hl : is_letter letter = true /\ ~ In 10 content).
  { unfold choice_pattern in Ep.
    destruct (match strip choice with [] => _ | c :: s => _ end) as [|l s]; [discriminate|].
    destruct (is_letter l) eqn:El; [|discriminate].
    destruct (to_end _) as [c|] eqn:Et; [|discriminate].
    injection Ep as <- <-. split; [exact El | eapply to_end_inv, Et]. }
  destruct Hl as [Hl Hfeed].
  assert (Hfeed' : ~ In 10 (strip content)).
  { intros H. apply Hfeed. eapply within_in; [apply strip_within | exact H]. }
  pose proof (upper_is_letter letter Hl) as Hu.
  unfold normalize_choice.
  destruct (strip content) as [|c t] eqn:Es.
  - (* the content is blank: the trailing space is stripped *)
    replace (strip ([40; upper letter; 41; 32] ++ [])) with [40; upper letter; 41].
    + cbn [is_nil].
      rewrite (choice_pattern_normal (upper letter) [] Hu) by (intros []).
      rewrite (upper_idem letter Hl). reflexivity.
    + symmetry. cbn [app].
      assert (Hv : isspace (upper letter) = false).
      { revert Hu. generalize (upper letter). intros u. unfold is_letter, isspace. intros H.
        apply orb_true_iff in H as [H|H]; apply andb_true_iff in H as [H1 H2];
          apply N.leb_le in H1, H2;
          repeat (apply orb_false_iff; split);
          try (apply andb_false_iff; first [left; apply N.leb_gt; lia | right; apply N.leb_gt; lia]);
          apply N.eqb_neq; lia. }
      unfold strip, lstrip, rstrip. cbn [drop_while]. replace (isspace 40) with false by reflexivity.
      cbn [rev app drop_while]. replace (isspace 32) with true by reflexivity.
      replace (isspace 41) with false by reflexivity. reflexivity.
  - (* the content [c :: t] is stripped and not empty *)
    assert (Hst : strip (c :: t) = c :: t) by (rewrite <- Es; apply strip_idem).
    assert (Hwhole : strip ([40; upper letter; 41; 32] ++ c :: t)
                     = [40; upper letter; 41; 32] ++ c :: t).
    { apply strip_id; [reflexivity|].
      apply (ends_visible_app [40; upper letter; 41; 32] (c :: t)); [discriminate|].
      apply stripped_inv, Hst. }
    rewrite Hwhole. cbn [app is_nil].
    rewrite (choice_pattern_normal (upper letter) (32 :: c :: t) Hu).
    + rewrite strip_space_cons, Hst, (upper_idem letter Hl). reflexivity.
    + intros [H|H]; [discriminate | exact (Hfeed' H)].
Qed.

(** X21.  Normalising the choices a second time changes nothing, and no
    choice is added or dropped. *)
Theorem normalize_choices_idempotent (choices : list str) :
  normalize_choices (normalize_choices choices) = normalize_choices choices
  /\ length (normalize_choices choices) = length choices.
Proof.
  unfold normalize_choices. split; [|apply length_map].
  rewrite map_map. apply map_ext. intros c. apply normalize_choice_idem.
Qed.

End UtilsProperties.

(** * Core content and [vectorize_text]: properties *)

Module CoreContentProperties.
Import Numpy Py DataCleaner CleanerSpec StringFacts CleanHtmlFacts.
Import StripSpec StripFacts SegmentProperties Utils PaperVectorizer TextVectorizer.
Import VectorizerSpec VectorizerClaims SimilarityFacts.
Local Open Scope N_scope.

Section Core.
Variable get_text : str -> option str.
Variable unicode_decimal : N -> option nat.

Local Abbreviation extract_core_content := (extract_core_content get_text unicode_decimal).

Lemma extract_core_content_stripped (text : str) :
  strip (extract_core_content text) = extract_core_content text.
Proof.
  unfold Utils.extract_core_content.
  destruct (is_nil text); [reflexivity|].
  destruct (get_text text) as [t|]; [|apply strip_idem].
  destruct (re_sub _ _ _ _); apply strip_idem.
Qed.

(** When the markup library returns, the core content is the collapsed
    text, stripped. *)
Lemma extract_core_content_normal (text t : str) :
  text <> [] -> get_text text = Some t ->
  exists u, extract_core_content text = strip (collapse_whitespace u).
Proof.
  intros Hne Ht. unfold Utils.extract_core_content. rewrite Ht.
  destruct text; [contradiction|]. cbn [is_nil].
  destruct (sub_from_returns (score_pattern unicode_decimal) delete 0 tt
              (remove_numbering unicode_decimal t)) as [r Hr].
  { intros st m. eexists. reflexivity. }
  unfold re_sub. rewrite Hr. exists (snd r). reflexivity.
Qed.

Lemma extract_core_content_one_line (text t : str) :
  get_text text = Some t -> ~ In 10 (extract_core_content text).
Proof.
  intros Ht. destruct text as [|c text]; [intros []|].
  destruct (extract_core_content_normal (c :: text) t) as [u Hu]; [discriminate | exact Ht|].
  rewrite Hu. intros H.
  assert (Hin : In 10 (collapse_whitespace u)).
  { eapply within_in; [apply strip_within | exact H]. }
  apply collapse_from_spaces in Hin; [discriminate | reflexivity].
Qed.

(** X22.  The core content has no whitespace at either end, so the
    [strip()] of [get_content_fingerprint] changes nothing: the fingerprint
    is the hash of the paper id, two colons and the core content. *)
Theorem core_content_is_stripped (sha256_hex : str -> str) (text : str) :
  strip (extract_core_content text) = extract_core_content text
  /\ forall question paper_id,
       get_content_fingerprint extract_core_content sha256_hex question paper_id
       = sha256_hex (paper_id ++ codes "::" ++ extract_core_content (cq_text question)).
Proof.
  split; [apply extract_core_content_stripped|].
  intros question paper_id. unfold get_content_fingerprint.
  rewrite extract_core_content_stripped. reflexivity.
Qed.

Variable encode : str -> option ndarray.
Variable vector_size : nat.

Local Abbreviation vectorize_text :=
  (vectorize_text encode vector_size get_text unicode_decimal).

Lemma zip_with_plus_zero (v : ndarray) :
  zip_with Rplus v (repeat 0%R (length v)) = v.
Proof.
  induction v as [|x v IH]; [reflexivity|].
  cbn [length repeat zip_with]. rewrite IH. f_equal. lra.
Qed.

Lemma np_mean_axis0_single (v : ndarray) : np_mean_axis0 [v] = Returned v.
Proof.
  rewrite np_mean_axis0_uniform.
  - unfold sum_axis0, width. cbn [fold_right hd length].
    rewrite zip_with_plus_zero. f_equal.
    rewrite <- (map_id v) at 2. apply map_ext. intros s. cbn. field.
  - discriminate.
  - unfold uniform, width. cbn [forallb hd]. rewrite Nat.eqb_refl. reflexivity.
Qed.

(** X23.  For a text that is not blank and that the markup library
    accepts: when the core content is one segment (at most 500 characters),
    the vector is the model's embedding of the core content, unchanged; when
    the core content is empty (a bare number, say), there is no vector. *)
Theorem vectorize_text_of_short_text (text t : str) :
  strip text <> [] -> get_text text = Some t ->
  let core := extract_core_content text in
  (core <> [] -> (len core <= 500)%Z -> vectorize_text text = encode core)
  /\ (core = [] -> vectorize_text text = None).
Proof.
  intros Hne Ht core. unfold TextVectorizer.vectorize_text.
  destruct (strip text) as [|c s] eqn:Es; [contradiction|]. cbn [is_nil].
  fold core. split.
  - intros Hcore Hlen.
    rewrite segment_text_tidy_within; [|repeat split|exact Hlen].
    + cbn [encode_all]. destruct (encode core) as [v|]; [|reflexivity].
      cbn [option_map]. rewrite np_mean_axis0_single. reflexivity.
    + exact Hcore.
    + apply extract_core_content_stripped.
    + apply (extract_core_content_one_line text t Ht).
  - intros ->. reflexivity.
Qed.

End Core.

Lemma vectorize_text_of_short_text_witness :
  let get_text := fun s : str => Some s in
  let unicode_decimal := fun _ : N => @None nat in
  let encode := fun s : str => Some [INR (length s)] in
  let core := extract_core_content get_text unicode_decimal (codes "1. (5 marks) x") in
  (core <> [] -> (len core <= 500)%Z ->
   vectorize_text encode 1 get_text unicode_decimal (codes "1. (5 marks) x") = encode core)
  /\ (core = [] ->
      vectorize_text encode 1 get_text unicode_decimal (codes "1. (5 marks) x") = None).
Proof.
  intros get_text unicode_decimal encode.
  apply (vectorize_text_of_short_text get_text unicode_decimal encode 1
           (codes "1. (5 marks) x") (codes "1. (5 marks) x")).
  - vm_compute. discriminate.
  - reflexivity.
Defined.

End CoreContentProperties.

(** * paper_vectorizer.py: further properties *)

Module PaperProperties.
Import Numpy SimilarityCalculator SimilaritySpec SimilarityFacts PairSpec SimilarityProperties.
Import PaperVectorizer VectorizerSpec VectorizerClaims PipelineSpec.
Local Open Scope R_scope.

Lemma mapM_returns {A B : Type} (f : A -> outcome B) (P : A -> B -> Prop) (l : list A) :
  (forall x, In x l -> exists y, f x = Returned y /\ P x y) ->
  exists ys, mapM f l = Returned ys /\ Forall2 P l ys.
Proof.
  induction l as [|x l IH]; intros H.
  - exists []. split; [reflexivity | constructor].
  - destruct (H x (or_introl eq_refl)) as (y & Hy & HP).
    destruct IH as (ys & Hys & HF); [intros z Hz; apply H; right; exact Hz|].
    exists (y :: ys). cbn [mapM]. rewrite Hy, Hys. split; [reflexivity|].
    constructor; assumption.
Qed.

Lemma mapM_inv {A B : Type} (f : A -> outcome B) (l : list A) (ys : list B) :
  mapM f l = Returned ys -> Forall2 (fun x y => f x = Returned y) l ys.
Proof.
  revert ys; induction l as [|x l IH]; intros ys H; cbn [mapM] in H.
  - injection H as <-. constructor.
  - destruct (f x) as [y|] eqn:Hy; [|discriminate]. cbn [bind] in H.
    destruct (mapM f l) as [ys'|]; [|discriminate]. cbn [bind] in H.
    injection H as <-. constructor; [exact Hy | apply IH; reflexivity].
Qed.

Lemma mapM_inv_in {A B : Type} (f : A -> outcome B) (l : list A) (ys : list B) (x : A) :
  mapM f l = Returned ys -> In x l -> exists y, f x = Returned y.
Proof.
  intros H Hx. apply mapM_inv in H.
  induction H as [|a y l ys Ha _ IH]; [destruct Hx|].
  destruct Hx as [<-|Hx]; [exists y; exact Ha | apply IH, Hx].
Qed.

Lemma mapM_raised {A B : Type} (f : A -> outcome B) (l : list A) (e : exn) :
  mapM f l = Raised e -> exists x, In x l /\ f x = Raised e.
Proof.
  induction l as [|x l IH]; intros H; cbn [mapM] in H; [discriminate|].
  destruct (f x) as [y|e'] eqn:Hy.
  - cbn [bind] in H. destruct (mapM f l) as [ys|e'']; [discriminate|].
    cbn [bind] in H. injection H as <-.
    destruct (IH eq_refl) as (z & Hz & Hf). exists z. split; [right; exact Hz | exact Hf].
  - cbn [bind] in H. injection H as <-. exists x. split; [left; reflexivity | exact Hy].
Qed.

(** *** The mean *)

Lemma np_mean_axis0_ragged (rows : list ndarray) :
  uniform rows = false -> np_mean_axis0 rows = Raised ValueError.
Proof.
  intros H. unfold np_mean_axis0, np_array. fold (uniform rows). rewrite H. reflexivity.
Qed.

Lemma zip_with_length (a b : ndarray) :
  length a = length b -> length (zip_with Rplus a b) = length a.
Proof.
  revert b; induction a as [|x a IH]; intros [|y b] H; try discriminate; [reflexivity|].
  cbn [zip_with length]. rewrite IH; [reflexivity | injection H as H; exact H].
Qed.

Lemma sum_rows_length (D : nat) (rows : list ndarray) :
  Forall (fun r => length r = D) rows ->
  length (fold_right (zip_with Rplus) (repeat 0 D) rows) = D.
Proof.
  induction 1 as [|r rows Hr _ IH]; cbn [fold_right]; [apply repeat_length|].
  rewrite zip_with_length; congruence.
Qed.

Lemma np_mean_axis0_sized (D : nat) (rows : list ndarray) :
  rows <> [] -> Forall (fun r => length r = D) rows ->
  exists v, np_mean_axis0 rows = Returned v /\ length v = D.
Proof.
  intros Hne HD.
  assert (Hu : uniform rows = true).
  { apply uniform_spec. intros r r' Hr Hr'. rewrite List.Forall_forall in HD.
    rewrite (HD r Hr), (HD r' Hr'). reflexivity. }
  rewrite (np_mean_axis0_uniform rows Hne Hu). eexists. split; [reflexivity|].
  rewrite length_map. unfold sum_axis0.
  assert (Hw : width rows = D).
  { destruct rows as [|r rows]; [contradiction|].
    apply Forall_cons_iff in HD as [HD _]. exact HD. }
  rewrite Hw. apply sum_rows_length, HD.
Qed.

Lemma sum_copies (v : ndarray) (n : nat) :
  fold_right (zip_with Rplus) (repeat 0 (length v)) (repeat v n)
  = map (fun x => INR n * x) v.
Proof.
  induction n as [|n IH].
  - cbn [repeat fold_right]. induction v as [|x v IHv]; [reflexivity|].
    cbn [length repeat map]. rewrite IHv. f_equal. cbn. ring.
  - cbn [repeat fold_right]. rewrite IH. clear IH.
    induction v as [|x v IHv]; [reflexivity|].
    cbn [map zip_with]. rewrite IHv. f_equal. rewrite S_INR. ring.
Qed.

Lemma np_mean_axis0_copies (v : ndarray) (n : nat) :
  np_mean_axis0 (repeat v (S n)) = Returned v.
Proof.
  rewrite np_mean_axis0_uniform.
  - unfold sum_axis0. replace (width (repeat v (S n))) with (length v) by reflexivity.
    rewrite sum_copies, map_map, repeat_length. f_equal.
    rewrite <- (map_id v) at 2. apply map_ext. intros x. field.
    apply not_0_INR. discriminate.
  - discriminate.
  - apply uniform_spec. intros r r' Hr Hr'.
    apply repeat_spec in Hr, Hr'. subst. reflexivity.
Qed.

Lemma Forall_eq_repeat {A : Type} (x : A) (l : list A) :
  Forall (eq x) l -> l = repeat x (length l).
Proof.
  induction 1 as [|y l <- _ IH]; [reflexivity|]. cbn [length repeat]. f_equal. exact IH.
Qed.

Section Vectorize.
Variable vectorize_text : str -> option ndarray.
Variable vector_size : nat.

Local Abbreviation embed_segments := (embed_segments vectorize_text).
Local Abbreviation question_vector := (question_vector vectorize_text vector_size).
Local Abbreviation vectorize_question := (vectorize_question vectorize_text vector_size).
Local Abbreviation vectorize_paper := (vectorize_paper vectorize_text vector_size).
Local Abbreviation embeddings_of := (embeddings_of vectorize_text).

Lemma embed_segments_nil (segments : list str) :
  embed_segments segments = [] <-> Forall (fun s => vectorize_text s = None) segments.
Proof.
  unfold PaperVectorizer.embed_segments. induction segments as [|s l IH]; cbn [flat_map].
  - split; [constructor | reflexivity].
  - destruct (vectorize_text s) as [v|] eqn:E; cbn [app].
    + split; [discriminate|]. intros H. apply Forall_cons_iff in H as [H _]. congruence.
    + rewrite IH. split; [intros H; constructor; assumption|].
      intros H. apply Forall_cons_iff in H as [_ H]. exact H.
Qed.

Lemma embed_segments_in (segments : list str) (v : ndarray) :
  In v (embed_segments segments) -> exists s, In s segments /\ vectorize_text s = Some v.
Proof.
  unfold PaperVectorizer.embed_segments. intros H.
  apply in_flat_map in H as (s & Hs & Hv). exists s. split; [exact Hs|].
  destruct (vectorize_text s) as [v'|]; [|destruct Hv].
  destruct Hv as [<-|[]]. reflexivity.
Qed.

(** The three outcomes of [question_vector] on a question with segments. *)
Lemma question_vector_cases (question_text : str) (segments : list str) :
  segments <> [] ->
  question_vector question_text segments
  = match embed_segments segments with
    | [] => Returned None
    | e :: es =>
        if uniform (e :: es)
        then Returned (Some (map (fun s => s / INR (length (e :: es))) (sum_axis0 (e :: es))))
        else Raised ValueError
    end.
Proof.
  intros Hne. unfold PaperVectorizer.question_vector.
  destruct segments as [|s l]; [contradiction|].
  destruct (embed_segments (s :: l)) as [|e es] eqn:E; [reflexivity|].
  destruct (uniform (e :: es)) eqn:Hu.
  - rewrite np_mean_axis0_uniform by (try discriminate; exact Hu). reflexivity.
  - rewrite np_mean_axis0_ragged by exact Hu. reflexivity.
Qed.

(** X14.  A question is left without a vector exactly when it has segments
    and the provider embeds none of them; a question without segments always
    gets a vector. *)
Theorem no_vector_iff_no_segment_embedded (question_text : str) (segments : list str) :
  question_vector question_text segments = Returned None
  <-> segments <> [] /\ Forall (fun s => vectorize_text s = None) segments.
Proof.
  destruct segments as [|s l].
  - unfold PaperVectorizer.question_vector. split.
    + destruct (vectorize_text question_text); discriminate.
    + intros [H _]. contradiction.
  - rewrite question_vector_cases by discriminate. rewrite <- embed_segments_nil.
    destruct (embed_segments (s :: l)) as [|e es].
    + split; [intros _; split; [discriminate | reflexivity] | reflexivity].
    + split; [|intros [_ H]; discriminate].
      destruct (uniform (e :: es)); discriminate.
Qed.


Lemma vectorize_question_cases (q : cleaned) :
  (uniform (embeddings_of q) = true ->
   exists out, vectorize_question q = Returned out
               /\ qd_id out = c_id q /\ qd_type out = c_type q /\ qd_text out = c_text q)
  /\ (uniform (embeddings_of q) = false -> vectorize_question q = Raised ValueError).
Proof.
  unfold PipelineSpec.embeddings_of, PaperVectorizer.vectorize_question.
  destruct (default [] (c_segments q)) as [|s l] eqn:Es.
  - split; [|discriminate]. intros _. unfold PaperVectorizer.question_vector.
    destruct (vectorize_text (c_text q)); cbn [bind]; eexists; repeat split.
  - rewrite question_vector_cases by discriminate.
    destruct (embed_segments (s :: l)) as [|e es].
    + split; [|discriminate]. intros _. cbn [bind]. eexists. repeat split.
    + split; intros ->; [|reflexivity]. cbn [bind]. eexists. repeat split.
Qed.

(** X16.  [vectorize_paper] returns exactly when, for every question, the
    embeddings of its segments have one length; then it writes one record
    per question, in input order, with the same id, type and text, and
    otherwise it raises the shape error. *)
Theorem vectorize_paper_returns_iff (exam_data : list cleaned) :
  ((exists out, vectorize_paper exam_data = Returned out)
   <-> Forall (fun q => uniform (embeddings_of q) = true) exam_data)
  /\ (forall out, vectorize_paper exam_data = Returned out ->
        map qd_id out = map c_id exam_data
        /\ map qd_type out = map c_type exam_data
        /\ map qd_text out = map c_text exam_data)
  /\ (forall e, vectorize_paper exam_data = Raised e -> e = ValueError).
Proof.
  unfold PaperVectorizer.vectorize_paper. split; [split|split].
  - intros [out H]. apply List.Forall_forall. intros q Hq.
    destruct (uniform (embeddings_of q)) eqn:Hu; [reflexivity|].
    apply vectorize_question_cases in Hu.
    destruct (mapM_inv_in _ _ _ q H Hq) as [y Hy]. congruence.
  - intros H.
    destruct (mapM_returns vectorize_question (fun _ _ => True) exam_data) as (ys & Hys & _).
    + intros q Hq. rewrite List.Forall_forall in H.
      destruct (proj1 (vectorize_question_cases q) (H q Hq)) as (out & Ho & _).
      exists out. split; [exact Ho | exact I].
    + exists ys. exact Hys.
  - intros out H. apply mapM_inv in H.
    induction H as [|q y l ys Hq _ IH]; [repeat split|].
    destruct (uniform (embeddings_of q)) eqn:Hu.
    + destruct (proj1 (vectorize_question_cases q) Hu) as (out & Ho & H1 & H2 & H3).
      assert (y = out) by congruence. subst y.
      destruct IH as (I1 & I2 & I3). cbn [map]. rewrite H1, H2, H3, I1, I2, I3. repeat split.
    + apply vectorize_question_cases in Hu. congruence.
  - intros e H. apply mapM_raised in H as (q & _ & Hq).
    destruct (uniform (embeddings_of q)) eqn:Hu.
    + destruct (proj1 (vectorize_question_cases q) Hu) as (out & Ho & _). congruence.
    + apply vectorize_question_cases in Hu. congruence.
Qed.

(** *** The vectorised papers in [calculate_similarity] *)

Hypothesis provider_sized :
  forall s v, vectorize_text s = Some v -> length v = vector_size.

Lemma question_vector_sized (question_text : str) (segments : list str) :
  exists r, question_vector question_text segments = Returned r
            /\ match r with Some v => length v = vector_size | None => True end.
Proof.
  destruct segments as [|s l].
  - unfold PaperVectorizer.question_vector.
    destruct (vectorize_text question_text) as [v|] eqn:E; eexists; (split; [reflexivity|]).
    + apply (provider_sized _ _ E).
    + apply repeat_length.
  - unfold PaperVectorizer.question_vector.
    destruct (embed_segments (s :: l)) as [|e es] eqn:E.
    { exists None. split; [reflexivity | exact I]. }
    destruct (np_mean_axis0_sized vector_size (e :: es)) as (v & Hv & Hl); [discriminate| |].
    + apply List.Forall_forall. intros r Hr. rewrite <- E in Hr.
      apply embed_segments_in in Hr as (seg & _ & Hseg). apply (provider_sized _ _ Hseg).
    + rewrite Hv. exists (Some v). split; [reflexivity | exact Hl].
Qed.

Lemma vectorize_paper_sized (exam_data : list cleaned) :
  exists out, vectorize_paper exam_data = Returned out
              /\ Forall (fun v => length v = vector_size)
                        (collect_vectors (map as_question out)).
Proof.
  destruct (mapM_returns vectorize_question
              (fun _ out => match qd_vector out with
                            | Some v => length v = vector_size
                            | None => True
                            end) exam_data) as (out & Hout & HF).
  - intros q _. unfold PaperVectorizer.vectorize_question.
    destruct (question_vector_sized (c_text q) (default [] (c_segments q))) as (r & Hr & Hs).
    rewrite Hr. cbn [bind]. eexists. split; [reflexivity | exact Hs].
  - exists out. split; [exact Hout|].
    clear Hout. induction HF as [|q y l ys Hy _ IH]; [constructor|].
    cbn [map]. unfold collect_vectors in *. cbn [flat_map as_question q_vector].
    destruct (qd_vector y) as [v|]; cbn [app]; [constructor; assumption | exact IH].
Qed.

End Vectorize.


(** X17.  With a provider whose vectors all have the declared, positive
    dimension, the two stages compose without error: both papers are
    vectorised, and [calculate_similarity] on the two results returns. *)
Theorem sized_provider_never_raises
    (vectorize_text : str -> option ndarray) (vector_size : nat)
    (paper_a paper_b : list cleaned) (fa fb : str) (th : R) (ts : bool) (w : R) (dd : bool) :
  (0 < vector_size)%nat ->
  (forall s v, vectorize_text s = Some v -> length v = vector_size) ->
  exists out_a out_b d,
    vectorize_paper vectorize_text vector_size paper_a = Returned out_a
    /\ vectorize_paper vectorize_text vector_size paper_b = Returned out_b
    /\ calculate_similarity fa fb (map as_question out_a) (map as_question out_b) th ts w dd
       = Returned d.
Proof.
  intros Hpos Hsized.
  destruct (vectorize_paper_sized vectorize_text vector_size Hsized paper_a) as (oa & Ha & HA).
  destruct (vectorize_paper_sized vectorize_text vector_size Hsized paper_b) as (ob & Hb & HB).
  destruct (proj2 (calculate_similarity_shaped fa fb (map as_question oa) (map as_question ob)
                     th ts w dd)) as [d Hd].
  { right. right. exists vector_size. repeat split; assumption. }
  exists oa, ob, d. repeat split; assumption.
Qed.

Lemma sized_provider_never_raises_witness :
  exists out_a out_b d,
    vectorize_paper (constant_provider [1; 0]) 2
      [Cleaned [49]%N [] None [97]%N (Some [[97]%N]) None] = Returned out_a
    /\ vectorize_paper (constant_provider [1; 0]) 2
         [Cleaned [50]%N [] None [98]%N None None] = Returned out_b
    /\ calculate_similarity [] [] (map as_question out_a) (map as_question out_b)
         (7 / 10) true (6 / 10) true = Returned d.
Proof.
  apply (sized_provider_never_raises (constant_provider [1; 0]) 2).
  - lia.
  - intros s v H. injection H as <-. reflexivity.
Defined.

End PaperProperties.

(** * Markup cleaning: further properties *)

Module CleanHtmlProperties.
Import Py DataCleaner CleanerSpec StringFacts CleanHtmlFacts StripSpec StripFacts.
Local Open Scope N_scope.

Section CleanHtml.
Variable strip_markup : str -> str.
Variable unicode_decimal : N -> option nat.

Local Abbreviation placeholder_pattern := (placeholder_pattern unicode_decimal).
Local Abbreviation restore_math := (restore_math unicode_decimal).
Local Abbreviation clean_html := (clean_html strip_markup unicode_decimal).
Local Abbreviation normalised := (normalised strip_markup).

Lemma placeholder_pattern_marker (s : str) (n : nat) :
  placeholder_pattern s = Some n -> exists rest, s = marker ++ rest.
Proof.
  unfold DataCleaner.placeholder_pattern, starts_with. intros H.
  destruct (bool_decide (firstn (length (codes "__MATH_")) s = codes "__MATH_")) eqn:E;
    [|discriminate].
  apply bool_decide_eq_true_1 in E. exists (skipn (length (codes "__MATH_")) s).
  unfold marker. rewrite <- E at 1. symmetry. apply firstn_skipn.
Qed.

Lemma restore_marker_free (blocks : list str) (s : str) :
  marker_free s ->
  re_sub placeholder_pattern (restore_math blocks) tt s = Returned (tt, s).
Proof.
  intros Hfree.
  pose proof (re_sub_copy_prefix placeholder_pattern (restore_math blocks) tt s []) as H.
  rewrite app_nil_r in H. rewrite H.
  - rewrite re_sub_nil. cbn [bind fst snd]. rewrite app_nil_r. reflexivity.
  - intros a b -> _. rewrite app_nil_r.
    destruct (placeholder_pattern b) as [n|] eqn:E; [|reflexivity].
    exfalso. apply placeholder_pattern_marker in E as [rest ->].
    apply Hfree. exists a, rest. reflexivity.
Qed.

Lemma normalised_plain (raw : str) :
  Forall (fun c => is_control c = false /\ (isspace c = true -> c = 32)) (normalised raw)
  /\ strip (normalised raw) = normalised raw.
Proof.
  split; [|apply strip_idem].
  apply List.Forall_forall. intros c Hc. unfold CleanerSpec.normalised in Hc.
  apply (within_in _ _ c (strip_within _)) in Hc.
  unfold remove_control in Hc. apply filter_In in Hc as [Hc Hn]. split.
  - apply negb_true_iff, Hn.
  - apply (collapse_from_spaces false _ c Hc).
Qed.

(** X18.  When the sanitised, normalised text does not hold the text
    [__MATH_], [clean_html] returns it as it is: no control character, no
    whitespace but the space, none at either end. *)
Theorem clean_html_without_placeholder (raw : str) :
  marker_free (normalised raw) ->
  clean_html raw = Returned (normalised raw)
  /\ Forall (fun c => is_control c = false /\ (isspace c = true -> c = 32)) (normalised raw)
  /\ strip (normalised raw) = normalised raw.
Proof.
  intros Hfree. split; [|apply normalised_plain].
  rewrite clean_html_eq, (restore_marker_free _ _ Hfree). reflexivity.
Qed.

End CleanHtml.

Lemma clean_html_without_placeholder_witness :
  let raw := [32; 97; 9; 10; 98; 7; 32] in
  clean_html (fun s => s) (fun _ => None) raw = Returned (normalised (fun s => s) raw)
  /\ Forall (fun c => is_control c = false /\ (isspace c = true -> c = 32))
            (normalised (fun s => s) raw)
  /\ strip (normalised (fun s => s) raw) = normalised (fun s => s) raw.
Proof.
  intros raw.
  apply (clean_html_without_placeholder (fun s => s) (fun _ => None) raw).
  intros H. apply within_length in H. vm_compute in H. lia.
Defined.

End CleanHtmlProperties.
